(** * Per-unit payload cache and synchronisation engine of [public/input.js]

    A shallow embedding of the browser script [public/input.js] (and of the
    helpers it shares with [public/inputfinal.js]): the unit-mapping
    resolver, the three payload tiers, the unit switch controller, the
    autosave pipeline and the timer formatter, followed by the properties
    the specification states about them. *)

From Stdlib Require Import ZArith QArith Qround Lqa Ascii String List Lia.
From Stdlib Require Import DecimalString DecimalZ DecimalN.
From stdpp Require Import base gmap strings list.

Set Default Proof Using "Type".
Local Open Scope Z_scope.

(** ** Strings of the platform *)

(** [String(n)] for an integer [n]: decimal digits, a minus sign when
    negative. *)
Definition String_of_Z (n : Z) : string :=
  NilZero.string_of_int (Z.to_int n).

(** [s.padStart(target, pad)]: the filler is [pad] repeated and cut to the
    missing length; nothing is added when [s] is long enough or [pad] is
    empty. *)
Fixpoint repeat_string (n : nat) (pad : string) : string :=
  match n with
  | O => ""
  | S k => pad +:+ repeat_string k pad
  end.

Fixpoint string_take (n : nat) (s : string) : string :=
  match n, s with
  | S k, String c r => String c (string_take k r)
  | _, _ => ""
  end.

Definition padStart (s : string) (target : nat) (pad : string) : string :=
  let missing := (target - String.length s)%nat in
  string_take missing (repeat_string missing pad) +:+ s.

(** ** Numbers handed to the timer formatter *)

(** A JavaScript number is NaN, an infinity or a finite value; finite values
    are taken with their exact rational value. *)
Inductive number : Type :=
| NaN
| Infinity (negative : bool)
| Finite (q : Q).

(** What [computeLayerSeconds] can put in a slot of its result: a number, or
    the two empty values. *)
Inductive seconds_value : Type :=
| SecUndefined
| SecNull
| SecNumber (n : number).

(** [ToNumber] on those values: [undefined] is NaN, [null] is zero. *)
Definition ToNumber (v : seconds_value) : number :=
  match v with
  | SecUndefined => NaN
  | SecNull => Finite 0
  | SecNumber n => n
  end.

(** The global [isFinite(v)]. *)
Definition isFinite (v : seconds_value) : bool :=
  match ToNumber v with
  | Finite _ => true
  | _ => false
  end.

(** [Math.round]: the nearest integer, ties towards plus infinity. *)
Definition Math_round (q : Q) : Z := Qfloor (q + (1 # 2)).

(** [Math.round], [Math.max(0, _)], [Math.floor(_ / d)], [_ % d] and
    [String(_)] on numbers, as far as the formatter uses them: NaN is
    absorbing, the remainder of an infinity is NaN, and [Math.max] already
    yields an integer here because [Math.round] did. *)
Inductive rounded : Type :=
| RNaN
| RInfinity
| RInt (z : Z).

Definition round_max0 (n : number) : rounded :=
  match n with
  | NaN => RNaN
  | Infinity false => RInfinity
  | Infinity true => RInt 0
  | Finite q => RInt (Z.max 0 (Math_round q))
  end.

Definition floor_div (r : rounded) (d : Z) : rounded :=
  match r with
  | RInt z => RInt (z / d)
  | other => other
  end.

Definition remainder (r : rounded) (d : Z) : rounded :=
  match r with
  | RInt z => RInt (Z.rem z d)
  | _ => RNaN
  end.

Definition String_of_rounded (r : rounded) : string :=
  match r with
  | RNaN => "NaN"
  | RInfinity => "Infinity"
  | RInt z => String_of_Z z
  end.

(** [secondsToHHMMSS] of both scripts. *)
Definition secondsToHHMMSS (secondsRaw : seconds_value) : string :=
  if negb (isFinite secondsRaw) ||
     match secondsRaw with SecNull => true | _ => false end
  then "00:00:00"
  else
    let s := round_max0 (ToNumber secondsRaw) in
    let h := floor_div s 3600 in
    let m := floor_div (remainder s 3600) 60 in
    let sec := remainder s 60 in
    padStart (String_of_rounded h) 2 "0" +:+ ":" +:+
    padStart (String_of_rounded m) 2 "0" +:+ ":" +:+
    padStart (String_of_rounded sec) 2 "0".

(** Reading a timer back: the fields between the colons, as decimal
    numbers, weighted by 3600, 60 and 1. *)
Fixpoint split_colon (s : string) (acc : string) : list string :=
  match s with
  | EmptyString => [acc]
  | String c r =>
      if Ascii.eqb c ":"%char then acc :: split_colon r ""
      else split_colon r (acc +:+ String c "")
  end.

Definition decimal_field (s : string) : option Z :=
  match NilZero.uint_of_string s with
  | Some d => Some (Z.of_N (N.of_uint d))
  | None => None
  end.

Definition hhmmssToSeconds (s : string) : option Z :=
  match split_colon s "" with
  | [h; m; sec] =>
      match decimal_field h, decimal_field m, decimal_field sec with
      | Some h', Some m', Some s' => Some (h' * 3600 + m' * 60 + s')
      | _, _, _ => None
      end
  | _ => None
  end.


(** Characters of a decimal field. *)
Definition is_digit (c : ascii) : bool :=
  match uint_of_char c (Some Decimal.Nil) with
  | Some _ => true
  | None => false
  end.

Fixpoint digits_only (s : string) : bool :=
  match s with
  | EmptyString => true
  | String c r => is_digit c && digits_only r
  end.

(** ** JavaScript values *)

(** The values that travel through the engine: what [JSON.parse] and
    [res.json()] produce, what [collectFormData] builds, and [undefined].
    An object is the list of its own properties in enumeration order.
    Numbers inside documents are integers; the engine never computes with
    them. *)
#[warnings="-register-all"]
Inductive jsval : Type :=
| JUndefined
| JNull
| JBool (b : bool)
| JNum (n : Z)
| JStr (s : string)
| JArr (items : list jsval)
| JObj (fields : list (string * jsval)).

(** [ToBoolean]. *)
Definition truthy (v : jsval) : bool :=
  match v with
  | JUndefined | JNull => false
  | JBool b => b
  | JNum n => negb (n =? 0)
  | JStr s => negb (String.eqb s "")
  | JArr _ | JObj _ => true
  end.

(** [a || b] and [a && b] on values already evaluated. *)
Definition jor (a b : jsval) : jsval := if truthy a then a else b.
Definition jand (a b : jsval) : jsval := if truthy a then b else a.

(** [typeof v === 'object'] (true of [null] as well). *)
Definition typeof_object (v : jsval) : bool :=
  match v with
  | JNull | JArr _ | JObj _ => true
  | _ => false
  end.

(** [ToString], used where a value is concatenated into a URL. *)
Fixpoint ToString (v : jsval) : string :=
  match v with
  | JUndefined => "undefined"
  | JNull => "null"
  | JBool true => "true"
  | JBool false => "false"
  | JNum n => String_of_Z n
  | JStr s => s
  | JArr items =>
      (fix join (l : list jsval) : string :=
         match l with
         | [] => ""
         | [x] => match x with JUndefined | JNull => "" | _ => ToString x end
         | x :: r =>
             match x with JUndefined | JNull => "" | _ => ToString x end
             +:+ "," +:+ join r
         end) items
  | JObj _ => "[object Object]"
  end.

(** A property key is an array index when it is the canonical decimal form
    of a natural number. *)
Definition index_of_key (k : string) : option nat :=
  match NilZero.uint_of_string k with
  | Some d =>
      let n := N.of_uint d in
      if String.eqb (String_of_Z (Z.of_N n)) k then Some (N.to_nat n) else None
  | None => None
  end.

Fixpoint assoc (k : string) (fs : list (string * jsval)) : option jsval :=
  match fs with
  | [] => None
  | (k', v) :: r => if String.eqb k k' then Some v else assoc k r
  end.

(** Reading [o[k]] from the properties of an object: [undefined] when
    missing. *)
Definition field (fs : list (string * jsval)) (k : string) : jsval :=
  match assoc k fs with
  | Some v => v
  | None => JUndefined
  end.

Fixpoint obj_replace (k : string) (x : jsval) (fs : list (string * jsval))
  : list (string * jsval) :=
  match fs with
  | [] => []
  | (k', v) :: r =>
      if String.eqb k k' then (k, x) :: r else (k', v) :: obj_replace k x r
  end.

(** A new integer key goes before the first key that is not an integer or
    is a larger one; any other new key goes last. *)
Fixpoint obj_insert_index (i : nat) (k : string) (x : jsval)
  (fs : list (string * jsval)) : list (string * jsval) :=
  match fs with
  | [] => [(k, x)]
  | (k', v) :: r =>
      match index_of_key k' with
      | Some j =>
          if (i <? j)%nat then (k, x) :: (k', v) :: r
          else (k', v) :: obj_insert_index i k x r
      | None => (k, x) :: (k', v) :: r
      end
  end.

(** [o[k] = x] on the properties of an object, keeping the enumeration
    order of JavaScript: integer keys ascending, then the others in order of
    creation. *)
Definition obj_set (k : string) (x : jsval) (fs : list (string * jsval))
  : list (string * jsval) :=
  match assoc k fs with
  | Some _ => obj_replace k x fs
  | None =>
      match index_of_key k with
      | Some i => obj_insert_index i k x fs
      | None => fs ++ [(k, x)]
      end
  end.

Fixpoint string_get (i : nat) (s : string) : option ascii :=
  match s, i with
  | EmptyString, _ => None
  | String c _, O => Some c
  | String _ r, S j => string_get j r
  end.

Fixpoint arr_set (i : nat) (x : jsval) (l : list jsval) : list jsval :=
  match i, l with
  | O, [] => [x]
  | O, _ :: r => x :: r
  | S j, [] => JUndefined :: arr_set j x []
  | S j, y :: r => y :: arr_set j x r
  end.

(** [v[k]]: a [TypeError] ([None]) on [undefined] and [null]; indices and
    [length] on arrays and strings; [undefined] on the other primitives. *)
Definition getProp (v : jsval) (k : string) : option jsval :=
  match v with
  | JUndefined | JNull => None
  | JObj fs => Some (field fs k)
  | JArr l =>
      Some (match index_of_key k with
            | Some i => nth i l JUndefined
            | None =>
                if String.eqb k "length" then JNum (Z.of_nat (length l))
                else JUndefined
            end)
  | JStr s =>
      Some (match index_of_key k with
            | Some i =>
                match string_get i s with
                | Some c => JStr (String c "")
                | None => JUndefined
                end
            | None =>
                if String.eqb k "length" then JNum (Z.of_nat (String.length s))
                else JUndefined
            end)
  | JBool _ | JNum _ => Some JUndefined
  end.

(** [v[k] = x], yielding the updated [v]: a [TypeError] on [undefined] and
    [null]; silently dropped on the other primitives (the scripts are not
    in strict mode); an array grows to hold a new index, and keeps no
    property under a key that is not an index. *)
Definition setProp (v : jsval) (k : string) (x : jsval) : option jsval :=
  match v with
  | JUndefined | JNull => None
  | JObj fs => Some (JObj (obj_set k x fs))
  | JArr l =>
      Some (match index_of_key k with
            | Some i => JArr (arr_set i x l)
            | None => JArr l
            end)
  | JBool _ | JNum _ | JStr _ => Some v
  end.

(** The own enumerable properties [Object.assign] copies from a source. *)
Definition own_props (v : jsval) : list (string * jsval) :=
  match v with
  | JObj fs => fs
  | JArr l =>
      imap (fun i x => (String_of_Z (Z.of_nat i), x)) l
  | JStr s =>
      imap (fun i c => (String_of_Z (Z.of_nat i), JStr (String c "")))
           (list_ascii_of_string s)
  | _ => []
  end.

(** [Object.assign({}, a, b)]. *)
Definition Object_assign2 (a b : jsval) : jsval :=
  let put := fold_left (fun acc kv => obj_set (fst kv) (snd kv) acc) in
  JObj (put (own_props b) (put (own_props a) [])).

(** ** The network *)

Inductive Method : Type := GET | POST | PUT.

(** A request: the path below [API_BASE] and the body, if any. *)
Record Request : Type := mkRequest {
  req_method : Method;
  req_path : string;
  req_body : option string
}.

(** What [fetch] settles to: a rejection, or a response with its [ok] flag
    and the document [res.json()] yields ([None] when the body is not
    JSON). *)
Inductive Reply : Type :=
| NetworkFailure
| Response (ok : bool) (json : option jsval).

(** ** What surrounds the engine *)

(** The page (its DOM), the server and the JSON built-ins are not part of
    the engine; the engine is stated over any of them.  The [dom_] fields
    stand for the loops of [collectFormData], [populateFormFromPayload],
    [clearFormForUnitUI] and the button marking of [setCurrentUnitFast] that
    only read or write form fields; [dom_populate_inputs] and
    [dom_clear_inputs] count the ['input'] events those loops dispatch. *)
Record Platform : Type := {
  Form : Type;
  Net : Type;
  serve : Request -> Net -> Reply * Net;
  JSON_parse : string -> option jsval;
  JSON_stringify : jsval -> string;
  dom_rows : Form -> jsval;
  dom_flows : Form -> jsval;
  dom_generation : Form -> jsval;
  dom_bunkerCapacity : Form -> jsval;
  dom_bunkerCapacities : Form -> jsval;
  dom_clientBunkers : Form -> jsval -> jsval;
  dom_populate : jsval -> Form -> Form;
  dom_populate_inputs : jsval -> Form -> nat;
  dom_clear : Form -> Form;
  dom_clear_inputs : Form -> nat;
  dom_mark_unit : Z -> Form -> Form
}.

(** ** The state of the page *)

(** Callbacks handed to [setTimeout]. *)
Inductive Task : Type :=
| TFlush                      (* the deferred write of the payload cache *)
| TDebounced                  (* the debounced [saveTransientToMemory] *)
| TAttach                     (* [attachAutosaveListenersOnce] *)
| TPrefetch (current : Z).    (* the body of [prefetchOtherUnits] *)

(** Asynchronous functions started and not awaited. *)
Inductive Job : Type :=
| JobBackgroundFetch (u : Z).

Inductive AlertKind : Type := AlertFailed | AlertSaved | AlertError.

(** What the engine does to the outside, in order: requests, writes of
    [localStorage], calls of the two form-filling functions, alerts; and
    the captures of the autosave pipeline. *)
Inductive Event : Type :=
| EvFetch (r : Request)
| EvSetItem (key value : string)
| EvPopulate (payload : jsval)
| EvClear
| EvCapture (key : string) (payload : jsval)
| EvAlert (k : AlertKind).

Inductive Exn : Type := TypeError | SyntaxError | NetworkError | HttpError.

Inductive Outcome (A : Type) : Type :=
| Return (a : A)
| Throw (e : Exn).
Arguments Return {A} a.
Arguments Throw {A} e.

Definition BLEND_IDS_KEY : string := "__blendIdsByUnit_v1".
Definition PAYLOAD_CACHE_KEY : string := "__blendPayloadByUnit_v1".
Definition AUTOSAVE_DEBOUNCE_MS : nat := 180.

Section Engine.

Context (P : Platform).

Record World : Type := mkWorld {
  currentUnit : Z;                                (* window.currentUnit *)
  serverUnitMap : jsval;                          (* window.serverUnitMap *)
  localStorage : gmap string string;
  inMemoryPayloadCache : list (string * jsval);   (* its properties *)
  deferredPayloadWriteTimer : option nat;         (* _deferredPayloadWriteTimer *)
  debounce_t : option nat;                        (* [t] of [debouncedTransientSave] *)
  autosaveAttached : bool;                        (* attachAutosaveListenersOnce._done *)
  now : nat;                                      (* the clock, in ms *)
  timers : list (nat * (nat * Task));             (* id, deadline, callback *)
  nextTimer : nat;
  jobs : list Job;
  form : Form P;
  net : Net P;
  log : list Event
}.

Definition set_currentUnit (u : Z) (w : World) : World :=
  mkWorld u (serverUnitMap w) (localStorage w) (inMemoryPayloadCache w)
    (deferredPayloadWriteTimer w) (debounce_t w) (autosaveAttached w)
    (now w) (timers w) (nextTimer w) (jobs w) (form w) (net w) (log w).
Definition set_serverUnitMap (m : jsval) (w : World) : World :=
  mkWorld (currentUnit w) m (localStorage w) (inMemoryPayloadCache w)
    (deferredPayloadWriteTimer w) (debounce_t w) (autosaveAttached w)
    (now w) (timers w) (nextTimer w) (jobs w) (form w) (net w) (log w).
Definition set_localStorage (l : gmap string string) (w : World) : World :=
  mkWorld (currentUnit w) (serverUnitMap w) l (inMemoryPayloadCache w)
    (deferredPayloadWriteTimer w) (debounce_t w) (autosaveAttached w)
    (now w) (timers w) (nextTimer w) (jobs w) (form w) (net w) (log w).
Definition set_inMemoryPayloadCache (c : list (string * jsval)) (w : World)
  : World :=
  mkWorld (currentUnit w) (serverUnitMap w) (localStorage w) c
    (deferredPayloadWriteTimer w) (debounce_t w) (autosaveAttached w)
    (now w) (timers w) (nextTimer w) (jobs w) (form w) (net w) (log w).
Definition set_deferredPayloadWriteTimer (t : option nat) (w : World)
  : World :=
  mkWorld (currentUnit w) (serverUnitMap w) (localStorage w)
    (inMemoryPayloadCache w) t (debounce_t w) (autosaveAttached w)
    (now w) (timers w) (nextTimer w) (jobs w) (form w) (net w) (log w).
Definition set_debounce_t (t : option nat) (w : World) : World :=
  mkWorld (currentUnit w) (serverUnitMap w) (localStorage w)
    (inMemoryPayloadCache w) (deferredPayloadWriteTimer w) t
    (autosaveAttached w) (now w) (timers w) (nextTimer w) (jobs w) (form w)
    (net w) (log w).
Definition set_autosaveAttached (b : bool) (w : World) : World :=
  mkWorld (currentUnit w) (serverUnitMap w) (localStorage w)
    (inMemoryPayloadCache w) (deferredPayloadWriteTimer w) (debounce_t w) b
    (now w) (timers w) (nextTimer w) (jobs w) (form w) (net w) (log w).
Definition set_now (n : nat) (w : World) : World :=
  mkWorld (currentUnit w) (serverUnitMap w) (localStorage w)
    (inMemoryPayloadCache w) (deferredPayloadWriteTimer w) (debounce_t w)
    (autosaveAttached w) n (timers w) (nextTimer w) (jobs w) (form w)
    (net w) (log w).
Definition set_timers (ts : list (nat * (nat * Task))) (next : nat)
  (w : World) : World :=
  mkWorld (currentUnit w) (serverUnitMap w) (localStorage w)
    (inMemoryPayloadCache w) (deferredPayloadWriteTimer w) (debounce_t w)
    (autosaveAttached w) (now w) ts next (jobs w) (form w) (net w) (log w).
Definition set_jobs (js : list Job) (w : World) : World :=
  mkWorld (currentUnit w) (serverUnitMap w) (localStorage w)
    (inMemoryPayloadCache w) (deferredPayloadWriteTimer w) (debounce_t w)
    (autosaveAttached w) (now w) (timers w) (nextTimer w) js (form w)
    (net w) (log w).
Definition set_form (f : Form P) (w : World) : World :=
  mkWorld (currentUnit w) (serverUnitMap w) (localStorage w)
    (inMemoryPayloadCache w) (deferredPayloadWriteTimer w) (debounce_t w)
    (autosaveAttached w) (now w) (timers w) (nextTimer w) (jobs w) f
    (net w) (log w).
Definition set_net (n : Net P) (w : World) : World :=
  mkWorld (currentUnit w) (serverUnitMap w) (localStorage w)
    (inMemoryPayloadCache w) (deferredPayloadWriteTimer w) (debounce_t w)
    (autosaveAttached w) (now w) (timers w) (nextTimer w) (jobs w) (form w)
    n (log w).
Definition emit (e : Event) (w : World) : World :=
  mkWorld (currentUnit w) (serverUnitMap w) (localStorage w)
    (inMemoryPayloadCache w) (deferredPayloadWriteTimer w) (debounce_t w)
    (autosaveAttached w) (now w) (timers w) (nextTimer w) (jobs w) (form w)
    (net w) (log w ++ [e]).

(** *** Computations: state, and exceptions that [try]/[catch] handles *)

Definition M (A : Type) : Type := World -> Outcome A * World.

Definition ret {A} (a : A) : M A := fun w => (Return a, w).
Definition throw {A} (e : Exn) : M A := fun w => (Throw e, w).
Definition bind {A B} (m : M A) (k : A -> M B) : M B :=
  fun w =>
    match m w with
    | (Return a, w') => k a w'
    | (Throw e, w') => (Throw e, w')
    end.
Definition try_catch {A} (m : M A) (handler : Exn -> M A) : M A :=
  fun w =>
    match m w with
    | (Return a, w') => (Return a, w')
    | (Throw e, w') => handler e w'
    end.
Definition gets {A} (f : World -> A) : M A := fun w => (Return (f w), w).
Definition modify (f : World -> World) : M unit := fun w => (Return tt, f w).

End Engine.

Arguments ret {P A} a.
Arguments throw {P A} e.
Arguments bind {P A B} m k.
Arguments try_catch {P A} m handler.
Arguments gets {P A} f.
Arguments modify {P} f.

Notation "x <- m ;; k" := (bind m (fun x => k))
  (at level 62, m at next level, right associativity).
Notation "m ;;; k" := (bind m (fun _ => k))
  (at level 62, right associativity).

Section Scripts.

Context (P : Platform).

(** *** Built-ins *)

Definition getItem (k : string) : M P (option string) :=
  gets (fun w => localStorage P w !! k).

Definition setItem (k v : string) : M P unit :=
  modify (fun w =>
    emit P (EvSetItem k v) (set_localStorage P (<[k := v]> (localStorage P w)) w)).

(** [fetch(API_BASE + path, {method, body})], awaited: the request reaches
    the server, which answers; a rejection is an exception. *)
Definition fetch (r : Request) : M P (bool * option jsval) :=
  fun w =>
    let w1 := emit P (EvFetch r) w in
    match serve P r (net P w1) with
    | (NetworkFailure, n) => (Throw NetworkError, set_net P n w1)
    | (Response ok body, n) => (Return (ok, body), set_net P n w1)
    end.

(** [await res.json()]. *)
Definition res_json (res : bool * option jsval) : M P jsval :=
  match snd res with
  | Some v => ret v
  | None => throw SyntaxError
  end.

Definition JSON_parse_m (s : string) : M P jsval :=
  match JSON_parse P s with
  | Some v => ret v
  | None => throw SyntaxError
  end.

(** [v[k]] and [v[k] = x] as statements that may throw. *)
Definition prop (v : jsval) (k : string) : M P jsval :=
  match getProp v k with
  | Some x => ret x
  | None => throw TypeError
  end.

Definition assign (v : jsval) (k : string) (x : jsval) : M P jsval :=
  match setProp v k x with
  | Some v' => ret v'
  | None => throw TypeError
  end.

(** [a && <b>] and [a || <b>] where evaluating [b] may throw. *)
Definition and_then (a : jsval) (b : M P jsval) : M P jsval :=
  if truthy a then b else ret a.
Definition or_else (a : jsval) (b : M P jsval) : M P jsval :=
  if truthy a then ret a else b.

(** [localStorage.getItem(k) || d]. *)
Definition string_or (o : option string) (d : string) : string :=
  match o with
  | Some s => if String.eqb s "" then d else s
  | None => d
  end.

Definition ignore {A} (a : A) (e : Exn) : M P A := ret a.

Definition alert (k : AlertKind) : M P unit := modify (emit P (EvAlert k)).

Definition setTimeout (task : Task) (delay : nat) : M P nat :=
  fun w =>
    let id := nextTimer P w in
    (Return id,
     set_timers P (timers P w ++ [(id, ((now P w + delay)%nat, task))]) (S id) w).

Definition clearTimeout (t : option nat) : M P unit :=
  modify (fun w =>
    match t with
    | Some id =>
        set_timers P
          (List.filter (fun e => negb (Nat.eqb (fst e) id)) (timers P w))
          (nextTimer P w) w
    | None => w
    end).

Fixpoint for_each {A} (l : list A) (body : A -> M P unit) : M P unit :=
  match l with
  | [] => ret tt
  | x :: r => body x ;;; for_each r body
  end.

Fixpoint repeat_m (n : nat) (m : M P unit) : M P unit :=
  match n with
  | O => ret tt
  | S k => m ;;; repeat_m k m
  end.

(** [Number(u || v)] on integers: zero is the falsy one. *)
Definition zor (u v : Z) : Z := if u =? 0 then v else u.

(** [Number(s)] for a stored string; spellings other than a plain decimal
    integer are taken as NaN ([None]). *)
Definition Number_of_string (s : string) : option Z :=
  match NilZero.int_of_string s with
  | Some d => Some (Z.of_int d)
  | None => None
  end.

(** *** Unit / per-unit blend-id mapping *)

Definition readBlendIds : M P jsval :=
  try_catch
    (raw <- getItem BLEND_IDS_KEY ;; JSON_parse_m (string_or raw "{}"))
    (ignore (JObj [])).

Definition writeBlendIds (obj : jsval) : M P unit :=
  try_catch (setItem BLEND_IDS_KEY (JSON_stringify P obj)) (ignore tt).

Definition fetchServerUnitMap : M P jsval :=
  try_catch
    (res <- fetch (mkRequest GET "/units" None) ;;
     if negb (fst res) then ret (JObj [])
     else
       map <- res_json res ;;
       try_catch (writeBlendIds map) (ignore tt) ;;;
       modify (set_serverUnitMap P (jor map (JObj []))) ;;;
       ret (jor map (JObj [])))
    (ignore (JObj [])).

Definition ensureServerUnitMapping : M P jsval :=
  map <- fetchServerUnitMap ;;
  have3 <- and_then map
             (m1 <- prop map "1" ;;
              and_then m1
                (m2 <- prop map "2" ;;
                 and_then m2 (prop map "3"))) ;;
  if truthy have3 then ret map
  else
    try_catch
      (res <- fetch (mkRequest POST "/units/init" None) ;;
       if negb (fst res) then fetchServerUnitMap
       else
         data <- res_json res ;;
         d1 <- prop data "map" ;;
         d2 <- or_else d1 (and_then data (prop data "map")) ;;
         let createdMap := jor d2 (JObj []) in
         modify (set_serverUnitMap P createdMap) ;;;
         try_catch (writeBlendIds createdMap) (ignore tt) ;;;
         ret createdMap)
      (ignore (JObj [])).

Definition getBlendIdForUnit (unit : Z) : M P jsval :=
  cur <- gets (currentUnit P) ;;
  let unit := zor unit (zor cur 1) in
  if unit =? 0 then ret JNull
  else
    sm <- gets (serverUnitMap P) ;;
    a <- and_then sm (prop sm (String_of_Z unit)) ;;
    if truthy a then prop sm (String_of_Z unit)
    else
      fetchServerUnitMap ;;;
      sm' <- gets (serverUnitMap P) ;;
      b <- and_then sm' (prop sm' (String_of_Z unit)) ;;
      if truthy b then prop sm' (String_of_Z unit)
      else
        local <- readBlendIds ;;
        c <- and_then local (prop local (String_of_Z unit)) ;;
        if truthy c then prop local (String_of_Z unit) else ret JNull.

(** *** Per-unit payload cache *)

Definition readPayloadCache : M P jsval :=
  try_catch
    (raw <- getItem PAYLOAD_CACHE_KEY ;; JSON_parse_m (string_or raw "{}"))
    (ignore (JObj [])).

Definition writePayloadCache (obj : jsval) : M P unit :=
  try_catch (setItem PAYLOAD_CACHE_KEY (JSON_stringify P obj)) (ignore tt).

(** [inMemoryPayloadCache[u]] and [inMemoryPayloadCache[u] = p]. *)
Definition mem_get (k : string) : M P jsval :=
  gets (fun w => field (inMemoryPayloadCache P w) k).

Definition mem_set (k : string) (p : jsval) : M P unit :=
  modify (fun w =>
    set_inMemoryPayloadCache P (obj_set k p (inMemoryPayloadCache P w)) w).

(** The callback of the deferred write. *)
Definition flushPayloadCache : M P unit :=
  try_catch
    (cache <- gets (inMemoryPayloadCache P) ;; writePayloadCache (JObj cache))
    (ignore tt) ;;;
  modify (set_deferredPayloadWriteTimer P None).

Definition schedulePersistPayloadCache : M P unit :=
  pending <- gets (deferredPayloadWriteTimer P) ;;
  match pending with
  | Some _ => ret tt
  | None =>
      id <- setTimeout TFlush 300 ;;
      modify (set_deferredPayloadWriteTimer P (Some id))
  end.

(** *** Autosave *)

Definition collectFormData : M P jsval :=
  coalColorMap <-
    try_catch
      (rawMap <- getItem "__coalColorMap_v2" ;;
       match rawMap with
       | Some raw => if String.eqb raw "" then ret (JObj []) else JSON_parse_m raw
       | None => ret (JObj [])
       end)
      (ignore (JObj [])) ;;
  f <- gets (form P) ;;
  ts <- gets (now P) ;;
  ret (JObj [ ("rows", dom_rows P f);
              ("flows", dom_flows P f);
              ("generation", dom_generation P f);
              ("ts", JNum (Z.of_nat ts));
              ("bunkerCapacity", dom_bunkerCapacity P f);
              ("bunkerCapacities", dom_bunkerCapacities P f);
              ("coalColorMap", coalColorMap);
              ("clientBunkers", dom_clientBunkers P f coalColorMap) ]).

(** The key [unit] of [saveTransientToMemory]:
    [Number(window.currentUnit || localStorage.getItem('currentUnit') || 1)]. *)
Definition transientUnitKey : M P string :=
  cur <- gets (currentUnit P) ;;
  if negb (cur =? 0) then ret (String_of_Z cur)
  else
    stored <- getItem "currentUnit" ;;
    match stored with
    | Some s =>
        if String.eqb s "" then ret "1"
        else match Number_of_string s with
             | Some n => ret (String_of_Z n)
             | None => ret "NaN"
             end
    | None => ret "1"
    end.

Definition saveTransientToMemory : M P unit :=
  try_catch
    (unit <- transientUnitKey ;;
     payload <- collectFormData ;;
     mem_set unit payload ;;;
     modify (emit P (EvCapture unit payload)) ;;;
     schedulePersistPayloadCache)
    (ignore tt).

(** One call of [debouncedTransientSave]. *)
Definition debouncedTransientSave : M P unit :=
  t <- gets (debounce_t P) ;;
  clearTimeout t ;;;
  id <- setTimeout TDebounced AUTOSAVE_DEBOUNCE_MS ;;
  modify (set_debounce_t P (Some id)).

Definition attachAutosaveListenersOnce : M P unit :=
  done <- gets (autosaveAttached P) ;;
  if done then ret tt else modify (set_autosaveAttached P true).

(** An ['input'] or ['change'] event reaching [document]. *)
Definition dispatchInput : M P unit :=
  attached <- gets (autosaveAttached P) ;;
  if attached then debouncedTransientSave else ret tt.

(** The user edits the form: the fields change, then the event is
    dispatched. *)
Definition editEvent (change : Form P -> Form P) : M P unit :=
  modify (fun w => set_form P (change (form P w)) w) ;;;
  dispatchInput.

(** *** Form population *)

Definition clearFormForUnitUI : M P unit :=
  modify (emit P EvClear) ;;;
  f <- gets (form P) ;;
  modify (set_form P (dom_clear P f)) ;;;
  repeat_m (dom_clear_inputs P f) dispatchInput.

Definition populateFormFromPayload (payload : jsval) : M P unit :=
  modify (emit P (EvPopulate payload)) ;;;
  try_catch
    (if negb (truthy payload) then clearFormForUnitUI
     else
       f <- gets (form P) ;;
       modify (set_form P (dom_populate P payload f)) ;;;
       repeat_m (dom_populate_inputs P payload f) dispatchInput ;;;
       colors <- prop payload "coalColorMap" ;;
       if truthy colors && typeof_object colors then
         try_catch
           (raw <- getItem "__coalColorMap_v2" ;;
            existing <- JSON_parse_m (string_or raw "{}") ;;
            setItem "__coalColorMap_v2"
              (JSON_stringify P (Object_assign2 existing colors)))
           (ignore tt)
       else ret tt)
    (ignore tt).

(** *** Unit switch *)

(** [d.payload || d.data || d]. *)
Definition unwrapNestedFirst (d : jsval) : M P jsval :=
  p1 <- prop d "payload" ;;
  or_else p1 (p2 <- prop d "data" ;; ret (jor p2 d)).

Definition backgroundFetch (u : Z) : M P unit :=
  try_catch
    (id <- getBlendIdForUnit u ;;
     if negb (truthy id) then ret tt
     else
       res <- fetch (mkRequest GET ("/blend/" +:+ ToString id) None) ;;
       if negb (fst res) then ret tt
       else
         data <- res_json res ;;
         payload <- unwrapNestedFirst data ;;
         try_catch
           (cached <- mem_get (String_of_Z u) ;;
            let oldStr := JSON_stringify P (jor cached (JObj [])) in
            let newStr := JSON_stringify P (jor payload (JObj [])) in
            if negb (String.eqb oldStr newStr) then
              mem_set (String_of_Z u) payload ;;;
              populateFormFromPayload payload ;;;
              schedulePersistPayloadCache
            else ret tt)
           (ignore tt))
    (ignore tt).

Definition prefetchOtherUnits (current : Z) : M P unit :=
  setTimeout (TPrefetch current) 240 ;;; ret tt.

(** The callback of [prefetchOtherUnits]. *)
Definition prefetchBody (current : Z) : M P unit :=
  try_catch
    (fetchServerUnitMap ;;;
     for_each [1; 2; 3] (fun u =>
       if u =? current then ret tt
       else
         cached <- mem_get (String_of_Z u) ;;
         if truthy cached then ret tt
         else
           sm <- gets (serverUnitMap P) ;;
           a <- and_then sm (prop sm (String_of_Z u)) ;;
           id <- (if truthy a then prop sm (String_of_Z u)
                  else
                    local <- readBlendIds ;;
                    x <- prop local (String_of_Z u) ;;
                    ret (jor x JNull)) ;;
           if negb (truthy id) then ret tt
           else
             try_catch
               (r <- fetch (mkRequest GET ("/blend/" +:+ ToString id) None) ;;
                (if negb (fst r) then throw HttpError else ret tt) ;;;
                d <- res_json r ;;
                p <- unwrapNestedFirst d ;;
                mem_set (String_of_Z u) p ;;;
                schedulePersistPayloadCache)
               (ignore tt)))
    (ignore tt).

(** [u = Number(u) || 1; if (u < 1) u = 1; if (u > 3) u = 3]. *)
Definition clampUnit (u : Z) : Z :=
  let u := zor u 1 in
  let u := if u <? 1 then 1 else u in
  if u >? 3 then 3 else u.

Definition setCurrentUnitFast (u : Z) : M P unit :=
  try_catch
    (try_catch saveTransientToMemory (ignore tt) ;;;
     let u := clampUnit u in
     modify (set_currentUnit P u) ;;;
     setItem "currentUnit" (String_of_Z u) ;;;
     modify (fun w => set_form P (dom_mark_unit P u (form P w)) w) ;;;
     cached <- mem_get (String_of_Z u) ;;
     (if truthy cached then
        again <- mem_get (String_of_Z u) ;; populateFormFromPayload again
      else
        ls <- getItem "__blendPayloadByUnit_v1" ;;
        match ls with
        | Some raw =>
            if String.eqb raw "" then clearFormForUnitUI
            else
              try_catch
                (parsed <- JSON_parse_m raw ;;
                 pu <- and_then parsed (prop parsed (String_of_Z u)) ;;
                 if truthy pu then
                   v <- prop parsed (String_of_Z u) ;;
                   mem_set (String_of_Z u) v ;;;
                   v' <- prop parsed (String_of_Z u) ;;
                   populateFormFromPayload v'
                 else clearFormForUnitUI)
                (fun _ => clearFormForUnitUI)
        | None => clearFormForUnitUI
        end) ;;;
     modify (fun w => set_jobs P (jobs P w ++ [JobBackgroundFetch u]) w) ;;;
     prefetchOtherUnits u ;;;
     setTimeout TAttach 120 ;;;
     ret tt)
    (ignore tt).

(** *** Unit data loader *)

(** [(data && (data.rows || data.flows || data.clientBunkers)) ? data
      : (data && data.data ? data.data : data)]. *)
Definition unwrapShapeFirst (data : jsval) : M P jsval :=
  shaped <- and_then data
              (r <- prop data "rows" ;;
               or_else r
                 (f <- prop data "flows" ;;
                  or_else f (prop data "clientBunkers"))) ;;
  if truthy shaped then ret data
  else
    nested <- and_then data (prop data "data") ;;
    if truthy nested then prop data "data" else ret data.

(** [!cache || !cache[unit]]. *)
Definition cacheLacks (cache : jsval) (key : string) : M P bool :=
  if negb (truthy cache) then ret true
  else x <- prop cache key ;; ret (negb (truthy x)).

Definition loadUnitData (unit0 : Z) : M P jsval :=
  cur <- gets (currentUnit P) ;;
  let unit := zor unit0 (zor cur 1) in
  let key := String_of_Z unit in
  try_catch
    (try_catch
       (cache <- readPayloadCache ;;
        hit <- and_then cache (prop cache key) ;;
        if truthy hit then
          v <- prop cache key ;; populateFormFromPayload v
        else ret tt)
       (ignore tt) ;;;
     id <- getBlendIdForUnit unit ;;
     if negb (truthy id) then
       cache <- readPayloadCache ;;
       lacks <- cacheLacks cache key ;;
       (if lacks then clearFormForUnitUI else ret tt) ;;;
       ret JNull
     else
       res <- fetch (mkRequest GET ("/blend/" +:+ ToString id) None) ;;
       if negb (fst res) then
         cache <- readPayloadCache ;;
         lacks <- cacheLacks cache key ;;
         (if lacks then clearFormForUnitUI else ret tt) ;;;
         ret JNull
       else
         data <- res_json res ;;
         payload <- unwrapShapeFirst data ;;
         populateFormFromPayload payload ;;;
         try_catch
           (cache <- readPayloadCache ;;
            cache' <- assign cache key payload ;;
            writePayloadCache cache' ;;;
            mem_set key payload)
           (ignore tt) ;;;
         ret payload)
    (fun _ =>
       cache <- readPayloadCache ;;
       hit <- and_then cache (prop cache key) ;;
       if truthy hit then
         v <- prop cache key ;;
         populateFormFromPayload v ;;;
         prop cache key
       else
         clearFormForUnitUI ;;; ret JNull).

(** *** Explicit save *)

Definition saveToServer : M P unit :=
  try_catch
    (payload <- collectFormData ;;
     ids <- readBlendIds ;;
     cur <- gets (currentUnit P) ;;
     let unit := zor cur 1 in
     let key := String_of_Z unit in
     idForUnit <- getBlendIdForUnit unit ;;
     let request :=
       if truthy idForUnit
       then mkRequest PUT ("/blend/" +:+ ToString idForUnit)
              (Some (JSON_stringify P payload))
       else mkRequest POST "/blend" (Some (JSON_stringify P payload)) in
     res <- fetch request ;;
     if negb (fst res) then alert AlertFailed
     else
       data <- res_json res ;;
       i1 <- prop data "id" ;;
       i2 <- or_else i1 (prop data "_id") ;;
       let returnedId := jor i2 JNull in
       (if negb (truthy idForUnit) && truthy returnedId then
          ids' <- assign ids key returnedId ;;
          writeBlendIds ids' ;;;
          try_catch
            (fetch (mkRequest PUT ("/units/" +:+ key)
                      (Some (JSON_stringify P (JObj [("blendId", returnedId)])))) ;;;
             fetchServerUnitMap ;;;
             ret tt)
            (ignore tt)
        else ret tt) ;;;
       try_catch
         (cache <- readPayloadCache ;;
          s1 <- prop data "payload" ;;
          s2 <- or_else s1 (prop data "data") ;;
          let serverPayload := jor s2 JNull in
          cache' <- assign cache key (jor serverPayload payload) ;;
          writePayloadCache cache' ;;;
          stored <- prop cache' key ;;
          mem_set key stored)
         (ignore tt) ;;;
       alert AlertSaved)
    (fun _ => alert AlertError).

(** *** The event loop *)

Definition runTask (t : Task) : M P unit :=
  match t with
  | TFlush => flushPayloadCache
  | TDebounced => saveTransientToMemory
  | TAttach => attachAutosaveListenersOnce
  | TPrefetch current => prefetchBody current
  end.

Definition runJob (j : Job) : M P unit :=
  match j with
  | JobBackgroundFetch u => backgroundFetch u
  end.

(** Running a computation for its effect on the page; an exception that
    reaches the event loop is dropped there. *)
Definition exec {A} (m : M P A) (w : World P) : World P := snd (m w).

(** The callback registered under [id], if that timer is still pending. *)
Definition find_timer (id : nat) (ts : list (nat * (nat * Task))) : option Task :=
  match List.find (fun e => Nat.eqb (fst e) id) ts with
  | Some e => Some (snd (snd e))
  | None => None
  end.

(** The timer [id] fires: it leaves the queue and its callback runs. *)
Definition fire (w : World P) (id : nat) : World P :=
  match find_timer id (timers P w) with
  | Some task => exec (clearTimeout (Some id) ;;; runTask task) w
  | None => w
  end.

(** One millisecond passes: the timers that are due fire in the order of
    their creation. *)
Definition tick (w : World P) : World P :=
  let w1 := set_now P (S (now P w)) w in
  let due := List.filter (fun e => (fst (snd e) <=? now P w1)%nat) (timers P w1) in
  fold_left fire (map fst due) w1.

Fixpoint advance (ms : nat) (w : World P) : World P :=
  match ms with
  | O => w
  | S k => advance k (tick w)
  end.

(** The oldest started asynchronous function runs to its end. *)
Definition runNextJob (w : World P) : World P :=
  match jobs P w with
  | [] => w
  | j :: rest => exec (runJob j) (set_jobs P rest w)
  end.

End Scripts.

(** ** A reference platform

    A concrete page, network and pair of JSON functions on which the
    engine can be run: the network answers the requests it receives with a
    prepared list of replies, in order; the page keeps the values last
    written to its fields. *)
Module Reference.

(** [JSON.stringify] on the values above: properties holding
    [undefined] are left out, [undefined] in an array is written [null];
    of the characters of a string only the quote and the backslash are
    escaped. *)
Definition dquote : ascii := "034"%char.
Definition backslash : ascii := "092"%char.

Fixpoint escape (s : string) : string :=
  match s with
  | EmptyString => ""
  | String c r =>
      if Ascii.eqb c dquote then String backslash (String dquote (escape r))
      else if Ascii.eqb c backslash
           then String backslash (String backslash (escape r))
           else String c (escape r)
  end.

Definition quote (s : string) : string :=
  String dquote (escape s +:+ String dquote "").

Fixpoint stringify (v : jsval) : string :=
  match v with
  | JUndefined => "undefined"
  | JNull => "null"
  | JBool true => "true"
  | JBool false => "false"
  | JNum n => String_of_Z n
  | JStr s => quote s
  | JArr items =>
      "[" +:+
      (fix elems (l : list jsval) : string :=
         match l with
         | [] => ""
         | [x] => match x with JUndefined => "null" | _ => stringify x end
         | x :: r =>
             match x with JUndefined => "null" | _ => stringify x end
             +:+ "," +:+ elems r
         end) items
      +:+ "]"
  | JObj fields =>
      "{" +:+
      (fix members (l : list (string * jsval)) (first : bool) : string :=
         match l with
         | [] => ""
         | (k, x) :: r =>
             match x with
             | JUndefined => members r first
             | _ =>
                 (if first then "" else ",") +:+ quote k +:+ ":" +:+ stringify x
                 +:+ members r false
             end
         end) fields true
      +:+ "}"
  end.

(** [JSON.parse] for the texts written by [stringify], with blanks
    allowed between tokens; [None] is the [SyntaxError]. *)
Definition is_blank (c : ascii) : bool :=
  Ascii.eqb c " "%char || Ascii.eqb c "010"%char
  || Ascii.eqb c "013"%char || Ascii.eqb c "009"%char.

Fixpoint skip_blanks (s : string) : string :=
  match s with
  | String c r => if is_blank c then skip_blanks r else s
  | EmptyString => ""
  end.

Fixpoint take_digits (s : string) : string * string :=
  match s with
  | String c r =>
      if is_digit c then let (d, rest) := take_digits r in (String c d, rest)
      else ("", s)
  | EmptyString => ("", "")
  end.

(** The characters up to the closing quote. *)
Fixpoint take_string (s : string) : option (string * string) :=
  match s with
  | EmptyString => None
  | String c r =>
      if Ascii.eqb c dquote then Some ("", r)
      else if Ascii.eqb c backslash then
        match r with
        | String e r' =>
            if Ascii.eqb e dquote || Ascii.eqb e backslash then
              match take_string r' with
              | Some (t, rest) => Some (String e t, rest)
              | None => None
              end
            else None
        | EmptyString => None
        end
      else
        match take_string r with
        | Some (t, rest) => Some (String c t, rest)
        | None => None
        end
  end.

Definition strip_prefix (p s : string) : option string :=
  if String.prefix p s
  then Some (String.substring (String.length p)
               (String.length s - String.length p) s)
  else None.

Definition parse_number (s : string) : option (jsval * string) :=
  match s with
  | String "-" r =>
      let (d, rest) := take_digits r in
      match NilZero.uint_of_string d with
      | Some u => Some (JNum (- Z.of_N (N.of_uint u)), rest)
      | None => None
      end
  | _ =>
      let (d, rest) := take_digits s in
      match NilZero.uint_of_string d with
      | Some u => Some (JNum (Z.of_N (N.of_uint u)), rest)
      | None => None
      end
  end.

Definition parse_atom (s : string) : option (jsval * string) :=
  match s with
  | String c r =>
      if Ascii.eqb c dquote then
        match take_string r with
        | Some (t, rest) => Some (JStr t, rest)
        | None => None
        end
      else
        match strip_prefix "null" s, strip_prefix "true" s,
              strip_prefix "false" s with
        | Some rest, _, _ => Some (JNull, rest)
        | _, Some rest, _ => Some (JBool true, rest)
        | _, _, Some rest => Some (JBool false, rest)
        | _, _, _ => parse_number s
        end
  | EmptyString => None
  end.

Definition parse_key (s : string) : option (string * string) :=
  match skip_blanks s with
  | String c r =>
      if Ascii.eqb c dquote then
        match take_string r with
        | Some (k, rest) =>
            match skip_blanks rest with
            | String ":" rest1 => Some (k, rest1)
            | _ => None
            end
        | None => None
        end
      else None
  | EmptyString => None
  end.

Fixpoint parse_value (fuel : nat) (s : string) : option (jsval * string) :=
  match fuel with
  | O => None
  | S fuel' =>
      let s := skip_blanks s in
      match s with
      | String "[" r =>
          match skip_blanks r with
          | String "]" rest => Some (JArr [], rest)
          | r' => parse_items fuel' r' []
          end
      | String "{" r =>
          match skip_blanks r with
          | String "}" rest => Some (JObj [], rest)
          | r' => parse_members fuel' r' []
          end
      | _ => parse_atom s
      end
  end
with parse_items (fuel : nat) (s : string) (acc : list jsval)
  : option (jsval * string) :=
  match fuel with
  | O => None
  | S fuel' =>
      match parse_value fuel' s with
      | Some (v, rest) =>
          match skip_blanks rest with
          | String "," rest' => parse_items fuel' rest' (acc ++ [v])
          | String "]" rest' => Some (JArr (acc ++ [v]), rest')
          | _ => None
          end
      | None => None
      end
  end
with parse_members (fuel : nat) (s : string) (acc : list (string * jsval))
  : option (jsval * string) :=
  match fuel with
  | O => None
  | S fuel' =>
      match parse_key s with
      | Some (k, rest1) =>
          match parse_value fuel' rest1 with
          | Some (v, rest2) =>
              match skip_blanks rest2 with
              | String "," rest3 => parse_members fuel' rest3 (obj_set k v acc)
              | String "}" rest3 => Some (JObj (obj_set k v acc), rest3)
              | _ => None
              end
          | None => None
          end
      | None => None
      end
  end.

Definition parse (s : string) : option jsval :=
  match parse_value (2 * String.length s + 2) s with
  | Some (v, rest) =>
      match skip_blanks rest with
      | EmptyString => Some v
      | _ => None
      end
  | None => None
  end.

(** The network: the replies still to come. *)
Definition answer (r : Request) (script : list Reply) : Reply * list Reply :=
  match script with
  | reply :: rest => (reply, rest)
  | [] => (NetworkFailure, [])
  end.

(** The page: one value per group of fields, and the unit shown as
    active.  Populating stores the groups of the payload, clearing
    empties them; either dispatches one ['input'] event. *)
Record Page : Type := mkPage {
  page_fields : list (string * jsval);
  page_unit : Z
}.

Definition platform : Platform := {|
  Form := Page;
  Net := list Reply;
  serve := answer;
  JSON_parse := parse;
  JSON_stringify := stringify;
  dom_rows := fun f => field (page_fields f) "rows";
  dom_flows := fun f => field (page_fields f) "flows";
  dom_generation := fun f => field (page_fields f) "generation";
  dom_bunkerCapacity := fun f => field (page_fields f) "bunkerCapacity";
  dom_bunkerCapacities := fun f => field (page_fields f) "bunkerCapacities";
  dom_clientBunkers := fun f _ => field (page_fields f) "clientBunkers";
  dom_populate := fun p f => mkPage (own_props p) (page_unit f);
  dom_populate_inputs := fun _ _ => 1%nat;
  dom_clear := fun f => mkPage [] (page_unit f);
  dom_clear_inputs := fun _ => 1%nat;
  dom_mark_unit := fun u f => mkPage (page_fields f) u
|}.

(** A page just loaded: unit 1 active, nothing stored, no timer
    pending, listeners attached, the clock at [t0]. *)
Definition fresh (fields : list (string * jsval)) (script : list Reply)
  : World platform :=
  mkWorld platform 1 (JObj []) ∅ [] None None true 0 [] 1 []
    (mkPage fields 1) script [].

End Reference.
(** * Properties *)

Example secondsToHHMMSS_3725 :
  secondsToHHMMSS (SecNumber (Finite (37249 # 10))) = "01:02:05".
Proof. reflexivity. Qed.

Example secondsToHHMMSS_100h :
  secondsToHHMMSS (SecNumber (Finite 360000)) = "100:00:00".
Proof. reflexivity. Qed.

Example secondsToHHMMSS_half :
  secondsToHHMMSS (SecNumber (Finite (-1 # 2))) = "00:00:00"
  /\ secondsToHHMMSS (SecNumber (Finite (1 # 2))) = "00:00:01".
Proof. split; reflexivity. Qed.

(** ** The reference platform at work *)

Example parse_stringify_sample :
  let v := JObj [("1", JStr "a\b"); ("rows", JArr [JNum 1; JNull; JBool true]);
                 ("n", JNum (-42)); ("o", JObj [])] in
  Reference.parse (Reference.stringify v) = Some v
  /\ String.length (Reference.stringify v) = 48%nat.
Proof. split; vm_compute; reflexivity. Qed.

Example parse_corrupt :
  Reference.parse "{oops" = None /\ Reference.parse "" = None
  /\ Reference.parse "[1,2]x" = None
  /\ Reference.parse " [ 2 , [ ] , { } ] " = Some (JArr [JNum 2; JArr []; JObj []]).
Proof. repeat split; vm_compute; reflexivity. Qed.

Example parse_orders_keys :
  Reference.parse
    (Reference.stringify (JObj [("b", JNum 0); ("2", JNum 1); ("1", JNull)]))
  = Some (JObj [("1", JNull); ("2", JNum 1); ("b", JNum 0)]).
Proof. vm_compute; reflexivity. Qed.

(** ** The timer formatter *)

Section Formatter.

Lemma append_String c (a b : string) : String c a +:+ b = String c (a +:+ b).
Proof. reflexivity. Qed.

Lemma append_empty_l (b : string) : "" +:+ b = b.
Proof. reflexivity. Qed.

Lemma append_empty_r (a : string) : a +:+ "" = a.
Proof. induction a as [|c a IH]; [reflexivity|]. now rewrite append_String, IH. Qed.

Lemma string_app_assoc (a b c : string) : (a +:+ b) +:+ c = a +:+ (b +:+ c).
Proof.
  induction a as [|x a IH]; [reflexivity|].
  now rewrite !append_String, IH.
Qed.

Lemma digits_only_app a b :
  digits_only (a +:+ b) = digits_only a && digits_only b.
Proof.
  induction a as [|c a IH]; [reflexivity|].
  rewrite append_String. simpl. rewrite IH. now rewrite andb_assoc.
Qed.

Lemma digits_only_uint d : digits_only (NilEmpty.string_of_uint d) = true.
Proof. induction d; simpl; auto. Qed.

Lemma String_of_Z_digits n : 0 <= n -> digits_only (String_of_Z n) = true.
Proof.
  intros Hn. unfold String_of_Z. destruct n as [|p|p]; [reflexivity| |lia].
  simpl. unfold NilZero.string_of_uint.
  destruct (Pos.to_uint p) eqn:E; try reflexivity;
    rewrite <- E; apply digits_only_uint.
Qed.

Lemma String_of_Z_nonempty n : String_of_Z n <> "".
Proof.
  unfold String_of_Z. destruct n as [|p|p]; simpl; try discriminate.
  unfold NilZero.string_of_uint.
  destruct (Pos.to_uint p); simpl; discriminate.
Qed.

Lemma decimal_field_String_of_Z n :
  0 <= n -> decimal_field (String_of_Z n) = Some n.
Proof.
  intros Hn. destruct n as [|p|p]; [reflexivity| |lia].
  unfold decimal_field, String_of_Z. simpl Z.to_int. simpl NilZero.string_of_int.
  assert (Hnn : Pos.to_uint p <> Decimal.Nil).
  { intros E. pose proof (DecimalZ.of_to (Z.pos p)) as H.
    simpl in H. rewrite E in H. discriminate H. }
  rewrite (NilZero.usu _ Hnn).
  pose proof (DecimalZ.of_to (Z.pos p)) as H. simpl in H.
  unfold Z.of_uint in H. unfold N.of_uint. now rewrite H.
Qed.

Lemma decimal_field_zero_prefix c r :
  decimal_field (String "0" (String c r)) = decimal_field (String c r).
Proof.
  unfold decimal_field, NilZero.uint_of_string.
  change (NilEmpty.uint_of_string (String "0" (String c r)))
    with (uint_of_char "0" (NilEmpty.uint_of_string (String c r))).
  destruct (NilEmpty.uint_of_string (String c r)); reflexivity.
Qed.

(** Padding to two places prefixes at most two zeros. *)
Lemma padStart2_cases s :
  s <> "" ->
  (String.length s = 1%nat /\ padStart s 2 "0" = String "0" s)
  \/ ((2 <= String.length s)%nat /\ padStart s 2 "0" = s).
Proof.
  intros Hs. destruct s as [|c [|c' r]]; [congruence| |].
  - left. split; reflexivity.
  - right. split; [simpl; lia | reflexivity].
Qed.

Lemma padStart2_length s :
  s <> "" -> (2 <= String.length (padStart s 2 "0"))%nat.
Proof.
  intros Hs. destruct (padStart2_cases s Hs) as [[H1 ->]|[H2 ->]];
    simpl; lia.
Qed.

Lemma padStart2_digits s :
  s <> "" -> digits_only s = true -> digits_only (padStart s 2 "0") = true.
Proof.
  intros Hs Hd. destruct (padStart2_cases s Hs) as [[_ ->]|[_ ->]];
    simpl; auto.
Qed.

Lemma padStart2_field s :
  s <> "" -> decimal_field (padStart s 2 "0") = decimal_field s.
Proof.
  intros Hs. destruct (padStart2_cases s Hs) as [[H1 ->]|[_ ->]]; [|reflexivity].
  destruct s as [|c r]; [congruence|]. apply decimal_field_zero_prefix.
Qed.

Lemma is_digit_not_colon c : is_digit c = true -> Ascii.eqb c ":" = false.
Proof.
  destruct (Ascii.eqb c ":") eqn:E; [|reflexivity].
  apply Ascii.eqb_eq in E. subst c. discriminate.
Qed.

Lemma split_colon_field a r acc :
  digits_only a = true ->
  split_colon (a +:+ String ":" r) acc = (acc +:+ a) :: split_colon r "".
Proof.
  revert acc. induction a as [|c a IH]; intros acc Hd.
  - rewrite append_empty_l, append_empty_r. reflexivity.
  - simpl in Hd. apply andb_prop in Hd as [Hc Ha].
    rewrite append_String. simpl.
    rewrite (is_digit_not_colon _ Hc), IH by assumption.
    now rewrite string_app_assoc.
Qed.

Lemma split_colon_last a acc :
  digits_only a = true -> split_colon a acc = [acc +:+ a].
Proof.
  revert acc. induction a as [|c a IH]; intros acc Hd.
  - rewrite append_empty_r. reflexivity.
  - simpl in Hd. apply andb_prop in Hd as [Hc Ha]. simpl.
    rewrite (is_digit_not_colon _ Hc), IH by assumption.
    now rewrite string_app_assoc.
Qed.

Lemma hhmmssToSeconds_fields h m s :
  0 <= h -> 0 <= m -> 0 <= s ->
  hhmmssToSeconds
    (padStart (String_of_Z h) 2 "0" +:+ ":" +:+
     padStart (String_of_Z m) 2 "0" +:+ ":" +:+
     padStart (String_of_Z s) 2 "0")
  = Some (h * 3600 + m * 60 + s).
Proof.
  intros Hh Hm Hs. unfold hhmmssToSeconds.
  assert (D : forall n, 0 <= n ->
              digits_only (padStart (String_of_Z n) 2 "0") = true).
  { intros n Hn. apply padStart2_digits;
      [apply String_of_Z_nonempty | now apply String_of_Z_digits]. }
  set (fh := padStart (String_of_Z h) 2 "0") in *.
  set (fm := padStart (String_of_Z m) 2 "0") in *.
  set (fs := padStart (String_of_Z s) 2 "0") in *.
  replace (fh +:+ ":" +:+ fm +:+ ":" +:+ fs)
    with (fh +:+ String ":" (fm +:+ String ":" fs)) by reflexivity.
  rewrite (split_colon_field fh _ "" (D h Hh)).
  rewrite (split_colon_field fm _ "" (D m Hm)).
  rewrite (split_colon_last fs "" (D s Hs)).
  rewrite !append_empty_l. subst fh fm fs.
  rewrite !padStart2_field by apply String_of_Z_nonempty.
  now rewrite !decimal_field_String_of_Z by assumption.
Qed.

Lemma padStart2_small z :
  0 <= z < 100 -> String.length (padStart (String_of_Z z) 2 "0") = 2%nat.
Proof.
  intros Hz.
  assert (A : forallb
                (fun n => Nat.eqb (String.length
                                     (padStart (String_of_Z (Z.of_nat n)) 2 "0")) 2)
                (seq 0 100) = true) by (vm_compute; reflexivity).
  rewrite forallb_forall in A.
  specialize (A (Z.to_nat z)).
  rewrite Z2Nat.id in A by lia.
  apply Nat.eqb_eq, A, in_seq. lia.
Qed.

Lemma Math_round_negative q : (q < 0)%Q -> Math_round q <= 0.
Proof.
  intros Hq. unfold Math_round.
  pose proof (Qfloor_le (q + (1 # 2))) as Hf.
  assert (Hlt : (inject_Z (Qfloor (q + (1 # 2))) < inject_Z 1)%Q).
  { change (inject_Z 1) with 1%Q. Lqa.lra. }
  rewrite <- Zlt_Qlt in Hlt. lia.
Qed.

End Formatter.



(** ** The unit-mapping resolver *)

(** The value parsed from the stored text under [key], as [readBlendIds]
    and [readPayloadCache] see it: the empty object when the text is
    missing, empty or not JSON. *)
Definition stored_json (P : Platform) (w : World P) (key : string) : jsval :=
  match JSON_parse P (string_or (localStorage P w !! key) "{}") with
  | Some v => v
  | None => JObj []
  end.

(** A map holds an entry for [key] when reading it yields a truthy value. *)
Definition has_entry (map : jsval) (key : string) : bool :=
  match getProp map key with
  | Some v => truthy v
  | None => false
  end.

(** [map[key]], [undefined] where reading would throw. *)
Definition entry (map : jsval) (key : string) : jsval :=
  match getProp map key with
  | Some v => v
  | None => JUndefined
  end.

(** The requests among the events of a log. *)
Definition requests (l : list Event) : list Request :=
  flat_map (fun e => match e with EvFetch r => [r] | _ => [] end) l.

(** [map && map['1'] && map['2'] && map['3']] is truthy. *)
Definition have3 (map : jsval) : bool :=
  has_entry map "1" && has_entry map "2" && has_entry map "3".

Definition reqUnits : Request := mkRequest GET "/units" None.
Definition reqInit : Request := mkRequest POST "/units/init" None.

Ltac unfold_m :=
  unfold and_then, or_else, prop, assign, res_json, JSON_parse_m, getItem,
    setItem, alert, ignore;
  unfold bind, try_catch, ret, throw, gets, modify;
  cbv beta iota.

Section Resolver.

Context (P : Platform).

Lemma readBlendIds_value (w : World P) :
  readBlendIds P w = (Return (stored_json P w BLEND_IDS_KEY), w).
Proof.
  unfold readBlendIds, stored_json. unfold_m.
  destruct (JSON_parse P _); reflexivity.
Qed.

Lemma readPayloadCache_value (w : World P) :
  readPayloadCache P w = (Return (stored_json P w PAYLOAD_CACHE_KEY), w).
Proof.
  unfold readPayloadCache, stored_json. unfold_m.
  destruct (JSON_parse P _); reflexivity.
Qed.

Lemma writeBlendIds_value (obj : jsval) (w : World P) :
  writeBlendIds P obj w =
  (Return tt,
   emit P (EvSetItem BLEND_IDS_KEY (JSON_stringify P obj))
     (set_localStorage P
        (<[BLEND_IDS_KEY := JSON_stringify P obj]> (localStorage P w)) w)).
Proof. reflexivity. Qed.

(** The world after a successful refresh of the remote map. *)
Definition refreshed (map : jsval) (n : Net P) (w : World P) : World P :=
  set_serverUnitMap P (jor map (JObj []))
    (emit P (EvSetItem BLEND_IDS_KEY (JSON_stringify P map))
       (set_localStorage P
          (<[BLEND_IDS_KEY := JSON_stringify P map]> (localStorage P w))
          (set_net P n (emit P (EvFetch reqUnits) w)))).

(** The world after a request that changed nothing but the network. *)
Definition requested (r : Request) (n : Net P) (w : World P) : World P :=
  set_net P n (emit P (EvFetch r) w).

Lemma fetchServerUnitMap_cases (w : World P) :
  fetchServerUnitMap P w =
  match serve P reqUnits (net P w) with
  | (Response true (Some map), n) => (Return (jor map (JObj [])), refreshed map n w)
  | (_, n) => (Return (JObj []), requested reqUnits n w)
  end.
Proof.
  unfold fetchServerUnitMap, fetch, reqUnits, refreshed, requested. unfold_m.
  simpl. destruct (serve P _ _) as [[|[|] [map|]] n]; reflexivity.
Qed.

Lemma fetchServerUnitMap_returns (w : World P) :
  exists map w', fetchServerUnitMap P w = (Return map, w') /\ truthy map = true.
Proof.
  rewrite fetchServerUnitMap_cases.
  destruct (serve P _ _) as [[|[|] [map|]] n]; eauto.
  exists (jor map (JObj [])), (refreshed map n w). split; [reflexivity|].
  unfold jor. destruct (truthy map) eqn:E; auto.
Qed.

Lemma getProp_truthy (v : jsval) (k : string) :
  truthy v = true -> getProp v k = Some (entry v k).
Proof. unfold entry. destruct v; simpl; try discriminate; reflexivity. Qed.

Lemma has_entry_truthy (v : jsval) (k : string) :
  truthy v = true -> has_entry v k = truthy (entry v k).
Proof. intros H. unfold has_entry. now rewrite (getProp_truthy _ _ H). Qed.

Lemma has_entry_falsy (v : jsval) (k : string) :
  truthy v = false -> has_entry v k = false.
Proof.
  unfold has_entry.
  destruct v; simpl; intros H; try discriminate; try reflexivity.
  apply negb_false_iff, String.eqb_eq in H. subst s.
  destruct (index_of_key k) as [[|i]|]; [reflexivity|reflexivity|].
  destruct (k =? "length")%string; reflexivity.
Qed.

(** The guarded read [m && m[key]] followed by [m[key]]. *)
Lemma guarded_read (m : jsval) (key : string) (w : World P) :
  and_then P m (prop P m key) w =
  (Return (if truthy m then entry m key else m), w).
Proof.
  unfold and_then, prop, ret. destruct (truthy m) eqn:E; [|reflexivity].
  now rewrite (getProp_truthy _ _ E).
Qed.

Lemma guarded_truthy (m : jsval) (key : string) :
  truthy (if truthy m then entry m key else m) = has_entry m key.
Proof.
  destruct (truthy m) eqn:E.
  - now rewrite has_entry_truthy.
  - now rewrite has_entry_falsy.
Qed.

Lemma has_entry_prop (m : jsval) (key : string) (w : World P) :
  has_entry m key = true -> prop P m key w = (Return (entry m key), w).
Proof.
  unfold has_entry, prop, entry, ret. destruct (getProp m key); [reflexivity|discriminate].
Qed.

Lemma requests_app (l1 l2 : list Event) :
  requests (l1 ++ l2) = requests l1 ++ requests l2.
Proof. unfold requests. apply flat_map_app. Qed.

Lemma fetchServerUnitMap_requests (w : World P) :
  requests (log P (snd (fetchServerUnitMap P w)))
  = requests (log P w) ++ [reqUnits].
Proof.
  rewrite fetchServerUnitMap_cases.
  destruct (serve P _ _) as [[|[|] [map|]] n]; simpl;
    rewrite ?requests_app; simpl; rewrite ?app_nil_r; reflexivity.
Qed.

Lemma zor_nonzero (u v : Z) : v <> 0 -> zor u v <> 0.
Proof. unfold zor. destruct (u =? 0) eqn:E; [auto|]. intros _. now apply Z.eqb_neq. Qed.

Lemma has_entry_not_null (m : jsval) (key : string) :
  has_entry m key = true -> truthy (entry m key) = true.
Proof. unfold has_entry, entry. destruct (getProp m key); auto. Qed.

End Resolver.

(** C4. [getBlendIdForUnit] resolves a unit in this order: the entry of
    the in-memory remote map when it holds one, and then no request is
    made; otherwise, after exactly one fetch of the remote map, its entry
    when it now holds one; otherwise the entry of the locally stored
    fallback map; and [null] when none of the three holds an entry, and
    only then: every other result is a truthy id. *)
Theorem getBlendIdForUnit_preference (P : Platform) (u : Z) (w : World P) :
  let key := String_of_Z (zor u (zor (currentUnit P w) 1)) in
  let w1 := snd (fetchServerUnitMap P w) in
  let local := stored_json P w1 BLEND_IDS_KEY in
  let in_memory := has_entry (serverUnitMap P w) key in
  let in_fetched := has_entry (serverUnitMap P w1) key in
  let in_local := has_entry local key in
  getBlendIdForUnit P u w =
    (if in_memory then (Return (entry (serverUnitMap P w) key), w)
     else if in_fetched then (Return (entry (serverUnitMap P w1) key), w1)
     else if in_local then (Return (entry local key), w1)
     else (Return JNull, w1))
  /\ requests (log P w1) = requests (log P w) ++ [reqUnits]
  /\ match fst (getBlendIdForUnit P u w) with
     | Return id =>
         truthy id = in_memory || in_fetched || in_local
         /\ (if truthy id then True else id = JNull)
     | Throw _ => False
     end.
Proof.
  intros key w1 local in_memory in_fetched in_local.
  assert (E : getBlendIdForUnit P u w =
    (if in_memory then (Return (entry (serverUnitMap P w) key), w)
     else if in_fetched then (Return (entry (serverUnitMap P w1) key), w1)
     else if in_local then (Return (entry local key), w1)
     else (Return JNull, w1))).
  { unfold getBlendIdForUnit.
    unfold bind at 1. unfold gets at 1. fold key.
    assert (Hk : zor u (zor (currentUnit P w) 1) <> 0)
      by (apply zor_nonzero, zor_nonzero; lia).
    apply Z.eqb_neq in Hk. rewrite Hk.
    unfold bind at 1. unfold gets at 1.
    unfold bind at 1. rewrite guarded_read, guarded_truthy.
    fold in_memory. destruct in_memory eqn:E1.
    { now apply has_entry_prop. }
    unfold bind at 1.
    destruct (fetchServerUnitMap_returns P w) as (map & w' & Hf & _).
    assert (Hw1 : w1 = w') by (subst w1; now rewrite Hf). rewrite Hf, <- Hw1.
    unfold bind at 1. unfold gets at 1.
    unfold bind at 1. rewrite guarded_read, guarded_truthy.
    fold in_fetched. destruct in_fetched eqn:E2.
    { now apply has_entry_prop. }
    unfold bind at 1. rewrite readBlendIds_value. fold local.
    unfold bind at 1. rewrite guarded_read, guarded_truthy.
    fold in_local. destruct in_local eqn:E3.
    { now apply has_entry_prop. }
    reflexivity. }
  split; [exact E|]. split; [apply fetchServerUnitMap_requests|].
  rewrite E.
  destruct in_memory eqn:E1; [simpl; rewrite (has_entry_not_null _ _ E1); auto|].
  destruct in_fetched eqn:E2; [simpl; rewrite (has_entry_not_null _ _ E2); auto|].
  destruct in_local eqn:E3; [simpl; rewrite (has_entry_not_null _ _ E3); auto|].
  simpl. auto.
Qed.

Section Ensure.

Context (P : Platform).

(** The map the first fetch of [ensureServerUnitMapping] yields. *)
Definition fetched_map (w : World P) : jsval :=
  match fst (fetchServerUnitMap P w) with
  | Return m => m
  | Throw _ => JObj []
  end.

(** The world after [POST /units/init] answered with the map [created]. *)
Definition initialised (created : jsval) (n : Net P) (w : World P) : World P :=
  emit P (EvSetItem BLEND_IDS_KEY (JSON_stringify P created))
    (set_localStorage P
       (<[BLEND_IDS_KEY := JSON_stringify P created]> (localStorage P w))
       (set_serverUnitMap P created (requested P reqInit n w))).

Lemma have3_chain (map : jsval) (w : World P) :
  truthy map = true ->
  exists v,
    and_then P map
      (m1 <- prop P map "1" ;;
       and_then P m1 (m2 <- prop P map "2" ;; and_then P m2 (prop P map "3"))) w
    = (Return v, w)
    /\ truthy v = have3 map.
Proof.
  intros Hm. unfold have3. rewrite !has_entry_truthy by assumption.
  unfold_m. rewrite Hm, !(getProp_truthy _ _ Hm).
  destruct (truthy (entry map "1")) eqn:E1; [|eauto].
  destruct (truthy (entry map "2")) eqn:E2; [|eauto].
  eauto.
Qed.

Lemma ensureServerUnitMapping_cases (w : World P) :
  let map := fetched_map w in
  let w1 := snd (fetchServerUnitMap P w) in
  ensureServerUnitMapping P w =
    if have3 map then (Return map, w1)
    else
      match serve P reqInit (net P w1) with
      | (Response true (Some data), n) =>
          match getProp data "map" with
          | Some m => (Return (jor m (JObj [])), initialised (jor m (JObj [])) n w1)
          | None => (Return (JObj []), requested P reqInit n w1)
          end
      | (Response false _, n) => fetchServerUnitMap P (requested P reqInit n w1)
      | (_, n) => (Return (JObj []), requested P reqInit n w1)
      end.
Proof.
  intros map w1. unfold ensureServerUnitMapping.
  destruct (fetchServerUnitMap_returns P w) as (m0 & w' & Hf & Ht).
  assert (Hmap : map = m0) by (subst map; unfold fetched_map; now rewrite Hf).
  assert (Hw1 : w1 = w') by (subst w1; now rewrite Hf).
  unfold bind at 1. rewrite Hf, <- Hmap, <- Hw1. rewrite <- Hmap in Ht.
  destruct (have3_chain map w1 Ht) as (v & Hv & Htv).
  unfold bind at 1. rewrite Hv, Htv.
  destruct (have3 map); [reflexivity|].
  unfold fetch, reqInit, requested, initialised. unfold_m. simpl.
  destruct (serve P _ _) as [[|[|] [data|]] n]; simpl; try reflexivity.
  - destruct (getProp data "map") as [m|] eqn:Eg; [|reflexivity].
    unfold jor.
    destruct (truthy m) eqn:Em; destruct (truthy data) eqn:Ed; simpl;
      rewrite ?Eg; simpl; rewrite ?Em, ?Ed; reflexivity.
  - destruct (fetchServerUnitMap_returns P (requested P reqInit n w1))
      as (m & w'' & Hr & _).
    unfold requested, reqInit in Hr. rewrite Hr. reflexivity.
  - destruct (fetchServerUnitMap_returns P (requested P reqInit n w1))
      as (m & w'' & Hr & _).
    unfold requested, reqInit in Hr. rewrite Hr. reflexivity.
Qed.

End Ensure.

(** C5, as stated, fails: the first fetch succeeds with a map holding
    unit 1 only, the initialisation request is rejected by the network, and
    [ensureServerUnitMapping] returns the empty map, not the map the last
    successful fetch produced. *)
Lemma ensureServerUnitMapping_drops_fetched_map :
  let partial := JObj [("1", JStr "a")] in
  let w := Reference.fresh [] [Response true (Some partial); NetworkFailure] in
  fst (fetchServerUnitMap Reference.platform w) = Return partial
  /\ fst (ensureServerUnitMapping Reference.platform w) = Return (JObj [])
  /\ JObj [] <> partial.
Proof. repeat split; try (vm_compute; reflexivity). discriminate. Qed.

(** C5, amended. [ensureServerUnitMapping] never raises.  It returns the
    fetched remote map unchanged, with no further request, when that map
    holds entries for units 1, 2 and 3.  Otherwise it posts the
    initialisation request: an OK answer makes it return the [map] of the
    answer (the empty object when that is missing or falsy), installed as
    the remote map and written to the fallback store; an answer that is not
    OK makes it return the result of a second fetch of the remote map; a
    rejected request or an unreadable answer makes it return the empty
    map. *)
Theorem ensureServerUnitMapping_spec (P : Platform) (w : World P) :
  let map := fetched_map P w in
  let w1 := snd (fetchServerUnitMap P w) in
  ensureServerUnitMapping P w =
    (if have3 map then (Return map, w1)
     else
       match serve P reqInit (net P w1) with
       | (Response true (Some data), n) =>
           match getProp data "map" with
           | Some m =>
               (Return (jor m (JObj [])), initialised P (jor m (JObj [])) n w1)
           | None => (Return (JObj []), requested P reqInit n w1)
           end
       | (Response false _, n) => fetchServerUnitMap P (requested P reqInit n w1)
       | (_, n) => (Return (JObj []), requested P reqInit n w1)
       end)
  /\ match fst (ensureServerUnitMapping P w) with
     | Return _ => True
     | Throw _ => False
     end.
Proof.
  intros map w1. split; [apply ensureServerUnitMapping_cases|].
  rewrite ensureServerUnitMapping_cases. fold map w1.
  destruct (have3 map); [exact I|].
  destruct (serve P _ _) as [[|[|] [data|]] n]; simpl; try exact I.
  - destruct (getProp data "map"); exact I.
  - destruct (fetchServerUnitMap_returns P (requested P reqInit n w1))
      as (m & w' & -> & _). exact I.
  - destruct (fetchServerUnitMap_returns P (requested P reqInit n w1))
      as (m & w' & -> & _). exact I.
Qed.

(** ** Running a computation step by step *)

Section Steps.

Context {P : Platform}.

Lemma bind_Return {A B} (m : M P A) (k : A -> M P B) (w w' : World P) (a : A) :
  m w = (Return a, w') -> bind m k w = k a w'.
Proof. intros H. unfold bind. now rewrite H. Qed.

Lemma bind_Throw {A B} (m : M P A) (k : A -> M P B) (w w' : World P) (e : Exn) :
  m w = (Throw e, w') -> bind m k w = (Throw e, w').
Proof. intros H. unfold bind. now rewrite H. Qed.

Lemma try_catch_Return {A} (m : M P A) (h : Exn -> M P A) (w w' : World P) (a : A) :
  m w = (Return a, w') -> try_catch m h w = (Return a, w').
Proof. intros H. unfold try_catch. now rewrite H. Qed.

Lemma try_catch_Throw {A} (m : M P A) (h : Exn -> M P A) (w w' : World P) (e : Exn) :
  m w = (Throw e, w') -> try_catch m h w = h e w'.
Proof. intros H. unfold try_catch. now rewrite H. Qed.

Lemma fetch_Response (r : Request) (w : World P) (ok : bool)
  (body : option jsval) (n : Net P) :
  serve P r (net P w) = (Response ok body, n) ->
  fetch P r w = (Return (ok, body), set_net P n (emit P (EvFetch r) w)).
Proof. intros H. unfold fetch. simpl. now rewrite H. Qed.

Lemma fetch_NetworkFailure (r : Request) (w : World P) (n : Net P) :
  serve P r (net P w) = (NetworkFailure, n) ->
  fetch P r w = (Throw NetworkError, set_net P n (emit P (EvFetch r) w)).
Proof. intros H. unfold fetch. simpl. now rewrite H. Qed.

End Steps.

Ltac msimp := cbn [negb fst snd andb orb]; cbv beta iota.

(** ** Frames: what a computation leaves alone *)

Section Frames.

Context {P : Platform} {X : Type} (view : World P -> X).

(** [m] leaves the part [view] of the world as it found it. *)
Definition preserves {A} (m : M P A) : Prop :=
  forall w, view (snd (m w)) = view w.

Lemma preserves_ret {A} (a : A) : preserves (ret a).
Proof. intros w. reflexivity. Qed.

Lemma preserves_throw {A} (e : Exn) : preserves (@throw P A e).
Proof. intros w. reflexivity. Qed.

Lemma preserves_gets {A} (f : World P -> A) : preserves (gets f).
Proof. intros w. reflexivity. Qed.

Lemma preserves_ignore {A} (a : A) (e : Exn) : preserves (ignore P a e).
Proof. intros w. reflexivity. Qed.

Lemma preserves_modify (f : World P -> World P) :
  (forall w, view (f w) = view w) -> preserves (modify f).
Proof. intros H w. apply H. Qed.

Lemma preserves_bind {A B} (m : M P A) (k : A -> M P B) :
  preserves m -> (forall a, preserves (k a)) -> preserves (bind m k).
Proof.
  intros Hm Hk w. unfold bind. specialize (Hm w).
  destruct (m w) as [[a|e] w']; simpl in *; [|assumption].
  now rewrite Hk.
Qed.

Lemma preserves_try_catch {A} (m : M P A) (h : Exn -> M P A) :
  preserves m -> (forall e, preserves (h e)) -> preserves (try_catch m h).
Proof.
  intros Hm Hh w. unfold try_catch. specialize (Hm w).
  destruct (m w) as [[a|e] w']; simpl in *; [assumption|].
  now rewrite Hh.
Qed.

Lemma preserves_repeat_m (n : nat) (m : M P unit) :
  preserves m -> preserves (repeat_m P n m).
Proof.
  intros Hm. induction n as [|n IH]; simpl.
  - apply preserves_ret.
  - apply preserves_bind; auto.
Qed.

Lemma preserves_for_each {A} (l : list A) (body : A -> M P unit) :
  (forall x, preserves (body x)) -> preserves (for_each P l body).
Proof.
  intros Hb. induction l as [|x l IH]; simpl.
  - apply preserves_ret.
  - apply preserves_bind; auto.
Qed.

Lemma preserves_fetch (r : Request) :
  (forall n w, view (set_net P n (emit P (EvFetch r) w)) = view w) ->
  preserves (fetch P r).
Proof.
  intros H w. unfold fetch. destruct (serve P r _) as [[|ok body] n]; apply H.
Qed.

Lemma preserves_setTimeout (task : Task) (delay : nat) :
  (forall w, view (set_timers P
                     (timers P w ++ [(nextTimer P w, ((now P w + delay)%nat, task))])
                     (S (nextTimer P w)) w) = view w) ->
  preserves (setTimeout P task delay).
Proof. intros H w. apply H. Qed.

Lemma preserves_clearTimeout (t : option nat) :
  (forall ts n w, view (set_timers P ts n w) = view w) ->
  preserves (clearTimeout P t).
Proof. intros H w. unfold clearTimeout, modify. destruct t; simpl; [apply H|reflexivity]. Qed.

Lemma preserves_prop (v : jsval) (k : string) : preserves (prop P v k).
Proof. intros w. unfold prop. destruct (getProp v k); reflexivity. Qed.

Lemma preserves_assign (v : jsval) (k : string) (x : jsval) :
  preserves (assign P v k x).
Proof. intros w. unfold assign. destruct (setProp v k x); reflexivity. Qed.

Lemma preserves_res_json (res : bool * option jsval) : preserves (res_json P res).
Proof. intros w. unfold res_json. destruct (snd res); reflexivity. Qed.

Lemma preserves_JSON_parse_m (s : string) : preserves (JSON_parse_m P s).
Proof. intros w. unfold JSON_parse_m. destruct (JSON_parse P s); reflexivity. Qed.

Lemma preserves_and_then (a : jsval) (b : M P jsval) :
  preserves b -> preserves (and_then P a b).
Proof. intros H. unfold and_then. destruct (truthy a); [assumption|apply preserves_ret]. Qed.

Lemma preserves_or_else (a : jsval) (b : M P jsval) :
  preserves b -> preserves (or_else P a b).
Proof. intros H. unfold or_else. destruct (truthy a); [apply preserves_ret|assumption]. Qed.

End Frames.

(** Breaks a [preserves] goal along the structure of the computation; what
    is left are the primitive steps that touch the world. *)
Ltac frame_step :=
  match goal with
  | |- preserves _ (bind _ _) => apply preserves_bind; [|intros]
  | |- preserves _ (try_catch _ _) => apply preserves_try_catch; [|intros]
  | |- preserves _ (ret _) => apply preserves_ret
  | |- preserves _ (throw _) => apply preserves_throw
  | |- preserves _ (gets _) => apply preserves_gets
  | |- preserves _ (ignore _ _ _) => apply preserves_ignore
  | |- preserves _ (prop _ _ _) => apply preserves_prop
  | |- preserves _ (assign _ _ _ _) => apply preserves_assign
  | |- preserves _ (res_json _ _) => apply preserves_res_json
  | |- preserves _ (JSON_parse_m _ _) => apply preserves_JSON_parse_m
  | |- preserves _ (and_then _ _ _) => apply preserves_and_then
  | |- preserves _ (or_else _ _ _) => apply preserves_or_else
  | |- preserves _ (repeat_m _ _ _) => apply preserves_repeat_m
  | |- preserves _ (for_each _ _ _) => apply preserves_for_each; intros
  | |- preserves _ (getItem _ _) => apply preserves_gets
  | |- preserves _ (mem_get _ _) => apply preserves_gets
  | |- preserves _ (if ?b then _ else _) => destruct b
  | |- preserves _ (match ?x with _ => _ end) => destruct x
  | |- preserves _ (let _ := _ in _) => cbv zeta
  end.

(** ** The timer queue is well formed *)

Definition is_debounced (e : nat * (nat * Task)) : bool :=
  match snd (snd e) with TDebounced => true | _ => false end.

Definition is_flush (e : nat * (nat * Task)) : bool :=
  match snd (snd e) with TFlush => true | _ => false end.

(** What ties the two timer variables of the script to the queue: a
    pending deferred write is a [TFlush] timer of the queue, and the only
    one; the debounce variable names no timer of another kind; every
    pending debounced save is the one the debounce variable names;
    identifiers are fresh and distinct. *)
Record timers_wf (P : Platform) (w : World P) : Prop := {
  wf_flush : forall id, deferredPayloadWriteTimer P w = Some id ->
             exists d, In (id, (d, TFlush)) (timers P w);
  wf_fresh : forall e, In e (timers P w) -> (fst e < nextTimer P w)%nat;
  wf_debounce_kind : forall id e, debounce_t P w = Some id ->
             In e (timers P w) -> fst e = id -> is_debounced e = true;
  wf_debounce_fresh : forall id, debounce_t P w = Some id -> (id < nextTimer P w)%nat;
  wf_debounce_only : forall e, In e (timers P w) -> is_debounced e = true ->
             debounce_t P w = Some (fst e);
  wf_flush_only : forall e, In e (timers P w) -> is_flush e = true ->
             deferredPayloadWriteTimer P w = Some (fst e);
  wf_distinct : List.NoDup (map fst (timers P w))
}.

(** The part of the world the invariant speaks of. *)
Definition timer_state (P : Platform) (w : World P) :=
  (timers P w, nextTimer P w, deferredPayloadWriteTimer P w, debounce_t P w).

Lemma timers_wf_view (P : Platform) (w w' : World P) :
  timer_state P w' = timer_state P w -> timers_wf P w -> timers_wf P w'.
Proof.
  unfold timer_state. intros E [H1 H2 H3 H4 H5 H7 H6].
  injection E as Et En Ed Eb.
  split; rewrite ?Et, ?En, ?Ed, ?Eb; assumption.
Qed.

Section Keeps.

Context {P : Platform} (I : World P -> Prop).

(** [m] keeps the invariant [I]. *)
Definition keeps {A} (m : M P A) : Prop := forall w, I w -> I (snd (m w)).

Lemma keeps_ret {A} (a : A) : keeps (ret a).
Proof. intros w H. exact H. Qed.

Lemma keeps_bind {A B} (m : M P A) (k : A -> M P B) :
  keeps m -> (forall a, keeps (k a)) -> keeps (bind m k).
Proof.
  intros Hm Hk w Hw. unfold bind. specialize (Hm w Hw).
  destruct (m w) as [[a|e] w']; simpl in *; [|assumption].
  now apply Hk.
Qed.

Lemma keeps_try_catch {A} (m : M P A) (h : Exn -> M P A) :
  keeps m -> (forall e, keeps (h e)) -> keeps (try_catch m h).
Proof.
  intros Hm Hh w Hw. unfold try_catch. specialize (Hm w Hw).
  destruct (m w) as [[a|e] w']; simpl in *; [assumption|].
  now apply Hh.
Qed.

Lemma keeps_repeat_m (n : nat) (m : M P unit) :
  keeps m -> keeps (repeat_m P n m).
Proof.
  intros Hm. induction n as [|n IH]; simpl.
  - apply keeps_ret.
  - apply keeps_bind; auto.
Qed.

Lemma keeps_for_each {A} (l : list A) (body : A -> M P unit) :
  (forall x, keeps (body x)) -> keeps (for_each P l body).
Proof.
  intros Hb. induction l as [|x l IH]; simpl.
  - apply keeps_ret.
  - apply keeps_bind; auto.
Qed.

End Keeps.

Lemma preserves_keeps_wf {P : Platform} {A} (m : M P A) :
  preserves (timer_state P) m -> keeps (timers_wf P) m.
Proof. intros H w Hw. eapply timers_wf_view; [apply H|exact Hw]. Qed.

(** One level of the script functions, so that a goal about a function is
    a goal about its body. *)
Ltac unfold_scripts :=
  unfold readBlendIds, writeBlendIds, fetchServerUnitMap,
    ensureServerUnitMapping, getBlendIdForUnit, readPayloadCache,
    writePayloadCache, mem_set, flushPayloadCache,
    collectFormData, transientUnitKey, saveTransientToMemory,
    attachAutosaveListenersOnce, dispatchInput, editEvent, clearFormForUnitUI,
    populateFormFromPayload, unwrapNestedFirst, unwrapShapeFirst, cacheLacks,
    backgroundFetch, prefetchOtherUnits, prefetchBody, setCurrentUnitFast,
    loadUnitData, saveToServer, runTask, runJob, setItem, alert.

(** Decomposes a [preserves] goal down to the primitive steps and closes
    their side conditions with [side]. *)
Ltac frame_with side :=
  repeat first
    [ frame_step
    | apply preserves_modify; solve [side]
    | apply preserves_fetch; solve [side]
    | apply preserves_setTimeout; solve [side]
    | apply preserves_clearTimeout; solve [side]
    | progress unfold_scripts
    | progress unfold debouncedTransientSave, schedulePersistPayloadCache ].

(** Side conditions for views that are projections of the world. *)
Ltac frame_side := intros; reflexivity.

Ltac frame := frame_with frame_side.

Section TimerInvariant.

Context (P : Platform).

Lemma In_filter_ne (id : nat) (e : nat * (nat * Task)) (ts : list (nat * (nat * Task))) :
  In e (List.filter (fun e' => negb (Nat.eqb (fst e') id)) ts)
  <-> In e ts /\ fst e <> id.
Proof.
  rewrite filter_In. split; intros [H1 H2]; split; auto.
  - apply negb_true_iff, Nat.eqb_neq in H2. exact H2.
  - apply negb_true_iff, Nat.eqb_neq. exact H2.
Qed.

Lemma NoDup_map_filter {A B} (f : A -> B) (p : A -> bool) (l : list A) :
  List.NoDup (map f l) -> List.NoDup (map f (List.filter p l)).
Proof.
  induction l as [|x l IH]; simpl; intros H; [constructor|].
  apply List.NoDup_cons_iff in H as [Hx Hl].
  destruct (p x); simpl; auto.
  apply List.NoDup_cons_iff. split; auto.
  intros Hin. apply Hx. apply in_map_iff in Hin as (y & Hy & Hin).
  apply in_map_iff. exists y. split; auto. apply filter_In in Hin. tauto.
Qed.

Lemma NoDup_snoc {A} (x : A) (l : list A) :
  ~ In x l -> List.NoDup l -> List.NoDup (l ++ [x]).
Proof.
  induction l as [|y l IH]; simpl; intros Hx Hl.
  - constructor; [intros []|constructor].
  - apply List.NoDup_cons_iff in Hl as [Hy Hl].
    apply List.NoDup_cons_iff. split.
    + intros Hin. apply in_app_or in Hin as [Hin|[->|[]]]; [auto|].
      apply Hx. now left.
    + apply IH; auto.
Qed.

Lemma fresh_not_in (ts : list (nat * (nat * Task))) (next : nat) :
  (forall e, In e ts -> (fst e < next)%nat) -> ~ In next (map fst ts).
Proof.
  intros H Hin. apply in_map_iff in Hin as (e & He & Hin).
  specialize (H e Hin). lia.
Qed.

(** One call of the debounced function keeps the queue well formed. *)
Lemma debouncedTransientSave_wf : keeps (timers_wf P) (debouncedTransientSave P).
Proof.
  intros w [H1 H2 H3 H4 H5 H7 H6].
  unfold debouncedTransientSave, clearTimeout, setTimeout. unfold_m.
  destruct (debounce_t P w) as [t|] eqn:Et; simpl.
  - split; simpl.
    + intros id Hid. destruct (H1 id Hid) as [d Hd]. exists d.
      apply in_or_app. left. apply In_filter_ne. split; [exact Hd|].
      simpl. intros ->. specialize (H3 _ _ eq_refl Hd eq_refl). discriminate.
    + intros e He. apply in_app_or in He as [He|[<-|[]]]; simpl; [|lia].
      apply In_filter_ne in He as [He _]. specialize (H2 e He). simpl in H2. lia.
    + intros id e [= <-] He Hid.
      apply in_app_or in He as [He|[<-|[]]]; [|reflexivity].
      apply In_filter_ne in He as [He _]. specialize (H2 e He). lia.
    + intros id [= <-]. lia.
    + intros e He Hd. apply in_app_or in He as [He|[<-|[]]]; [|reflexivity].
      apply In_filter_ne in He as [He Hne]. specialize (H5 e He Hd).
      congruence.
    + intros e He Hf. apply in_app_or in He as [He|[<-|[]]]; [|discriminate].
      apply In_filter_ne in He as [He _]. auto.
    + rewrite map_app. simpl. apply NoDup_snoc; [|now apply NoDup_map_filter].
      apply fresh_not_in. intros e He. apply In_filter_ne in He as [He _]. auto.
  - split; simpl.
    + intros id Hid. destruct (H1 id Hid) as [d Hd]. exists d.
      apply in_or_app. now left.
    + intros e He. apply in_app_or in He as [He|[<-|[]]]; simpl; [|lia].
      specialize (H2 e He). lia.
    + intros id e [= <-] He Hid.
      apply in_app_or in He as [He|[<-|[]]]; [|reflexivity].
      specialize (H2 e He). lia.
    + intros id [= <-]. lia.
    + intros e He Hd. apply in_app_or in He as [He|[<-|[]]]; [|reflexivity].
      specialize (H5 e He Hd). congruence.
    + intros e He Hf. apply in_app_or in He as [He|[<-|[]]]; [auto|discriminate].
    + rewrite map_app. simpl. apply NoDup_snoc; [|assumption].
      now apply fresh_not_in.
Qed.

Lemma schedulePersistPayloadCache_wf :
  keeps (timers_wf P) (schedulePersistPayloadCache P).
Proof.
  intros w Hw.
  unfold schedulePersistPayloadCache, setTimeout. unfold_m.
  destruct (deferredPayloadWriteTimer P w) as [t|] eqn:Et; simpl.
  - exact Hw.
  - destruct Hw as [H1 H2 H3 H4 H5 H7 H6]. split; simpl.
    + intros id [= <-]. exists (now P w + 300)%nat. apply in_or_app. right. now left.
    + intros e He. apply in_app_or in He as [He|[<-|[]]]; simpl; [|lia].
      specialize (H2 e He). lia.
    + intros id e Hid He Hfst.
      apply in_app_or in He as [He|[<-|[]]]; [eauto|].
      simpl in Hfst. specialize (H4 id Hid). lia.
    + intros id Hid. specialize (H4 id Hid). lia.
    + intros e He Hd. apply in_app_or in He as [He|[<-|[]]]; [auto|discriminate].
    + intros e He Hf. apply in_app_or in He as [He|[<-|[]]]; [|reflexivity].
      specialize (H7 e He Hf). congruence.
    + rewrite map_app. simpl. apply NoDup_snoc; [|assumption].
      now apply fresh_not_in.
Qed.

End TimerInvariant.

(** Decomposes a goal that a computation keeps the queue well formed: the
    two functions that set timers by the lemmas above, every other step
    because it leaves the timer variables alone. *)
Ltac wf_step :=
  match goal with
  | |- keeps _ (bind _ _) => apply keeps_bind; [|intros]
  | |- keeps _ (try_catch _ _) => apply keeps_try_catch; [|intros]
  | |- keeps _ (repeat_m _ _ _) => apply keeps_repeat_m
  | |- keeps _ (for_each _ _ _) => apply keeps_for_each; intros
  | |- keeps _ (debouncedTransientSave _) => apply debouncedTransientSave_wf
  | |- keeps _ (schedulePersistPayloadCache _) => apply schedulePersistPayloadCache_wf
  | |- keeps _ (if ?b then _ else _) => destruct b
  | |- keeps _ (match ?x with _ => _ end) => destruct x
  | |- keeps _ (let _ := _ in _) => cbv zeta
  | |- keeps _ (and_then _ _ _) => unfold and_then
  | |- keeps _ (or_else _ _ _) => unfold or_else
  end.

Ltac wf :=
  repeat first
    [ wf_step
    | progress unfold_scripts
    | apply preserves_keeps_wf; solve [frame] ].

Section TimerInvariantScripts.

Context (P : Platform).

Lemma populateFormFromPayload_wf (payload : jsval) :
  keeps (timers_wf P) (populateFormFromPayload P payload).
Proof. wf. Qed.

Lemma clearFormForUnitUI_wf : keeps (timers_wf P) (clearFormForUnitUI P).
Proof. wf. Qed.

Lemma saveTransientToMemory_wf : keeps (timers_wf P) (saveTransientToMemory P).
Proof. wf. Qed.

Lemma getBlendIdForUnit_timers (u : Z) :
  preserves (timer_state P) (getBlendIdForUnit P u).
Proof. frame. Qed.

Lemma backgroundFetch_wf (u : Z) : keeps (timers_wf P) (backgroundFetch P u).
Proof. wf. Qed.

Lemma prefetchBody_wf (current : Z) : keeps (timers_wf P) (prefetchBody P current).
Proof. wf. Qed.

Lemma loadUnitData_wf (u : Z) : keeps (timers_wf P) (loadUnitData P u).
Proof. wf. Qed.

Lemma saveToServer_wf : keeps (timers_wf P) (saveToServer P).
Proof. wf. Qed.

End TimerInvariantScripts.

(** ** Objects as maps *)

Lemma assoc_obj_replace (k : string) (x : jsval) (fs : list (string * jsval)) :
  assoc k fs <> None -> assoc k (obj_replace k x fs) = Some x.
Proof.
  induction fs as [|[k' v] fs IH]; simpl; [congruence|].
  destruct (String.eqb k k') eqn:E; simpl.
  - now rewrite String.eqb_refl.
  - rewrite E. exact IH.
Qed.

Lemma assoc_obj_insert_index (i : nat) (k : string) (x : jsval)
  (fs : list (string * jsval)) :
  assoc k fs = None -> assoc k (obj_insert_index i k x fs) = Some x.
Proof.
  induction fs as [|[k' v] fs IH]; simpl.
  - now rewrite String.eqb_refl.
  - destruct (String.eqb k k') eqn:E; [discriminate|]. intros H.
    destruct (index_of_key k') as [j|]; [destruct (i <? j)%nat|]; simpl;
      rewrite ?String.eqb_refl, ?E; auto.
Qed.

Lemma assoc_snoc (k : string) (x : jsval) (fs : list (string * jsval)) :
  assoc k fs = None -> assoc k (fs ++ [(k, x)]) = Some x.
Proof.
  induction fs as [|[k' v] fs IH]; simpl.
  - now rewrite String.eqb_refl.
  - destruct (String.eqb k k'); [discriminate|exact IH].
Qed.

(** Reading back what was just assigned. *)
Lemma field_obj_set (k : string) (x : jsval) (fs : list (string * jsval)) :
  field (obj_set k x fs) k = x.
Proof.
  unfold field, obj_set. destruct (assoc k fs) eqn:E.
  - rewrite assoc_obj_replace; [reflexivity|congruence].
  - destruct (index_of_key k).
    + now rewrite assoc_obj_insert_index.
    + now rewrite assoc_snoc.
Qed.

Lemma assoc_obj_replace_other (k k' : string) (x : jsval) (fs : list (string * jsval)) :
  k' <> k -> assoc k' (obj_replace k x fs) = assoc k' fs.
Proof.
  intros Hne. induction fs as [|[k0 v] fs IH]; simpl; [reflexivity|].
  destruct (String.eqb k k0) eqn:E; simpl.
  - apply String.eqb_eq in E. subst k0.
    destruct (String.eqb k' k) eqn:E'; [apply String.eqb_eq in E'; congruence|reflexivity].
  - destruct (String.eqb k' k0); [reflexivity|exact IH].
Qed.

Lemma assoc_obj_insert_index_other (i : nat) (k k' : string) (x : jsval)
  (fs : list (string * jsval)) :
  k' <> k -> assoc k' (obj_insert_index i k x fs) = assoc k' fs.
Proof.
  intros Hne.
  assert (Hk : String.eqb k' k = false) by now apply String.eqb_neq.
  induction fs as [|[k0 v] fs IH]; simpl.
  - now rewrite Hk.
  - destruct (index_of_key k0) as [j|]; [destruct (i <? j)%nat|]; simpl;
      rewrite ?Hk; try reflexivity.
    destruct (String.eqb k' k0); [reflexivity|exact IH].
Qed.

Lemma assoc_snoc_other (k k' : string) (x : jsval) (fs : list (string * jsval)) :
  k' <> k -> assoc k' (fs ++ [(k, x)]) = assoc k' fs.
Proof.
  intros Hne.
  assert (Hk : String.eqb k' k = false) by now apply String.eqb_neq.
  induction fs as [|[k0 v] fs IH]; simpl.
  - now rewrite Hk.
  - destruct (String.eqb k' k0); [reflexivity|exact IH].
Qed.

(** Assigning one key leaves the others as they were. *)
Lemma field_obj_set_other (k k' : string) (x : jsval) (fs : list (string * jsval)) :
  k' <> k -> field (obj_set k x fs) k' = field fs k'.
Proof.
  intros Hne. unfold field, obj_set. destruct (assoc k fs) eqn:E.
  - now rewrite assoc_obj_replace_other.
  - destruct (index_of_key k).
    + now rewrite assoc_obj_insert_index_other.
    + now rewrite assoc_snoc_other.
Qed.

(** ** Reconciliation with the remote tier *)

(** The calls of the two form-filling functions among the events of a
    log. *)
Definition ui_events (l : list Event) : list Event :=
  List.filter (fun e => match e with EvPopulate _ | EvClear => true | _ => false end) l.

(** [d.payload || d.data || d], as a value; [None] where reading throws. *)
Definition nested_first (d : jsval) : option jsval :=
  match getProp d "payload" with
  | Some p1 =>
      if truthy p1 then Some p1
      else match getProp d "data" with
           | Some p2 => Some (jor p2 d)
           | None => None
           end
  | None => None
  end.

(** A deferred write of the payload cache is pending in the queue. *)
Definition flush_pending (P : Platform) (w : World P) : Prop :=
  exists id d, deferredPayloadWriteTimer P w = Some id
               /\ In (id, (d, TFlush)) (timers P w).

Ltac log_side :=
  intros; simpl; unfold ui_events; rewrite ?List.filter_app; simpl;
  rewrite ?app_nil_r; reflexivity.

Section Reconciliation.

Context (P : Platform).

Lemma unwrapNestedFirst_value (d : jsval) (w : World P) :
  unwrapNestedFirst P d w =
  match nested_first d with
  | Some p => (Return p, w)
  | None => (Throw TypeError, w)
  end.
Proof.
  unfold unwrapNestedFirst, nested_first. unfold_m.
  destruct (getProp d "payload") as [p1|]; [|reflexivity].
  destruct (truthy p1); [reflexivity|].
  destruct (getProp d "data"); reflexivity.
Qed.

Lemma populateFormFromPayload_returns (payload : jsval) (w : World P) :
  fst (populateFormFromPayload P payload w) = Return tt.
Proof.
  unfold populateFormFromPayload. unfold bind at 1. unfold modify at 1.
  unfold try_catch. destruct (_ (emit P _ w)) as [[[]|e] w']; reflexivity.
Qed.

Lemma clearFormForUnitUI_ui (w : World P) :
  ui_events (log P (snd (clearFormForUnitUI P w))) = ui_events (log P w) ++ [EvClear].
Proof.
  unfold clearFormForUnitUI. unfold bind at 1. unfold modify at 1.
  match goal with
  | |- ui_events (log P (snd (?m ?w0))) = _ =>
      assert (H : preserves (fun w => ui_events (log P w)) m)
        by (frame_with log_side);
      rewrite (H w0)
  end.
  simpl. unfold ui_events. rewrite List.filter_app. reflexivity.
Qed.

Lemma populateFormFromPayload_ui (payload : jsval) (w : World P) :
  ui_events (log P (snd (populateFormFromPayload P payload w)))
  = ui_events (log P w)
    ++ EvPopulate payload :: (if truthy payload then [] else [EvClear]).
Proof.
  unfold populateFormFromPayload. unfold bind at 1. unfold modify at 1.
  destruct (truthy payload) eqn:Et; simpl negb; cbv iota.
  - match goal with
    | |- ui_events (log P (snd (?m ?w0))) = _ =>
        assert (H : preserves (fun w => ui_events (log P w)) m)
          by (frame_with log_side);
        rewrite (H w0)
    end.
    simpl. unfold ui_events. rewrite List.filter_app. reflexivity.
  - unfold try_catch.
    pose proof (clearFormForUnitUI_ui (emit P (EvPopulate payload) w)) as H.
    destruct (clearFormForUnitUI P _) as [[[]|x] w']; simpl in *;
      rewrite H; unfold ui_events; rewrite !List.filter_app; simpl;
      rewrite <- app_assoc; reflexivity.
Qed.

Lemma populateFormFromPayload_mem (payload : jsval) :
  preserves (inMemoryPayloadCache P) (populateFormFromPayload P payload).
Proof. frame. Qed.

Lemma schedulePersistPayloadCache_mem :
  preserves (inMemoryPayloadCache P) (schedulePersistPayloadCache P).
Proof. unfold schedulePersistPayloadCache. frame. Qed.

Lemma schedulePersistPayloadCache_ui :
  preserves (fun w => ui_events (log P w)) (schedulePersistPayloadCache P).
Proof. unfold schedulePersistPayloadCache. frame_with log_side. Qed.

Lemma schedulePersistPayloadCache_returns (w : World P) :
  fst (schedulePersistPayloadCache P w) = Return tt.
Proof.
  unfold schedulePersistPayloadCache. unfold_m.
  destruct (deferredPayloadWriteTimer P w); reflexivity.
Qed.

(** After a call of [schedulePersistPayloadCache] a deferred write is
    pending. *)
Lemma schedulePersistPayloadCache_pending (w : World P) :
  timers_wf P w -> flush_pending P (snd (schedulePersistPayloadCache P w)).
Proof.
  intros Hw. unfold schedulePersistPayloadCache, setTimeout, flush_pending. unfold_m.
  destruct (deferredPayloadWriteTimer P w) as [t|] eqn:Et; simpl.
  - destruct (wf_flush P w Hw t Et) as [d Hd]. eauto.
  - exists (nextTimer P w), (now P w + 300)%nat. split; [reflexivity|].
    apply in_or_app. right. now left.
Qed.

End Reconciliation.

Section ReconciliationResolver.

Context (P : Platform).

Lemma getBlendIdForUnit_mem (u : Z) :
  preserves (inMemoryPayloadCache P) (getBlendIdForUnit P u).
Proof. frame. Qed.

Lemma getBlendIdForUnit_form (u : Z) :
  preserves (form P) (getBlendIdForUnit P u).
Proof. frame. Qed.

Lemma getBlendIdForUnit_ui (u : Z) :
  preserves (fun w => ui_events (log P w)) (getBlendIdForUnit P u).
Proof. frame_with log_side. Qed.

Lemma requested_ui (r : Request) (n : Net P) (w : World P) :
  ui_events (log P (requested P r n w)) = ui_events (log P w).
Proof. log_side. Qed.

End ReconciliationResolver.


Lemma fresh_timers_wf (fields : list (string * jsval)) (script : list Reply) :
  timers_wf Reference.platform (Reference.fresh fields script).
Proof.
  split; simpl; try discriminate; try (intros ? []); try (intros ? ? ? []).
  constructor.
Qed.

(** Evaluates [t] on the virtual machine and records the result as [H]. *)
Ltac evaluate H t :=
  let v := eval vm_compute in t in
  assert (H : t = v) by (vm_cast_no_check (@eq_refl _ v)).

(** Replaces [t] in [H] by its value. *)
Ltac evaluate_in H t :=
  let v := eval vm_compute in t in
  replace t with v in H by (symmetry; vm_cast_no_check (@eq_refl _ v)).


(** ** Unwrapping a record of the remote tier *)

(** The response has the shape of a payload:
    [data.rows || data.flows || data.clientBunkers]. *)
Definition has_shape (data : jsval) : bool :=
  truthy (entry data "rows") || truthy (entry data "flows")
  || truthy (entry data "clientBunkers").

(** The unwrapping the specification describes: the top-level object when
    it has the shape of a payload, else a nested [payload] or [data]
    field when there is one, else the object itself. *)
Definition unwrap_as_specified (data : jsval) : jsval :=
  if has_shape data then data
  else jor (entry data "payload") (jor (entry data "data") data).

(** [unwrapShapeFirst] as a value. *)
Definition shape_first (data : jsval) : jsval :=
  if truthy data then
    if has_shape data then data
    else if truthy (entry data "data") then entry data "data" else data
  else data.

Lemma unwrapShapeFirst_value (P : Platform) (data : jsval) (w : World P) :
  unwrapShapeFirst P data w = (Return (shape_first data), w).
Proof.
  unfold unwrapShapeFirst, shape_first, has_shape. unfold_m.
  destruct (truthy data) eqn:Ed; [|now rewrite Ed].
  rewrite !(getProp_truthy _ _ Ed).
  destruct (truthy (entry data "rows")) eqn:E1;
    destruct (truthy (entry data "flows")) eqn:E2;
    destruct (truthy (entry data "clientBunkers")) eqn:E3;
    destruct (truthy (entry data "data")) eqn:E4;
    simpl; rewrite ?E1, ?E2, ?E3, ?E4; reflexivity.
Qed.

(** C6. The two reads of a remote record do not unwrap alike, and neither
    unwraps as specified.  On a response that has the shape of a payload
    and also carries a [payload] field, the background reconciliation
    takes the nested field where the specification (and [loadUnitData])
    take the response itself; on a response that wraps the payload under
    [payload] next to an [id], [loadUnitData] takes the wrapper where the
    specification (and the background reconciliation) take the nested
    payload.  Both show in what the two functions leave in the memory
    tier. *)
Theorem unwrap_paths_diverge :
  let nested := JObj [("rows", JArr [JNum 2])] in
  let shaped := JObj [("rows", JArr [JNum 1]); ("payload", nested)] in
  let wrapped := JObj [("id", JStr "abc123"); ("payload", nested)] in
  let mapping := JObj [("1", JStr "abc123")] in
  let after (run : M Reference.platform unit) (response : jsval) :=
    field (inMemoryPayloadCache Reference.platform
             (exec Reference.platform run
                (Reference.fresh []
                   [Response true (Some mapping); Response true (Some response)])))
          "1" in
  (unwrap_as_specified shaped = shaped
   /\ nested_first shaped = Some nested
   /\ shape_first shaped = shaped
   /\ after (backgroundFetch Reference.platform 1) shaped = nested
   /\ after (loadUnitData Reference.platform 1 ;;; ret tt) shaped = shaped)
  /\ (unwrap_as_specified wrapped = nested
      /\ nested_first wrapped = Some nested
      /\ shape_first wrapped = wrapped
      /\ after (backgroundFetch Reference.platform 1) wrapped = nested
      /\ after (loadUnitData Reference.platform 1 ;;; ret tt) wrapped = wrapped).
Proof. repeat split; vm_compute; reflexivity. Qed.

(** ** The autosave capture *)

Section Capture.

Context (P : Platform).

(** The colour map [collectFormData] reads back from the store. *)
Definition stored_colors (w : World P) : jsval :=
  match localStorage P w !! "__coalColorMap_v2" with
  | Some raw =>
      if String.eqb raw "" then JObj []
      else match JSON_parse P raw with
           | Some v => v
           | None => JObj []
           end
  | None => JObj []
  end.

(** The payload [collectFormData] builds from the page as it stands. *)
Definition collected (w : World P) : jsval :=
  JObj [ ("rows", dom_rows P (form P w));
         ("flows", dom_flows P (form P w));
         ("generation", dom_generation P (form P w));
         ("ts", JNum (Z.of_nat (now P w)));
         ("bunkerCapacity", dom_bunkerCapacity P (form P w));
         ("bunkerCapacities", dom_bunkerCapacities P (form P w));
         ("coalColorMap", stored_colors w);
         ("clientBunkers", dom_clientBunkers P (form P w) (stored_colors w)) ].

Lemma collectFormData_value (w : World P) :
  collectFormData P w = (Return (collected w), w).
Proof.
  unfold collectFormData, collected, stored_colors. unfold_m.
  destruct (localStorage P w !! "__coalColorMap_v2") as [raw|]; [|reflexivity].
  destruct (String.eqb raw ""); [reflexivity|].
  destruct (JSON_parse P raw); reflexivity.
Qed.

(** The key under which [saveTransientToMemory] files the capture. *)
Definition transient_key (w : World P) : string :=
  match fst (transientUnitKey P w) with
  | Return k => k
  | Throw _ => "1"
  end.

Lemma transientUnitKey_value (w : World P) :
  transientUnitKey P w = (Return (transient_key w), w).
Proof.
  unfold transient_key, transientUnitKey. unfold_m.
  destruct (currentUnit P w =? 0); simpl; [|reflexivity].
  destruct (localStorage P w !! "currentUnit") as [s|]; [|reflexivity].
  destruct (String.eqb s ""); [reflexivity|].
  destruct (Number_of_string s); reflexivity.
Qed.

Lemma transient_key_active (w : World P) :
  currentUnit P w <> 0 -> transient_key w = String_of_Z (currentUnit P w).
Proof.
  intros H. unfold transient_key, transientUnitKey. unfold_m.
  apply Z.eqb_neq in H. now rewrite H.
Qed.

(** The world right after the capture is filed, before the deferred write
    is scheduled. *)
Definition captured_world (w : World P) : World P :=
  emit P (EvCapture (transient_key w) (collected w))
    (set_inMemoryPayloadCache P
       (obj_set (transient_key w) (collected w) (inMemoryPayloadCache P w)) w).

Lemma saveTransientToMemory_value (w : World P) :
  saveTransientToMemory P w
  = (Return tt, snd (schedulePersistPayloadCache P (captured_world w))).
Proof.
  unfold saveTransientToMemory.
  pose proof (schedulePersistPayloadCache_returns P (captured_world w)) as Hs.
  destruct (schedulePersistPayloadCache P (captured_world w)) as [[[]|e] ws] eqn:Es;
    [|discriminate].
  erewrite try_catch_Return; [reflexivity|].
  erewrite bind_Return by apply transientUnitKey_value.
  erewrite bind_Return by apply collectFormData_value.
  erewrite bind_Return by reflexivity.
  erewrite bind_Return by reflexivity.
  exact Es.
Qed.

Lemma saveTransientToMemory_returns (w : World P) :
  saveTransientToMemory P w = (Return tt, snd (saveTransientToMemory P w)).
Proof. now rewrite saveTransientToMemory_value. Qed.

Lemma saveTransientToMemory_slot (w : World P) :
  field (inMemoryPayloadCache P (snd (saveTransientToMemory P w))) (transient_key w)
  = collected w.
Proof.
  rewrite saveTransientToMemory_value. simpl.
  rewrite schedulePersistPayloadCache_mem. simpl. apply field_obj_set.
Qed.

End Capture.

(** ** Views across a sequence *)

Section After.

Context {P : Platform} {X : Type} (view : World P -> X).

Lemma view_after_bind {A B} (m : M P A) (k : A -> M P B) (w w' : World P) (a : A) :
  m w = (Return a, w') -> preserves view (k a) ->
  view (snd (bind m k w)) = view w'.
Proof. intros Hm Hk. rewrite (bind_Return _ _ _ _ _ Hm). apply Hk. Qed.

Lemma view_try_catch {A} (m : M P A) (h : Exn -> M P A) (w : World P) :
  (forall e, preserves view (h e)) ->
  view (snd (try_catch m h w)) = view (snd (m w)).
Proof.
  intros Hh. unfold try_catch. destruct (m w) as [[a|e] w']; simpl; [reflexivity|].
  apply Hh.
Qed.

End After.

(** ** The unit switch *)

Lemma Number_of_String_of_Z (z : Z) : Number_of_string (String_of_Z z) = Some z.
Proof.
  unfold Number_of_string, String_of_Z.
  rewrite NilZero.isi.
  - now rewrite DecimalZ.of_to.
  - destruct z; simpl; try discriminate.
    intros [= H]. now apply DecimalPos.Unsigned.to_uint_nonnil in H.
  - destruct z; simpl; try discriminate.
    intros [= H]. now apply DecimalPos.Unsigned.to_uint_nonnil in H.
Qed.

Lemma String_of_Z_inj (a b : Z) : String_of_Z a = String_of_Z b -> a = b.
Proof.
  intros H. apply (f_equal Number_of_string) in H.
  rewrite !Number_of_String_of_Z in H. congruence.
Qed.

Lemma clampUnit_unit (u : Z) : 1 <= u <= 3 -> clampUnit u = u.
Proof.
  intros H. unfold clampUnit, zor.
  destruct (u =? 0) eqn:E0; [apply Z.eqb_eq in E0; lia|].
  destruct (u <? 1) eqn:E1; [apply Z.ltb_lt in E1; lia|].
  destruct (u >? 3) eqn:E3; [|reflexivity].
  apply Z.gtb_lt in E3. lia.
Qed.

Ltac requests_side :=
  intros; simpl; rewrite ?requests_app; simpl; rewrite ?app_nil_r; reflexivity.

Ltac slot_side :=
  first [ frame_side
        | intros; simpl; apply field_obj_set_other; assumption ].

Section Switch.

Context (P : Platform).

(** A switch makes no request and leaves the network alone. *)
Lemma setCurrentUnitFast_offline (u : Z) :
  preserves (fun w => (requests (log P w), net P w)) (setCurrentUnitFast P u).
Proof.
  frame_with ltac:(intros; simpl; rewrite ?requests_app; simpl;
                   rewrite ?app_nil_r; reflexivity).
Qed.

Lemma saveTransientToMemory_ui :
  preserves (fun w => ui_events (log P w)) (saveTransientToMemory P).
Proof. frame_with log_side. Qed.

Lemma saveTransientToMemory_currentUnit :
  preserves (currentUnit P) (saveTransientToMemory P).
Proof. frame. Qed.

(** The flush of the first step files the capture of the page under the
    unit that was active; the rest of the switch leaves every other slot
    of the memory tier alone. *)
Lemma setCurrentUnitFast_slot (u : Z) (k : string) (w : World P) :
  1 <= u <= 3 -> k <> String_of_Z u ->
  field (inMemoryPayloadCache P (exec P (setCurrentUnitFast P u) w)) k
  = field (inMemoryPayloadCache P (snd (saveTransientToMemory P w))) k.
Proof.
  intros Hu Hk. unfold exec, setCurrentUnitFast.
  rewrite (clampUnit_unit u Hu).
  rewrite (view_try_catch (fun w => field (inMemoryPayloadCache P w) k))
    by (intros e w0; reflexivity).
  eapply (view_after_bind (fun w => field (inMemoryPayloadCache P w) k)).
  - apply try_catch_Return. apply saveTransientToMemory_returns.
  - cbv zeta. frame_with slot_side.
Qed.

Lemma setCurrentUnitFast_currentUnit (u : Z) (w : World P) :
  currentUnit P (exec P (setCurrentUnitFast P u) w) = clampUnit u.
Proof.
  unfold exec, setCurrentUnitFast.
  rewrite (view_try_catch (currentUnit P)) by (intros e w0; reflexivity).
  erewrite bind_Return
    by (apply try_catch_Return; apply saveTransientToMemory_returns).
  cbv zeta.
  erewrite (view_after_bind (currentUnit P)); cycle 1.
  - reflexivity.
  - frame.
  - reflexivity.
Qed.

(** When the memory tier holds a truthy entry for the target once the
    flush is done, the switch renders from that entry and from nothing
    else. *)
Lemma setCurrentUnitFast_renders_cached (u : Z) (w : World P) :
  let flushed := snd (saveTransientToMemory P w) in
  let entry := field (inMemoryPayloadCache P flushed) (String_of_Z (clampUnit u)) in
  truthy entry = true ->
  ui_events (log P (exec P (setCurrentUnitFast P u) w))
  = ui_events (log P w) ++ [EvPopulate entry].
Proof.
  intros flushed entry Ht. unfold exec, setCurrentUnitFast.
  rewrite (view_try_catch (fun w => ui_events (log P w)))
    by (intros e w0; reflexivity).
  erewrite bind_Return
    by (apply try_catch_Return; apply saveTransientToMemory_returns).
  fold flushed. cbv zeta.
  erewrite bind_Return by reflexivity.
  erewrite bind_Return by reflexivity.
  erewrite bind_Return by reflexivity.
  erewrite bind_Return by reflexivity.
  match goal with
  | |- context [truthy (field ?m ?k)] =>
      change (field m k) with entry
  end.
  rewrite Ht.
  match goal with
  | |- ui_events (log P (snd (bind (bind _ (fun again => populateFormFromPayload P again)) ?k ?w0))) = _ =>
      pose proof (populateFormFromPayload_returns P entry w0) as Hp;
      pose proof (populateFormFromPayload_ui P entry w0) as Hu;
      destruct (populateFormFromPayload P entry w0) as [[[]|e] wp] eqn:Ep;
        [|discriminate];
      erewrite (view_after_bind (fun w => ui_events (log P w)) _ k w0 wp tt)
  end.
  - cbn [snd] in Hu. rewrite Hu, Ht. f_equal.
    transitivity (ui_events (log P flushed)); [log_side|].
    apply saveTransientToMemory_ui.
  - erewrite bind_Return by reflexivity. exact Ep.
  - frame_with log_side.
Qed.

Lemma setCurrentUnitFast_keeps_cached (u : Z) (w : World P) :
  let flushed := snd (saveTransientToMemory P w) in
  let entry := field (inMemoryPayloadCache P flushed) (String_of_Z (clampUnit u)) in
  truthy entry = true ->
  inMemoryPayloadCache P (exec P (setCurrentUnitFast P u) w)
  = inMemoryPayloadCache P flushed.
Proof.
  intros flushed entry Ht. unfold exec, setCurrentUnitFast.
  rewrite (view_try_catch (inMemoryPayloadCache P))
    by (intros e w0; reflexivity).
  erewrite bind_Return
    by (apply try_catch_Return; apply saveTransientToMemory_returns).
  fold flushed. cbv zeta.
  erewrite bind_Return by reflexivity.
  erewrite bind_Return by reflexivity.
  erewrite bind_Return by reflexivity.
  erewrite bind_Return by reflexivity.
  match goal with
  | |- context [truthy (field ?m ?k)] =>
      change (field m k) with entry
  end.
  rewrite Ht.
  match goal with
  | |- inMemoryPayloadCache P (snd (?m ?w0)) = _ =>
      assert (H : preserves (inMemoryPayloadCache P) m) by frame;
      rewrite (H w0)
  end.
  reflexivity.
Qed.

(** The flush of a switch leaves the slots of the other units alone. *)
Lemma saveTransientToMemory_other_slot (k : string) (w : World P) :
  k <> transient_key P w ->
  field (inMemoryPayloadCache P (snd (saveTransientToMemory P w))) k
  = field (inMemoryPayloadCache P w) k.
Proof.
  intros Hk. rewrite saveTransientToMemory_value. cbn [snd].
  rewrite schedulePersistPayloadCache_mem. simpl.
  now apply field_obj_set_other.
Qed.

End Switch.



(** ** The log only grows *)

Section Grows.

Context {P : Platform}.

(** [w'] has the events of [w] and possibly more after them. *)
Definition log_extends (w w' : World P) : Prop :=
  exists evs, log P w' = log P w ++ evs.

Lemma log_extends_refl (w : World P) : log_extends w w.
Proof. exists []. now rewrite app_nil_r. Qed.

Lemma log_extends_trans (w1 w2 w3 : World P) :
  log_extends w1 w2 -> log_extends w2 w3 -> log_extends w1 w3.
Proof.
  intros [e1 H1] [e2 H2]. exists (e1 ++ e2). now rewrite H2, H1, app_assoc.
Qed.

(** Every run of [m] only appends to the log. *)
Definition grows {A} (m : M P A) : Prop := forall w, log_extends w (snd (m w)).

Lemma grows_pure {A} (m : M P A) : (forall w, snd (m w) = w) -> grows m.
Proof. intros H w. rewrite H. apply log_extends_refl. Qed.

Lemma grows_modify (f : World P -> World P) :
  (forall w, log_extends w (f w)) -> grows (modify f).
Proof. intros H w. apply H. Qed.

Lemma grows_bind {A B} (m : M P A) (k : A -> M P B) :
  grows m -> (forall a, grows (k a)) -> grows (bind m k).
Proof.
  intros Hm Hk w. unfold bind. specialize (Hm w).
  destruct (m w) as [[a|e] w']; simpl in *; [|assumption].
  eapply log_extends_trans; [exact Hm|apply Hk].
Qed.

Lemma grows_try_catch {A} (m : M P A) (h : Exn -> M P A) :
  grows m -> (forall e, grows (h e)) -> grows (try_catch m h).
Proof.
  intros Hm Hh w. unfold try_catch. specialize (Hm w).
  destruct (m w) as [[a|e] w']; simpl in *; [assumption|].
  eapply log_extends_trans; [exact Hm|apply Hh].
Qed.

Lemma grows_repeat_m (n : nat) (m : M P unit) : grows m -> grows (repeat_m P n m).
Proof.
  intros Hm. induction n as [|n IH]; simpl.
  - apply grows_pure. reflexivity.
  - apply grows_bind; auto.
Qed.

Lemma grows_for_each {A} (l : list A) (body : A -> M P unit) :
  (forall x, grows (body x)) -> grows (for_each P l body).
Proof.
  intros Hb. induction l as [|x l IH]; simpl.
  - apply grows_pure. reflexivity.
  - apply grows_bind; auto.
Qed.

Lemma grows_fetch (r : Request) : grows (fetch P r).
Proof.
  intros w. unfold fetch. destruct (serve P r _) as [[|ok body] n];
    exists [EvFetch r]; reflexivity.
Qed.

Lemma grows_prop (v : jsval) (k : string) : grows (prop P v k).
Proof. apply grows_pure. intros w. unfold prop. destruct (getProp v k); reflexivity. Qed.

Lemma grows_assign (v : jsval) (k : string) (x : jsval) : grows (assign P v k x).
Proof. apply grows_pure. intros w. unfold assign. destruct (setProp v k x); reflexivity. Qed.

Lemma grows_res_json (res : bool * option jsval) : grows (res_json P res).
Proof. apply grows_pure. intros w. unfold res_json. destruct (snd res); reflexivity. Qed.

Lemma grows_JSON_parse_m (s : string) : grows (JSON_parse_m P s).
Proof. apply grows_pure. intros w. unfold JSON_parse_m. destruct (JSON_parse P s); reflexivity. Qed.

Lemma grows_clearTimeout (t : option nat) : grows (clearTimeout P t).
Proof.
  intros w. unfold clearTimeout, modify.
  destruct t; exists []; simpl; now rewrite app_nil_r.
Qed.

Lemma grows_setTimeout (task : Task) (d : nat) : grows (setTimeout P task d).
Proof. intros w. exists []. simpl. now rewrite app_nil_r. Qed.

End Grows.

Ltac grows_step :=
  match goal with
  | |- grows (bind _ _) => apply grows_bind; [|intros]
  | |- grows (try_catch _ _) => apply grows_try_catch; [|intros]
  | |- grows (repeat_m _ _ _) => apply grows_repeat_m
  | |- grows (for_each _ _ _) => apply grows_for_each; intros
  | |- grows (fetch _ _) => apply grows_fetch
  | |- grows (prop _ _ _) => apply grows_prop
  | |- grows (assign _ _ _ _) => apply grows_assign
  | |- grows (res_json _ _) => apply grows_res_json
  | |- grows (JSON_parse_m _ _) => apply grows_JSON_parse_m
  | |- grows (clearTimeout _ _) => apply grows_clearTimeout
  | |- grows (setTimeout _ _ _) => apply grows_setTimeout
  | |- grows (ret _) => apply grows_pure; reflexivity
  | |- grows (throw _) => apply grows_pure; reflexivity
  | |- grows (gets _) => apply grows_pure; reflexivity
  | |- grows (getItem _ _) => apply grows_pure; reflexivity
  | |- grows (mem_get _ _) => apply grows_pure; reflexivity
  | |- grows (ignore _ _ _) => apply grows_pure; reflexivity
  | |- grows (and_then _ _ _) => unfold and_then
  | |- grows (or_else _ _ _) => unfold or_else
  | |- grows (modify _) =>
      apply grows_modify; intros;
      first [ exists []; simpl; rewrite app_nil_r; reflexivity
            | eexists; reflexivity ]
  | |- grows (if ?b then _ else _) => destruct b
  | |- grows (match ?x with _ => _ end) => destruct x
  | |- grows (let _ := _ in _) => cbv zeta
  end.

Ltac grows_tac :=
  repeat first
    [ grows_step
    | progress unfold_scripts
    | progress unfold debouncedTransientSave, schedulePersistPayloadCache ].

Lemma requests_extends {P : Platform} (w w' : World P) :
  log_extends w w' -> exists rest, requests (log P w') = requests (log P w) ++ rest.
Proof. intros [evs ->]. exists (requests evs). apply requests_app. Qed.

(** ** The explicit save *)

(** The texts written under the fallback-map key, in order. *)
Definition blend_writes (l : list Event) : list string :=
  flat_map (fun e => match e with
                     | EvSetItem k v => if String.eqb k BLEND_IDS_KEY then [v] else []
                     | _ => []
                     end) l.

(** [data.id || data._id || null]. *)
Definition returned_id (data : jsval) : jsval :=
  jor (jor (entry data "id") (entry data "_id")) JNull.

Lemma blend_writes_app (l1 l2 : list Event) :
  blend_writes (l1 ++ l2) = blend_writes l1 ++ blend_writes l2.
Proof. unfold blend_writes. apply flat_map_app. Qed.

Ltac save_side :=
  intros; simpl; rewrite ?requests_app, ?blend_writes_app; simpl;
  rewrite ?app_nil_r; reflexivity.

Section Save.

Context (P : Platform).

(** What the save leaves of the mapping: the remote map in memory, the
    active unit, the requests made and the fallback maps written. *)
Definition mapping_view (w : World P) :=
  (serverUnitMap P w, currentUnit P w, requests (log P w), blend_writes (log P w)).

Lemma log_after_fetch {A} (r : Request) (k : bool * option jsval -> M P A)
  (w : World P) :
  (forall a, grows (k a)) ->
  exists evs, log P (snd (bind (fetch P r) k w)) = log P w ++ EvFetch r :: evs.
Proof.
  intros Hk. unfold bind, fetch.
  destruct (serve P r _) as [[|ok body] n]; simpl.
  - exists []. reflexivity.
  - destruct (Hk (ok, body) (set_net P n (emit P (EvFetch r) w))) as [evs He].
    exists evs. rewrite He. simpl. now rewrite <- app_assoc.
Qed.

Lemma log_try_catch {A} (m : M P A) (h : Exn -> M P A) (w : World P) :
  (forall e, grows (h e)) ->
  log_extends (snd (m w)) (snd (try_catch m h w)).
Proof.
  intros Hh. unfold try_catch. destruct (m w) as [[a|e] w']; simpl.
  - apply log_extends_refl.
  - apply Hh.
Qed.

(** The request of the save: an update of the resolved record, or a
    create. *)
Definition save_request (w : World P) (idForUnit : jsval) : Request :=
  if truthy idForUnit
  then mkRequest PUT ("/blend/" +:+ ToString idForUnit)
         (Some (JSON_stringify P (collected P w)))
  else mkRequest POST "/blend" (Some (JSON_stringify P (collected P w))).

Lemma saveToServer_method (w w1 : World P) (idForUnit : jsval) :
  getBlendIdForUnit P (zor (currentUnit P w) 1) w = (Return idForUnit, w1) ->
  exists rest,
    requests (log P (exec P (saveToServer P) w))
    = requests (log P w1) ++ save_request w idForUnit :: rest.
Proof.
  intros Hid. unfold exec, saveToServer.
  match goal with
  | |- context [try_catch ?m ?h w] =>
      destruct (log_try_catch m h w) as [evs2 He2];
        [intros; grows_tac|]
  end.
  rewrite He2. clear He2.
  erewrite bind_Return by apply collectFormData_value.
  erewrite bind_Return by apply readBlendIds_value.
  erewrite bind_Return by reflexivity.
  cbv zeta.
  erewrite bind_Return by exact Hid.
  fold (save_request w idForUnit).
  match goal with
  | |- context [bind (fetch P ?r) ?k w1] =>
      destruct (log_after_fetch r k w1) as [evs1 He1]; [intros; grows_tac|]
  end.
  rewrite He1. exists (requests evs1 ++ requests evs2).
  rewrite !requests_app. simpl. now rewrite <- app_assoc.
Qed.

Lemma entry_readable (data : jsval) (k k' : string) :
  truthy (entry data k) = true -> getProp data k' = Some (entry data k').
Proof.
  unfold entry. destruct data; simpl; try discriminate; reflexivity.
Qed.

Lemma returned_id_readable (data : jsval) (k : string) :
  truthy (returned_id data) = true -> getProp data k = Some (entry data k).
Proof.
  unfold returned_id, jor.
  destruct (truthy (entry data "id")) eqn:E1.
  - intros _. now apply (entry_readable data "id").
  - destruct (truthy (entry data "_id")) eqn:E2.
    + intros _. now apply (entry_readable data "_id").
    + rewrite ?E2. discriminate.
Qed.

Lemma or_else_prop (i1 data : jsval) (k : string) (w : World P) :
  getProp data k = Some (entry data k) ->
  or_else P i1 (prop P data k) w = (Return (jor i1 (entry data k)), w).
Proof.
  intros H. unfold or_else, prop, jor. rewrite H.
  destruct (truthy i1); reflexivity.
Qed.

Lemma saveToServer_tail_view (data payload : jsval) (key : string) :
  preserves mapping_view
    (try_catch
       (cache <- readPayloadCache P ;;
        s1 <- prop P data "payload" ;;
        s2 <- or_else P s1 (prop P data "data") ;;
        let serverPayload := jor s2 JNull in
        cache' <- assign P cache key (jor serverPayload payload) ;;
        writePayloadCache P cache' ;;;
        stored <- prop P cache' key ;;
        mem_set P key stored)
       (ignore P tt) ;;;
     alert P AlertSaved).
Proof. unfold mapping_view. frame_with save_side. Qed.

Lemma saveToServer_create (w w1 : World P) (idForUnit data ids' map : jsval)
  (n2 n3 n4 : Net P) (okp : bool) (bodyp : option jsval) :
  let unit := zor (currentUnit P w) 1 in
  let key := String_of_Z unit in
  let rid := returned_id data in
  let link := mkRequest PUT ("/units/" +:+ key)
                (Some (JSON_stringify P (JObj [("blendId", rid)]))) in
  getBlendIdForUnit P unit w = (Return idForUnit, w1) ->
  truthy idForUnit = false ->
  serve P (save_request w idForUnit) (net P w1) = (Response true (Some data), n2) ->
  truthy rid = true ->
  setProp (stored_json P w BLEND_IDS_KEY) key rid = Some ids' ->
  serve P link n2 = (Response okp bodyp, n3) ->
  serve P reqUnits n3 = (Response true (Some map), n4) ->
  entry map key = rid ->
  let w' := exec P (saveToServer P) w in
  requests (log P w')
  = requests (log P w1) ++ [save_request w idForUnit; link; reqUnits]
  /\ blend_writes (log P w')
     = blend_writes (log P w1) ++ [JSON_stringify P ids'; JSON_stringify P map]
  /\ serverUnitMap P w' = map
  /\ getBlendIdForUnit P unit w' = (Return rid, w').
Proof.
  intros unit key rid link Hid Hfalsy Hpost Hrid Hids Hlink Hget Hentry w'.
  assert (Hcur1 : currentUnit P w1 = currentUnit P w).
  { assert (H : preserves (currentUnit P) (getBlendIdForUnit P unit)) by frame.
    specialize (H w). now rewrite Hid in H. }
  assert (Hmap : truthy map = true).
  { destruct (truthy map) eqn:E; [reflexivity|].
    pose proof (has_entry_falsy map key E) as H. unfold has_entry in H.
    unfold entry in Hentry. destruct (getProp map key) as [x|].
    - subst x. congruence.
    - subst rid. rewrite <- Hentry in Hrid. discriminate. }
  assert (V : mapping_view w'
              = (map, currentUnit P w,
                 requests (log P w1) ++ [save_request w idForUnit; link; reqUnits],
                 blend_writes (log P w1)
                   ++ [JSON_stringify P ids'; JSON_stringify P map])).
  { subst w'. unfold exec, saveToServer.
    rewrite (view_try_catch mapping_view)
      by (intros e; unfold mapping_view; frame_with save_side).
    erewrite bind_Return by apply collectFormData_value.
    erewrite bind_Return by apply readBlendIds_value.
    erewrite bind_Return by reflexivity.
    cbv zeta. fold unit. fold key.
    erewrite bind_Return by exact Hid.
    fold (save_request w idForUnit).
    erewrite bind_Return by (apply fetch_Response; exact Hpost).
    msimp.
    erewrite bind_Return by reflexivity.
    erewrite bind_Return
      by (unfold prop; rewrite (returned_id_readable data "id" Hrid); reflexivity).
    erewrite bind_Return
      by (apply or_else_prop; apply (returned_id_readable data "_id" Hrid)).
    fold (returned_id data). fold rid.
    rewrite Hfalsy, Hrid. msimp.
    erewrite view_after_bind; cycle 1.
    - erewrite bind_Return by (unfold assign; rewrite Hids; reflexivity).
      erewrite bind_Return by apply writeBlendIds_value.
      apply try_catch_Return.
      erewrite bind_Return by (apply fetch_Response; exact Hlink).
      erewrite bind_Return
        by (rewrite fetchServerUnitMap_cases; simpl net; rewrite Hget; reflexivity).
      reflexivity.
    - apply saveToServer_tail_view.
    - unfold mapping_view, refreshed, jor. rewrite Hmap. simpl.
      rewrite Hcur1, !requests_app, !blend_writes_app. simpl.
      rewrite !app_nil_r, <- !app_assoc. reflexivity. }
  unfold mapping_view in V. injection V as V1 V2 V3 V4.
  split; [exact V3|]. split; [exact V4|]. split; [exact V1|].
  destruct (getBlendIdForUnit_preference P unit w') as (E & _ & _).
  cbv zeta in E. rewrite E. rewrite V1, V2.
  assert (Hunit : zor unit (zor (currentUnit P w) 1) = unit).
  { unfold zor at 1. destruct (unit =? 0) eqn:E0; [|reflexivity].
    apply Z.eqb_eq in E0. exfalso. revert E0. apply zor_nonzero. lia. }
  rewrite Hunit. fold key.
  rewrite (has_entry_truthy map key Hmap), Hentry, Hrid. reflexivity.
Qed.

End Save.

(** C2. The explicit save resolves the id of the active unit and then
    issues one request for the record: [PUT /blend/<id>] when an id was
    resolved, [POST /blend] otherwise.  After a create that succeeds and
    returns an id, the id is written into the locally stored fallback map
    and sent to the remote unit mapping with [PUT /units/<unit>]; the
    remote map is then fetched again, and once it holds the id for the
    unit, resolving the unit returns that id from the in-memory remote map
    and changes nothing: no request is made. *)
Theorem saveToServer_create_or_update (P : Platform) (w w1 : World P)
  (idForUnit : jsval) :
  let unit := zor (currentUnit P w) 1 in
  let key := String_of_Z unit in
  getBlendIdForUnit P unit w = (Return idForUnit, w1) ->
  let w' := exec P (saveToServer P) w in
  (exists rest,
     requests (log P w')
     = requests (log P w1)
       ++ (if truthy idForUnit
           then mkRequest PUT ("/blend/" +:+ ToString idForUnit)
                  (Some (JSON_stringify P (collected P w)))
           else mkRequest POST "/blend" (Some (JSON_stringify P (collected P w))))
          :: rest)
  /\ forall (data ids' map : jsval) (n2 n3 n4 : Net P) (okp : bool)
       (bodyp : option jsval),
      let rid := returned_id data in
      let link := mkRequest PUT ("/units/" +:+ key)
                    (Some (JSON_stringify P (JObj [("blendId", rid)]))) in
      truthy idForUnit = false ->
      serve P (mkRequest POST "/blend" (Some (JSON_stringify P (collected P w))))
        (net P w1) = (Response true (Some data), n2) ->
      truthy rid = true ->
      setProp (stored_json P w BLEND_IDS_KEY) key rid = Some ids' ->
      serve P link n2 = (Response okp bodyp, n3) ->
      serve P reqUnits n3 = (Response true (Some map), n4) ->
      entry map key = rid ->
      requests (log P w')
      = requests (log P w1)
        ++ [mkRequest POST "/blend" (Some (JSON_stringify P (collected P w)));
            link; reqUnits]
      /\ blend_writes (log P w')
         = blend_writes (log P w1) ++ [JSON_stringify P ids'; JSON_stringify P map]
      /\ serverUnitMap P w' = map
      /\ getBlendIdForUnit P unit w' = (Return rid, w').
Proof.
  intros unit key Hid w'. split.
  - destruct (saveToServer_method P w w1 idForUnit Hid) as [rest Hr].
    exists rest. exact Hr.
  - intros data ids' map n2 n3 n4 okp bodyp rid link Hf Hpost Hrid Hids Hlink Hget He.
    pose proof (saveToServer_create P w w1 idForUnit data ids' map n2 n3 n4 okp bodyp
                  Hid Hf) as H.
    unfold save_request in H. rewrite Hf in H.
    apply H; assumption.
Qed.

(** Closes [l = r] by evaluating [l] on the virtual machine; what is left
    undetermined in [r] is read off the value. *)
Ltac vm_solve_eq :=
  match goal with
  | |- ?l = ?r =>
      let v := eval vm_compute in l in
      unify r v; vm_cast_no_check (@eq_refl _ v)
  end.

Lemma saveToServer_create_or_update_witness :
  let w := Reference.fresh [("rows", JArr [JStr "coal-7"])]
             [Response true (Some (JObj []));
              Response true (Some (JObj [("id", JStr "abc123")]));
              Response true (Some (JObj []));
              Response true (Some (JObj [("1", JStr "abc123")]))] in
  let w' := exec Reference.platform (saveToServer Reference.platform) w in
  map req_method (requests (log Reference.platform w')) = [GET; POST; PUT; GET]
  /\ serverUnitMap Reference.platform w' = JObj [("1", JStr "abc123")]
  /\ getBlendIdForUnit Reference.platform 1 w' = (Return (JStr "abc123"), w').
Proof.
  intros w w'.
  eassert (H1 : getBlendIdForUnit Reference.platform 1 w = (Return JNull, _))
    by vm_solve_eq.
  destruct (saveToServer_create_or_update Reference.platform w _ JNull H1)
    as [_ H].
  edestruct (H (JObj [("id", JStr "abc123")])) as (R1 & R2 & R3 & R4).
  - reflexivity.
  - vm_solve_eq.
  - reflexivity.
  - vm_solve_eq.
  - vm_solve_eq.
  - vm_solve_eq.
  - reflexivity.
  - split; [|split].
    + fold w' in R1. rewrite R1. vm_compute. reflexivity.
    + exact R3.
    + exact R4.
Defined.

(** ** Computations that cannot throw *)

Section Returns.

Context {P : Platform}.

Definition returns {A} (m : M P A) : Prop :=
  forall w, exists a, fst (m w) = Return a.

Lemma returns_ret {A} (a : A) : returns (ret a).
Proof. intros w. now exists a. Qed.

Lemma returns_gets {A} (f : World P -> A) : returns (gets f).
Proof. intros w. now exists (f w). Qed.

Lemma returns_modify (f : World P -> World P) : returns (modify f).
Proof. intros w. now exists tt. Qed.

Lemma returns_bind {A B} (m : M P A) (k : A -> M P B) :
  returns m -> (forall a, returns (k a)) -> returns (bind m k).
Proof.
  intros Hm Hk w. unfold bind. destruct (Hm w) as [a Ha].
  destruct (m w) as [[a'|e] w']; simpl in Ha; [|discriminate].
  apply Hk.
Qed.

Lemma returns_try_catch {A} (m : M P A) (h : Exn -> M P A) :
  (forall e, returns (h e)) -> returns (try_catch m h).
Proof.
  intros Hh w. unfold try_catch. destruct (m w) as [[a|e] w']; simpl.
  - now exists a.
  - apply Hh.
Qed.

Lemma returns_repeat_m (n : nat) (m : M P unit) :
  returns m -> returns (repeat_m P n m).
Proof.
  intros Hm. induction n as [|n IH]; simpl.
  - apply returns_ret.
  - apply returns_bind; auto.
Qed.

Lemma returns_setTimeout (task : Task) (d : nat) : returns (setTimeout P task d).
Proof. intros w. now exists (nextTimer P w). Qed.

Lemma returns_clearTimeout (t : option nat) : returns (clearTimeout P t).
Proof. intros w. now exists tt. Qed.

Lemma clearFormForUnitUI_returns : returns (clearFormForUnitUI P).
Proof.
  unfold clearFormForUnitUI, dispatchInput, debouncedTransientSave.
  repeat first [ apply returns_bind; [|intros] | apply returns_modify
               | apply returns_gets | apply returns_repeat_m
               | apply returns_setTimeout | apply returns_clearTimeout
               | apply returns_ret
               | match goal with |- returns (if ?b then _ else _) => destruct b end ].
Qed.

(** [loadUnitData] never throws: whatever goes wrong in its body, its
    handler reads the cache through [readPayloadCache] and only reads an
    entry it has found. *)
Lemma loadUnitData_returns (u : Z) : returns (loadUnitData P u).
Proof.
  intros w. unfold loadUnitData.
  erewrite bind_Return by reflexivity. cbv zeta.
  apply returns_try_catch. intros e w0.
  erewrite bind_Return by apply readPayloadCache_value.
  erewrite bind_Return by apply guarded_read.
  rewrite guarded_truthy.
  destruct (has_entry _ _) eqn:Eh.
  - erewrite bind_Return by (now apply has_entry_prop).
    pose proof (populateFormFromPayload_returns P
                  (entry (stored_json P w0 PAYLOAD_CACHE_KEY)
                     (String_of_Z (zor u (zor (currentUnit P w) 1)))) w0) as Hp.
    destruct (populateFormFromPayload P _ w0) as [[[]|x] wp] eqn:Ep; [|discriminate].
    erewrite bind_Return by exact Ep.
    rewrite has_entry_prop by assumption. eexists. reflexivity.
  - destruct (clearFormForUnitUI_returns w0) as [[] Hc].
    destruct (clearFormForUnitUI P w0) as [[[]|x] wc] eqn:Ec; [|discriminate].
    erewrite bind_Return by exact Ec. eexists. reflexivity.
Qed.

End Returns.

(** ** Worlds that differ in the stored cache text only *)

Section CacheBlind.

Context (P : Platform).

(** [w2] is [w1] with another store, which holds the same texts under every
    key but the payload-cache key and a text there that reads as the same
    cache. *)
Definition cache_blind (w1 w2 : World P) : Prop :=
  exists l,
    w2 = set_localStorage P l w1
    /\ delete PAYLOAD_CACHE_KEY l = delete PAYLOAD_CACHE_KEY (localStorage P w1)
    /\ stored_json P w2 PAYLOAD_CACHE_KEY = stored_json P w1 PAYLOAD_CACHE_KEY.

(** [m] cannot tell such worlds apart. *)
Definition respects {A} (m : M P A) : Prop :=
  forall w1 w2, cache_blind w1 w2 ->
    fst (m w1) = fst (m w2) /\ cache_blind (snd (m w1)) (snd (m w2)).

Lemma cache_blind_other_key (w1 w2 : World P) (k : string) :
  cache_blind w1 w2 -> k <> PAYLOAD_CACHE_KEY ->
  localStorage P w2 !! k = localStorage P w1 !! k.
Proof.
  intros (l & -> & Hd & _) Hk. simpl.
  rewrite <- (lookup_delete_ne l PAYLOAD_CACHE_KEY k) by congruence.
  rewrite Hd. now rewrite lookup_delete_ne by congruence.
Qed.

Lemma respects_ret {A} (a : A) : respects (ret a).
Proof. intros w1 w2 H. split; [reflexivity|exact H]. Qed.

Lemma respects_throw {A} (e : Exn) : respects (@throw P A e).
Proof. intros w1 w2 H. split; [reflexivity|exact H]. Qed.

Lemma respects_bind {A B} (m : M P A) (k : A -> M P B) :
  respects m -> (forall a, respects (k a)) -> respects (bind m k).
Proof.
  intros Hm Hk w1 w2 H. unfold bind. destruct (Hm w1 w2 H) as [E R].
  destruct (m w1) as [[a1|e1] w1']; destruct (m w2) as [[a2|e2] w2'];
    simpl in *; try discriminate.
  - injection E as <-. now apply Hk.
  - injection E as <-. split; [reflexivity|assumption].
Qed.

Lemma respects_try_catch {A} (m : M P A) (h : Exn -> M P A) :
  respects m -> (forall e, respects (h e)) -> respects (try_catch m h).
Proof.
  intros Hm Hh w1 w2 H. unfold try_catch. destruct (Hm w1 w2 H) as [E R].
  destruct (m w1) as [[a1|e1] w1']; destruct (m w2) as [[a2|e2] w2'];
    simpl in *; try discriminate.
  - split; assumption.
  - injection E as <-. now apply Hh.
Qed.

Lemma respects_repeat_m (n : nat) (m : M P unit) :
  respects m -> respects (repeat_m P n m).
Proof.
  intros Hm. induction n as [|n IH]; simpl.
  - apply respects_ret.
  - apply respects_bind; auto.
Qed.

Lemma respects_for_each {A} (l : list A) (body : A -> M P unit) :
  (forall x, respects (body x)) -> respects (for_each P l body).
Proof.
  intros Hb. induction l as [|x l IH]; simpl.
  - apply respects_ret.
  - apply respects_bind; auto.
Qed.

(** Reading a part of the world other than the store. *)
Lemma respects_gets {A} (f : World P -> A) :
  (forall l w, f (set_localStorage P l w) = f w) -> respects (gets f).
Proof.
  intros Hf w1 w2 H. split; [|exact H].
  destruct H as (l & -> & _). simpl. now rewrite Hf.
Qed.

(** Changing a part of the world other than the store. *)
Lemma respects_modify (f : World P -> World P) :
  (forall l w, f (set_localStorage P l w) = set_localStorage P l (f w)) ->
  (forall w, localStorage P (f w) = localStorage P w) ->
  respects (modify f).
Proof.
  intros Hf Hl w1 w2 (l & -> & Hd & Hs). split; [reflexivity|].
  simpl. exists l. rewrite Hf. split; [reflexivity|].
  rewrite Hl. split; [exact Hd|].
  unfold stored_json in *. simpl in *. now rewrite Hl.
Qed.

Lemma respects_getItem (k : string) :
  k <> PAYLOAD_CACHE_KEY -> respects (getItem P k).
Proof.
  intros Hk w1 w2 H. split; [|exact H].
  unfold getItem, gets. simpl. f_equal. symmetry.
  now apply cache_blind_other_key.
Qed.

Lemma respects_setItem (k v : string) : respects (setItem P k v).
Proof.
  intros w1 w2 (l & -> & Hd & Hs). split; [reflexivity|].
  unfold setItem, modify. simpl.
  exists (<[k := v]> l). split; [reflexivity|]. simpl.
  destruct (decide (k = PAYLOAD_CACHE_KEY)) as [->|Hk].
  - split.
    + now rewrite !delete_insert_eq.
    + unfold stored_json. simpl. now rewrite !lookup_insert_eq.
  - split.
    + rewrite !(delete_insert_ne _ PAYLOAD_CACHE_KEY k) by congruence.
      now rewrite Hd.
    + unfold stored_json in *. simpl in *.
      rewrite !lookup_insert_ne by congruence. exact Hs.
Qed.

Lemma respects_readPayloadCache : respects (readPayloadCache P).
Proof.
  intros w1 w2 H. rewrite !readPayloadCache_value. simpl.
  split; [|exact H]. destruct H as (l & -> & _ & Hs). now rewrite Hs.
Qed.

Lemma respects_fetch (r : Request) : respects (fetch P r).
Proof.
  intros w1 w2 (l & -> & Hd & Hs). unfold fetch. simpl.
  destruct (serve P r (net P w1)) as [[|ok body] n]; simpl.
  - split; [reflexivity|]. exists l. repeat split; assumption.
  - split; [reflexivity|]. exists l. repeat split; assumption.
Qed.

Lemma respects_setTimeout (task : Task) (d : nat) : respects (setTimeout P task d).
Proof.
  intros w1 w2 (l & -> & Hd & Hs). split; [reflexivity|].
  exists l. repeat split; assumption.
Qed.

Lemma respects_clearTimeout (t : option nat) : respects (clearTimeout P t).
Proof.
  intros w1 w2 (l & -> & Hd & Hs). split; [reflexivity|].
  unfold clearTimeout, modify. destruct t; simpl; exists l; repeat split; assumption.
Qed.

Lemma respects_pure {A} (m : M P A) :
  (exists o, forall w : World P, m w = (o, w)) -> respects m.
Proof.
  intros [o Ho] w1 w2 H. rewrite !Ho. split; [reflexivity|exact H].
Qed.

Lemma respects_prop (v : jsval) (k : string) : respects (prop P v k).
Proof.
  apply respects_pure. unfold prop.
  destruct (getProp v k); eexists; reflexivity.
Qed.

Lemma respects_assign (v : jsval) (k : string) (x : jsval) : respects (assign P v k x).
Proof.
  apply respects_pure. unfold assign.
  destruct (setProp v k x); eexists; reflexivity.
Qed.

Lemma respects_res_json (res : bool * option jsval) : respects (res_json P res).
Proof.
  apply respects_pure. unfold res_json.
  destruct (snd res); eexists; reflexivity.
Qed.

Lemma respects_JSON_parse_m (s : string) : respects (JSON_parse_m P s).
Proof.
  apply respects_pure. unfold JSON_parse_m.
  destruct (JSON_parse P s); eexists; reflexivity.
Qed.

End CacheBlind.

Ltac respects_step :=
  match goal with
  | |- respects _ (bind _ _) => apply respects_bind; [|intros]
  | |- respects _ (try_catch _ _) => apply respects_try_catch; [|intros]
  | |- respects _ (repeat_m _ _ _) => apply respects_repeat_m
  | |- respects _ (for_each _ _ _) => apply respects_for_each; intros
  | |- respects _ (readPayloadCache _) => apply respects_readPayloadCache
  | |- respects _ (fetch _ _) => apply respects_fetch
  | |- respects _ (setItem _ _ _) => apply respects_setItem
  | |- respects _ (getItem _ _) => apply respects_getItem; discriminate
  | |- respects _ (setTimeout _ _ _) => apply respects_setTimeout
  | |- respects _ (clearTimeout _ _) => apply respects_clearTimeout
  | |- respects _ (prop _ _ _) => apply respects_prop
  | |- respects _ (assign _ _ _ _) => apply respects_assign
  | |- respects _ (res_json _ _) => apply respects_res_json
  | |- respects _ (JSON_parse_m _ _) => apply respects_JSON_parse_m
  | |- respects _ (ret _) => apply respects_ret
  | |- respects _ (throw _) => apply respects_throw
  | |- respects _ (ignore _ _ _) => apply respects_ret
  | |- respects _ (gets _) => apply respects_gets; intros; reflexivity
  | |- respects _ (mem_get _ _) => apply respects_gets; intros; reflexivity
  | |- respects _ (modify _) => apply respects_modify; intros; reflexivity
  | |- respects _ (and_then _ _ _) => unfold and_then
  | |- respects _ (or_else _ _ _) => unfold or_else
  | |- respects _ (if ?b then _ else _) => destruct b
  | |- respects _ (match ?x with _ => _ end) => destruct x
  | |- respects _ (let _ := _ in _) => cbv zeta
  end.

(** The script functions one level down, the cache reader excepted: it
    is the one place that reads the cache text. *)
Ltac unfold_scripts_but_reader :=
  unfold readBlendIds, writeBlendIds, fetchServerUnitMap,
    ensureServerUnitMapping, getBlendIdForUnit,
    writePayloadCache, mem_set, flushPayloadCache,
    collectFormData, transientUnitKey, saveTransientToMemory,
    attachAutosaveListenersOnce, dispatchInput, editEvent, clearFormForUnitUI,
    populateFormFromPayload, unwrapNestedFirst, unwrapShapeFirst, cacheLacks,
    backgroundFetch, prefetchOtherUnits, prefetchBody,
    loadUnitData, saveToServer, runTask, runJob, alert,
    debouncedTransientSave, schedulePersistPayloadCache.

Ltac respects_tac := repeat first [respects_step | progress unfold_scripts_but_reader].

Lemma loadUnitData_respects (P : Platform) (u : Z) : respects P (loadUnitData P u).
Proof. respects_tac. Qed.

Section CorruptCache.

Context (P : Platform).

Lemma cache_blind_fields (w1 w2 : World P) :
  cache_blind P w1 w2 ->
  log P w2 = log P w1 /\ form P w2 = form P w1
  /\ inMemoryPayloadCache P w2 = inMemoryPayloadCache P w1
  /\ serverUnitMap P w2 = serverUnitMap P w1
  /\ timers P w2 = timers P w1
  /\ stored_json P w2 PAYLOAD_CACHE_KEY = stored_json P w1 PAYLOAD_CACHE_KEY.
Proof. intros (l & -> & _ & Hs). repeat split. exact Hs. Qed.

Lemma stored_json_unreadable (w : World P) (l : gmap string string) (s : string) :
  JSON_parse P "{}" = Some (JObj []) ->
  JSON_parse P s = None ->
  stored_json P (set_localStorage P (<[PAYLOAD_CACHE_KEY := s]> l) w)
    PAYLOAD_CACHE_KEY = JObj [].
Proof.
  intros He Hs. unfold stored_json. simpl. rewrite lookup_insert_eq. simpl.
  destruct (String.eqb s ""); [now rewrite He|now rewrite Hs].
Qed.

Lemma stored_json_absent (w : World P) (l : gmap string string) :
  JSON_parse P "{}" = Some (JObj []) ->
  stored_json P (set_localStorage P (delete PAYLOAD_CACHE_KEY l) w)
    PAYLOAD_CACHE_KEY = JObj [].
Proof.
  intros He. unfold stored_json. simpl. rewrite lookup_delete_eq. simpl.
  now rewrite He.
Qed.

Lemma stored_json_empty (w : World P) (l : gmap string string) :
  JSON_parse P "{}" = Some (JObj []) ->
  stored_json P (set_localStorage P (<[PAYLOAD_CACHE_KEY := "{}"]> l) w)
    PAYLOAD_CACHE_KEY = JObj [].
Proof.
  intros He. unfold stored_json. simpl. rewrite lookup_insert_eq. simpl.
  now rewrite He.
Qed.

End CorruptCache.



(** ** The event loop *)

Section EventLoop.

Context (P : Platform).

(** The world once the timer [id] has left the queue. *)
Definition removed (id : nat) (w : World P) : World P :=
  set_timers P
    (List.filter (fun e => negb (Nat.eqb (fst e) id)) (timers P w))
    (nextTimer P w) w.

Lemma find_timer_In (id : nat) (task : Task) (ts : list (nat * (nat * Task))) :
  find_timer id ts = Some task -> exists d, In (id, (d, task)) ts.
Proof.
  unfold find_timer. destruct (List.find _ ts) as [[i [d t]]|] eqn:E; [|discriminate].
  intros [= <-]. apply List.find_some in E as [Hin Hid].
  apply Nat.eqb_eq in Hid. simpl in Hid. subst i. eauto.
Qed.

Lemma find_timer_None (id : nat) (ts : list (nat * (nat * Task))) :
  find_timer id ts = None -> ~ In id (map fst ts).
Proof.
  unfold find_timer. destruct (List.find _ ts) eqn:E; [discriminate|].
  intros _ Hin. apply in_map_iff in Hin as (e & He & Hin).
  pose proof (List.find_none _ _ E e Hin) as H. simpl in H.
  apply Nat.eqb_neq in H. congruence.
Qed.

Lemma NoDup_fst_eq {A B} (l : list (A * B)) (a : A) (x y : B) :
  List.NoDup (map fst l) -> In (a, x) l -> In (a, y) l -> x = y.
Proof.
  induction l as [|[a' z] l IH]; simpl; intros Hnd Hx Hy; [contradiction|].
  apply List.NoDup_cons_iff in Hnd as [Hni Hnd].
  destruct Hx as [Ex|Hx]; destruct Hy as [Ey|Hy].
  - congruence.
  - exfalso. apply Hni. apply in_map_iff. exists (a, y).
    split; [simpl; congruence|assumption].
  - exfalso. apply Hni. apply in_map_iff. exists (a, x).
    split; [simpl; congruence|assumption].
  - auto.
Qed.

Lemma find_timer_unique (id d : nat) (task : Task) (ts : list (nat * (nat * Task))) :
  List.NoDup (map fst ts) -> In (id, (d, task)) ts -> find_timer id ts = Some task.
Proof.
  intros Hnd Hin. destruct (find_timer id ts) as [t|] eqn:E.
  - apply find_timer_In in E as [d' Hin'].
    pose proof (NoDup_fst_eq _ _ _ _ Hnd Hin Hin') as H. congruence.
  - apply find_timer_None in E. exfalso. apply E.
    apply in_map_iff. exists (id, (d, task)). auto.
Qed.

Lemma fire_value (id : nat) (task : Task) (w : World P) :
  find_timer id (timers P w) = Some task ->
  fire P w id = exec P (runTask P task) (removed id w).
Proof. intros H. unfold fire. rewrite H. reflexivity. Qed.

Lemma fire_idle (id : nat) (w : World P) :
  find_timer id (timers P w) = None -> fire P w id = w.
Proof. intros H. unfold fire. now rewrite H. Qed.

(** Taking a timer that is not the deferred write out of the queue keeps
    the queue well formed. *)
Lemma removed_wf (id : nat) (task : Task) (w : World P) :
  timers_wf P w -> find_timer id (timers P w) = Some task -> task <> TFlush ->
  timers_wf P (removed id w).
Proof.
  intros [H1 H2 H3 H4 H5 H7 H6] Hf Ht.
  destruct (find_timer_In _ _ _ Hf) as [d0 Hin0].
  split; simpl.
  - intros i Hi. destruct (H1 i Hi) as [d Hd]. exists d.
    apply In_filter_ne. split; [exact Hd|]. simpl. intros ->.
    pose proof (NoDup_fst_eq _ _ _ _ H6 Hin0 Hd) as E. congruence.
  - intros e He. apply In_filter_ne in He as [He _]. auto.
  - intros i e Hi He Hfst. apply In_filter_ne in He as [He _]. eauto.
  - exact H4.
  - intros e He Hd. apply In_filter_ne in He as [He _]. auto.
  - intros e He Hd. apply In_filter_ne in He as [He _]. auto.
  - now apply NoDup_map_filter.
Qed.

Lemma setTimeout_wf (task : Task) (d : nat) :
  is_debounced (0%nat, (0%nat, task)) = false ->
  is_flush (0%nat, (0%nat, task)) = false ->
  keeps (timers_wf P) (setTimeout P task d).
Proof.
  intros Hd Hf w [H1 H2 H3 H4 H5 H7 H6]. unfold setTimeout. split; simpl.
  - intros i Hi. destruct (H1 i Hi) as [d' Hd']. exists d'.
    apply in_or_app. now left.
  - intros e He. apply in_app_or in He as [He|[<-|[]]]; simpl; [|lia].
    specialize (H2 e He). lia.
  - intros i e Hi He Hfst. apply in_app_or in He as [He|[<-|[]]]; [eauto|].
    simpl in Hfst. specialize (H4 i Hi). lia.
  - intros i Hi. specialize (H4 i Hi). lia.
  - intros e He Hde. apply in_app_or in He as [He|[<-|[]]]; [auto|].
    unfold is_debounced in *. simpl in *. congruence.
  - intros e He Hfe. apply in_app_or in He as [He|[<-|[]]]; [auto|].
    unfold is_flush in *. simpl in *. congruence.
  - rewrite map_app. simpl. apply NoDup_snoc; [|assumption].
    now apply fresh_not_in.
Qed.

Lemma flushPayloadCache_value (w : World P) :
  flushPayloadCache P w =
  (Return tt,
   set_deferredPayloadWriteTimer P None
     (emit P (EvSetItem PAYLOAD_CACHE_KEY
                (JSON_stringify P (JObj (inMemoryPayloadCache P w))))
        (set_localStorage P
           (<[PAYLOAD_CACHE_KEY :=
                JSON_stringify P (JObj (inMemoryPayloadCache P w))]>
              (localStorage P w)) w))).
Proof. reflexivity. Qed.

(** Firing a timer keeps the queue well formed. *)
Lemma fire_wf (id : nat) (w : World P) :
  timers_wf P w -> timers_wf P (fire P w id).
Proof.
  intros Hw. destruct (find_timer id (timers P w)) as [task|] eqn:Ef;
    [|now rewrite fire_idle].
  rewrite (fire_value _ _ _ Ef).
  destruct task.
  - unfold exec, runTask. rewrite flushPayloadCache_value. simpl.
    destruct Hw as [H1 H2 H3 H4 H5 H7 H6].
    destruct (find_timer_In _ _ _ Ef) as [d0 Hin0].
    split; simpl.
    + discriminate.
    + intros e He. apply In_filter_ne in He as [He _]. auto.
    + intros i e Hi He Hfst. apply In_filter_ne in He as [He _]. eauto.
    + exact H4.
    + intros e He Hd. apply In_filter_ne in He as [He _]. auto.
    + intros e He Hfl. apply In_filter_ne in He as [He Hne]. exfalso.
      pose proof (H7 e He Hfl) as Ha.
      pose proof (H7 _ Hin0 eq_refl) as Hb. simpl in Hb. congruence.
    + now apply NoDup_map_filter.
  - apply saveTransientToMemory_wf. eapply removed_wf; eauto; discriminate.
  - assert (H : preserves (timer_state P) (attachAutosaveListenersOnce P)) by frame.
    apply (preserves_keeps_wf _ H). eapply removed_wf; eauto; discriminate.
  - apply prefetchBody_wf. eapply removed_wf; eauto; discriminate.
Qed.

Lemma fold_fire_wf (ids : list nat) (w : World P) :
  timers_wf P w -> timers_wf P (fold_left (fire P) ids w).
Proof.
  revert w. induction ids as [|id ids IH]; simpl; intros w Hw; [exact Hw|].
  apply IH. now apply fire_wf.
Qed.

Lemma tick_wf (w : World P) : timers_wf P w -> timers_wf P (tick P w).
Proof.
  intros Hw. unfold tick. apply fold_fire_wf.
  eapply timers_wf_view; [|exact Hw]. reflexivity.
Qed.

Lemma advance_wf (ms : nat) (w : World P) :
  timers_wf P w -> timers_wf P (advance P ms w).
Proof.
  revert w. induction ms as [|ms IH]; simpl; intros w Hw; [exact Hw|].
  apply IH. now apply tick_wf.
Qed.

Lemma setCurrentUnitFast_wf (u : Z) : keeps (timers_wf P) (setCurrentUnitFast P u).
Proof.
  unfold setCurrentUnitFast, prefetchOtherUnits.
  repeat first
    [ wf_step
    | apply saveTransientToMemory_wf
    | apply populateFormFromPayload_wf
    | apply clearFormForUnitUI_wf
    | apply setTimeout_wf; reflexivity
    | apply preserves_keeps_wf; solve [frame] ].
Qed.

End EventLoop.

(** ** The debounced capture *)

(** The captures among the events of a log: key and payload. *)
Definition captures (l : list Event) : list (string * jsval) :=
  flat_map (fun e => match e with EvCapture k p => [(k, p)] | _ => [] end) l.

Lemma captures_app (l1 l2 : list Event) :
  captures (l1 ++ l2) = captures l1 ++ captures l2.
Proof. unfold captures. apply flat_map_app. Qed.

(** What a capture reads. *)
Definition page_view (P : Platform) (w : World P) :=
  (form P w, currentUnit P w, localStorage P w !! "__coalColorMap_v2",
   localStorage P w !! "currentUnit", now P w).

(** The debouncer: its variable, its pending timers, whether its
    listeners are attached, and the captures made so far. *)
Definition debounce_view (P : Platform) (w : World P) :=
  (debounce_t P w, List.filter is_debounced (timers P w),
   autosaveAttached P w, captures (log P w)).

Definition quiet_view (P : Platform) (w : World P) :=
  (page_view P w, debounce_view P w).

Ltac quiet_side :=
  intros; unfold quiet_view, page_view, debounce_view; simpl;
  rewrite ?lookup_insert_ne by discriminate;
  rewrite ?List.filter_app, ?captures_app; simpl;
  rewrite ?app_nil_r; reflexivity.

Section Debounce.

Context (P : Platform).

Lemma collected_page_view (w1 w2 : World P) :
  page_view P w1 = page_view P w2 ->
  collected P w1 = collected P w2 /\ transient_key P w1 = transient_key P w2.
Proof.
  unfold page_view. intros [= Hf Hc Hcol Hcur Hnow]. split.
  - unfold collected, stored_colors. now rewrite Hf, Hcol, Hnow.
  - unfold transient_key, transientUnitKey. unfold_m. rewrite Hc.
    destruct (currentUnit P w2 =? 0); simpl; [|reflexivity].
    rewrite Hcur. destruct (localStorage P w2 !! "currentUnit") as [s|]; [|reflexivity].
    destruct (String.eqb s ""); [reflexivity|].
    destruct (Number_of_string s); reflexivity.
Qed.

Lemma filter_debounced_removed (id : nat) (ts : list (nat * (nat * Task))) :
  ~ In id (map fst (List.filter is_debounced ts)) ->
  List.filter is_debounced
    (List.filter (fun e => negb (Nat.eqb (fst e) id)) ts)
  = List.filter is_debounced ts.
Proof.
  induction ts as [|e ts IH]; simpl; intros H; [reflexivity|].
  destruct (is_debounced e) eqn:Ed; simpl in H.
  - destruct (Nat.eqb (fst e) id) eqn:Ei; simpl.
    + apply Nat.eqb_eq in Ei. tauto.
    + rewrite Ed. f_equal. apply IH. tauto.
  - destruct (Nat.eqb (fst e) id) eqn:Ei; simpl; rewrite ?Ed; auto.
Qed.

Lemma removed_quiet (id : nat) (w : World P) :
  ~ In id (map fst (List.filter is_debounced (timers P w))) ->
  quiet_view P (removed P id w) = quiet_view P w.
Proof.
  intros H. unfold quiet_view, page_view, debounce_view, removed. simpl.
  now rewrite filter_debounced_removed.
Qed.

(** A callback other than the debounced save leaves the page and the
    debouncer alone. *)
Lemma foreign_task_quiet (task : Task) (w : World P) :
  task <> TDebounced -> autosaveAttached P w = true ->
  quiet_view P (exec P (runTask P task) w) = quiet_view P w.
Proof.
  intros Ht Ha. destruct task; [| congruence | |].
  - unfold exec, runTask. rewrite flushPayloadCache_value. quiet_side.
  - unfold exec, runTask, attachAutosaveListenersOnce. unfold_m. now rewrite Ha.
  - assert (H : preserves (quiet_view P) (prefetchBody P current))
      by (frame_with quiet_side).
    apply H.
Qed.

Lemma fire_foreign (id : nat) (w : World P) :
  autosaveAttached P w = true ->
  ~ In id (map fst (List.filter is_debounced (timers P w))) ->
  quiet_view P (fire P w id) = quiet_view P w.
Proof.
  intros Ha Hid.
  destruct (find_timer id (timers P w)) as [task|] eqn:Ef;
    [|now rewrite fire_idle].
  rewrite (fire_value _ _ _ _ Ef).
  rewrite foreign_task_quiet; [now apply removed_quiet| |exact Ha].
  intros ->. apply Hid. destruct (find_timer_In _ _ _ Ef) as [d Hin].
  apply in_map_iff. exists (id, (d, TDebounced)). split; [reflexivity|].
  apply filter_In. split; [exact Hin|reflexivity].
Qed.

Lemma quiet_view_parts (w1 w2 : World P) :
  quiet_view P w1 = quiet_view P w2 ->
  autosaveAttached P w1 = autosaveAttached P w2
  /\ List.filter is_debounced (timers P w1) = List.filter is_debounced (timers P w2)
  /\ debounce_t P w1 = debounce_t P w2
  /\ captures (log P w1) = captures (log P w2)
  /\ page_view P w1 = page_view P w2.
Proof.
  unfold quiet_view, debounce_view. intros H. injection H. intros.
  repeat split; try assumption. unfold page_view. congruence.
Qed.

Lemma fold_fire_foreign (ids : list nat) (w : World P) :
  autosaveAttached P w = true ->
  (forall id, In id ids ->
     ~ In id (map fst (List.filter is_debounced (timers P w)))) ->
  quiet_view P (fold_left (fire P) ids w) = quiet_view P w.
Proof.
  revert w. induction ids as [|id ids IH]; simpl; intros w Ha Hids; [reflexivity|].
  assert (Hq : quiet_view P (fire P w id) = quiet_view P w)
    by (apply fire_foreign; auto).
  destruct (quiet_view_parts _ _ Hq) as (Ea & Ef & _).
  rewrite IH; [exact Hq|congruence|].
  intros i Hi. rewrite Ef. auto.
Qed.

(** The identifiers of the timers due at the next tick. *)
Definition due_ids (w : World P) : list nat :=
  map fst (List.filter (fun e => (fst (snd e) <=? S (now P w))%nat) (timers P w)).

Lemma tick_value (w : World P) :
  tick P w = fold_left (fire P) (due_ids w) (set_now P (S (now P w)) w).
Proof. reflexivity. Qed.

Lemma due_ids_In (id : nat) (w : World P) :
  In id (due_ids w) ->
  exists d task, In (id, (d, task)) (timers P w) /\ (d <= S (now P w))%nat.
Proof.
  unfold due_ids. intros H. apply in_map_iff in H as ([i [d task]] & Hi & Hin).
  simpl in Hi. subst i. apply filter_In in Hin as [Hin Hd]. simpl in Hd.
  apply Nat.leb_le in Hd. eauto.
Qed.

Lemma debounced_entry_In (id d : nat) (w : World P) :
  List.filter is_debounced (timers P w) = [(id, (d, TDebounced))] ->
  In (id, (d, TDebounced)) (timers P w).
Proof.
  intros H. assert (Hin : In (id, (d, TDebounced)) (List.filter is_debounced (timers P w)))
    by (rewrite H; now left).
  now apply filter_In in Hin.
Qed.

(** A millisecond passes before the debounce timer is due: the page and
    the debouncer are as they were, one millisecond later. *)
Lemma tick_quiet (w : World P) (id d : nat) :
  timers_wf P w -> autosaveAttached P w = true ->
  List.filter is_debounced (timers P w) = [(id, (d, TDebounced))] ->
  (S (now P w) < d)%nat ->
  quiet_view P (tick P w) = quiet_view P (set_now P (S (now P w)) w).
Proof.
  intros Hw Ha Hf Hd. rewrite tick_value. apply fold_fire_foreign; [exact Ha|].
  intros i Hi. simpl. rewrite Hf. simpl. intros [<-|[]].
  destruct (due_ids_In _ _ Hi) as (d' & task & Hin & Hle).
  pose proof (NoDup_fst_eq _ _ _ _ (wf_distinct P w Hw) Hin
                (debounced_entry_In _ _ _ Hf)) as E.
  injection E as -> _. lia.
Qed.

Lemma quiet_view_set_now (n : nat) (w1 w2 : World P) :
  quiet_view P w1 = quiet_view P w2 ->
  quiet_view P (set_now P n w1) = quiet_view P (set_now P n w2).
Proof.
  unfold quiet_view, page_view, debounce_view. simpl.
  intros H. injection H. intros. congruence.
Qed.

Lemma advance_quiet (ms : nat) (w : World P) (id d : nat) :
  timers_wf P w -> autosaveAttached P w = true ->
  List.filter is_debounced (timers P w) = [(id, (d, TDebounced))] ->
  (now P w + ms < d)%nat ->
  quiet_view P (advance P ms w) = quiet_view P (set_now P (now P w + ms)%nat w).
Proof.
  revert w. induction ms as [|ms IH]; intros w Hw Ha Hf Hd; simpl.
  - rewrite Nat.add_0_r. reflexivity.
  - assert (Hq : quiet_view P (tick P w) = quiet_view P (set_now P (S (now P w)) w))
      by (eapply tick_quiet; eauto; lia).
    destruct (quiet_view_parts _ _ Hq) as (Ea & Ef & _ & _ & Ep).
    assert (Hn : now P (tick P w) = S (now P w)).
    { unfold page_view in Ep. now injection Ep. }
    rewrite IH.
    + rewrite Hn. rewrite (quiet_view_set_now _ _ _ Hq).
      replace (S (now P w) + ms)%nat with (now P w + S ms)%nat by lia.
      reflexivity.
    + now apply tick_wf.
    + rewrite Ea. exact Ha.
    + rewrite Ef. exact Hf.
    + rewrite Hn. lia.
Qed.

End Debounce.

Section DebounceFires.

Context (P : Platform).

Lemma filter_comm {A} (f g : A -> bool) (l : list A) :
  List.filter f (List.filter g l) = List.filter g (List.filter f l).
Proof.
  induction l as [|x l IH]; simpl; [reflexivity|].
  destruct (f x) eqn:Ef; destruct (g x) eqn:Eg; simpl; rewrite ?Ef, ?Eg, IH;
    reflexivity.
Qed.

Lemma filter_debounced_fired (id d : nat) (ts : list (nat * (nat * Task))) :
  List.filter is_debounced ts = [(id, (d, TDebounced))] ->
  List.filter is_debounced
    (List.filter (fun e => negb (Nat.eqb (fst e) id)) ts) = [].
Proof.
  intros H. rewrite filter_comm, H. simpl. now rewrite Nat.eqb_refl.
Qed.

(** The stable part of the world for the debouncer. *)
Definition armed_view (w : World P) :=
  (page_view P w, debounce_t P w, autosaveAttached P w).

Lemma armed_view_parts (w1 w2 : World P) :
  armed_view w1 = armed_view w2 ->
  page_view P w1 = page_view P w2
  /\ debounce_t P w1 = debounce_t P w2
  /\ autosaveAttached P w1 = autosaveAttached P w2.
Proof.
  unfold armed_view. intros H. injection H. intros.
  repeat split; try assumption. unfold page_view. congruence.
Qed.

(** The debounce timer fires: one capture of the page as it stands, filed
    under the active unit; no debounced save is pending afterwards. *)
Lemma fire_debounced (id d : nat) (w : World P) :
  timers_wf P w ->
  List.filter is_debounced (timers P w) = [(id, (d, TDebounced))] ->
  armed_view (fire P w id) = armed_view w
  /\ List.filter is_debounced (timers P (fire P w id)) = []
  /\ captures (log P (fire P w id))
     = captures (log P w) ++ [(transient_key P w, collected P w)].
Proof.
  intros Hw Hf.
  rewrite (fire_value P id TDebounced w)
    by (eapply find_timer_unique;
        [apply (wf_distinct P w Hw)|apply (debounced_entry_In P _ _ _ Hf)]).
  unfold exec, runTask. rewrite saveTransientToMemory_value. cbn [snd].
  assert (Hs : preserves (quiet_view P) (schedulePersistPayloadCache P))
    by frame_with quiet_side.
  specialize (Hs (captured_world P (removed P id w))).
  destruct (quiet_view_parts P _ _ Hs) as (Ea & Ef & Ed & Ec & Ep).
  unfold armed_view. rewrite Ea, Ef, Ed, Ec, Ep. clear Hs Ea Ef Ed Ec Ep.
  assert (Hp : page_view P (removed P id w) = page_view P w) by reflexivity.
  destruct (collected_page_view P _ _ Hp) as [Ec Ek].
  split; [reflexivity|]. split.
  - simpl. eapply filter_debounced_fired. exact Hf.
  - unfold captured_world. simpl. rewrite captures_app. simpl.
    now rewrite Ec, Ek.
Qed.

Lemma quiet_armed (w1 w2 : World P) :
  quiet_view P w1 = quiet_view P w2 -> armed_view w1 = armed_view w2.
Proof.
  intros H. destruct (quiet_view_parts P _ _ H) as (Ea & _ & Ed & _ & Ep).
  unfold armed_view. congruence.
Qed.

(** The millisecond at which the debounce timer is due: exactly one
    capture, of the page as it stands then. *)
Lemma tick_fires (w : World P) (id : nat) :
  timers_wf P w -> autosaveAttached P w = true ->
  List.filter is_debounced (timers P w) = [(id, (S (now P w), TDebounced))] ->
  let w1 := set_now P (S (now P w)) w in
  armed_view (tick P w) = armed_view w1
  /\ List.filter is_debounced (timers P (tick P w)) = []
  /\ captures (log P (tick P w))
     = captures (log P w) ++ [(transient_key P w1, collected P w1)].
Proof.
  intros Hw Ha Hf w1. rewrite tick_value. fold w1.
  assert (Hin : In id (due_ids P w)).
  { unfold due_ids. apply in_map_iff. exists (id, (S (now P w), TDebounced)).
    split; [reflexivity|]. apply filter_In.
    split; [apply (debounced_entry_In P _ _ _ Hf)|]. simpl. apply Nat.leb_refl. }
  assert (Hnd : List.NoDup (due_ids P w)).
  { unfold due_ids. apply NoDup_map_filter. apply (wf_distinct P w Hw). }
  apply in_split in Hin as (l1 & l2 & Hsplit). rewrite Hsplit in *.
  apply List.NoDup_remove_2 in Hnd.
  rewrite fold_left_app. simpl.
  set (wa := fold_left (fire P) l1 w1).
  assert (Hqa : quiet_view P wa = quiet_view P w1).
  { apply fold_fire_foreign; [exact Ha|].
    intros i Hi. simpl. rewrite Hf. simpl. intros [<-|[]].
    apply Hnd. apply in_or_app. now left. }
  assert (Hwa : timers_wf P wa).
  { apply fold_fire_wf. eapply timers_wf_view; [|exact Hw]. reflexivity. }
  destruct (quiet_view_parts P _ _ Hqa) as (Eaa & Efa & _ & Eca & Epa).
  simpl in Efa. rewrite Hf in Efa.
  destruct (fire_debounced id _ wa Hwa Efa) as (Hb1 & Hb2 & Hb3).
  set (wb := fire P wa id) in *.
  assert (Hab : autosaveAttached P wb = true).
  { destruct (armed_view_parts _ _ Hb1) as (_ & _ & E). rewrite E, Eaa. exact Ha. }
  assert (Hqc : quiet_view P (fold_left (fire P) l2 wb) = quiet_view P wb).
  { apply fold_fire_foreign; [exact Hab|]. intros i _. rewrite Hb2. simpl. tauto. }
  destruct (quiet_view_parts P _ _ Hqc) as (_ & Efc & _ & Ecc & _).
  split; [|split].
  - rewrite (quiet_armed _ _ Hqc), Hb1. now apply quiet_armed.
  - now rewrite Efc.
  - rewrite Ecc, Hb3, Eca. simpl.
    destruct (collected_page_view P _ _ Epa) as [-> ->]. reflexivity.
Qed.

(** An edit arms the debouncer: the one pending debounced save is due
    180 ms from now, whatever was pending before. *)
Lemma editEvent_arms (change : Form P -> Form P) (w : World P) :
  timers_wf P w -> autosaveAttached P w = true ->
  let w' := exec P (editEvent P change) w in
  timers_wf P w'
  /\ autosaveAttached P w' = true
  /\ List.filter is_debounced (timers P w')
     = [(nextTimer P w, ((now P w + AUTOSAVE_DEBOUNCE_MS)%nat, TDebounced))]
  /\ form P w' = change (form P w)
  /\ now P w' = now P w
  /\ currentUnit P w' = currentUnit P w
  /\ localStorage P w' = localStorage P w
  /\ captures (log P w') = captures (log P w).
Proof.
  intros Hw Ha w'.
  assert (Hwf : timers_wf P w').
  { subst w'. unfold exec.
    assert (K : keeps (timers_wf P) (editEvent P change)) by wf.
    now apply K. }
  split; [exact Hwf|].
  subst w'. unfold exec, editEvent, dispatchInput, debouncedTransientSave,
    clearTimeout, setTimeout. unfold_m. simpl. rewrite Ha. simpl.
  assert (Hnone : List.filter is_debounced
                    match debounce_t P w with
                    | Some id =>
                        List.filter (fun e => negb (Nat.eqb (fst e) id)) (timers P w)
                    | None => timers P w
                    end = []).
  { destruct (debounce_t P w) as [t|] eqn:Et.
    - rewrite filter_comm.
      destruct (List.filter (fun e => negb (Nat.eqb (fst e) t))
                  (List.filter is_debounced (timers P w))) as [|e l] eqn:E;
        [reflexivity|].
      assert (Hin : In e (e :: l)) by now left.
      rewrite <- E in Hin. apply filter_In in Hin as [Hin Hne].
      apply filter_In in Hin as [Hin Hd].
      pose proof (wf_debounce_only P w Hw e Hin Hd) as H. rewrite Et in H.
      injection H as ->. now rewrite Nat.eqb_refl in Hne.
    - destruct (List.filter is_debounced (timers P w)) as [|e l] eqn:E;
        [reflexivity|].
      assert (Hin : In e (e :: l)) by now left.
      rewrite <- E in Hin. apply filter_In in Hin as [Hin Hd].
      pose proof (wf_debounce_only P w Hw e Hin Hd) as H. rewrite Et in H.
      discriminate. }
  destruct (debounce_t P w) as [t|]; simpl;
    rewrite List.filter_app, Hnone; simpl; repeat split;
    first [reflexivity | exact Ha].
Qed.

End DebounceFires.

(** ** A burst of edits *)

(** The user edits the form again and again: each edit comes [gap]
    milliseconds after the previous one. *)
Fixpoint play (P : Platform) (edits : list (nat * (Form P -> Form P)))
    (w : World P) : World P :=
  match edits with
  | [] => w
  | (gap, change) :: rest =>
      play P rest (exec P (editEvent P change) (advance P gap w))
  end.

(** The fields after the edits. *)
Definition edited (P : Platform) (edits : list (nat * (Form P -> Form P)))
    (f : Form P) : Form P :=
  fold_left (fun f e => snd e f) edits f.

(** The time the edits take. *)
Definition duration {A} (edits : list (nat * A)) : nat :=
  fold_left (fun t e => (t + fst e)%nat) edits 0%nat.

(** The debouncer is armed: one debounced save is pending, due 180 ms
    from now. *)
Definition armed (P : Platform) (w : World P) : Prop :=
  timers_wf P w /\ autosaveAttached P w = true
  /\ exists id,
       List.filter is_debounced (timers P w)
       = [(id, ((now P w + AUTOSAVE_DEBOUNCE_MS)%nat, TDebounced))].

Section Burst.

Context (P : Platform).

Lemma advance_add (a b : nat) (w : World P) :
  advance P (a + b) w = advance P b (advance P a w).
Proof.
  revert w. induction a as [|a IH]; intros w; simpl; [reflexivity|apply IH].
Qed.

Lemma advance_0 (w : World P) : advance P 0 w = w.
Proof. reflexivity. Qed.

Lemma tick_idle (w : World P) :
  autosaveAttached P w = true ->
  List.filter is_debounced (timers P w) = [] ->
  quiet_view P (tick P w) = quiet_view P (set_now P (S (now P w)) w).
Proof.
  intros Ha Hf. rewrite tick_value. apply fold_fire_foreign; [exact Ha|].
  intros i _. simpl. rewrite Hf. simpl. tauto.
Qed.

(** Time passes with no debounced save pending: nothing is captured. *)
Lemma advance_idle (ms : nat) (w : World P) :
  autosaveAttached P w = true ->
  List.filter is_debounced (timers P w) = [] ->
  quiet_view P (advance P ms w) = quiet_view P (set_now P (now P w + ms)%nat w).
Proof.
  revert w. induction ms as [|ms IH]; intros w Ha Hf; simpl.
  - rewrite Nat.add_0_r. reflexivity.
  - pose proof (tick_idle w Ha Hf) as Hq.
    destruct (quiet_view_parts _ _ _ Hq) as (Ea & Ef & _ & _ & Ep).
    assert (Hn : now P (tick P w) = S (now P w)).
    { unfold page_view in Ep. now injection Ep. }
    rewrite IH.
    + rewrite Hn. rewrite (quiet_view_set_now _ _ _ _ Hq).
      replace (S (now P w) + ms)%nat with (now P w + S ms)%nat by lia.
      reflexivity.
    + rewrite Ea. exact Ha.
    + rewrite Ef. exact Hf.
Qed.

Lemma fold_duration {A} (edits : list (nat * A)) (t : nat) :
  fold_left (fun t e => (t + fst e)%nat) edits t = (t + duration edits)%nat.
Proof.
  unfold duration. revert t. induction edits as [|e r IH]; intros t; simpl.
  - lia.
  - rewrite IH, (IH (fst e)). lia.
Qed.

Lemma duration_cons {A} (e : nat * A) (r : list (nat * A)) :
  duration (e :: r) = (fst e + duration r)%nat.
Proof. unfold duration at 1. simpl. apply fold_duration. Qed.

(** Less than 180 ms after an edit, nothing has been captured. *)
Lemma armed_quiet (ms : nat) (w : World P) :
  armed P w -> (ms < AUTOSAVE_DEBOUNCE_MS)%nat ->
  quiet_view P (advance P ms w) = quiet_view P (set_now P (now P w + ms)%nat w)
  /\ timers_wf P (advance P ms w).
Proof.
  intros (Hw & Ha & id & Hf) Hms. split.
  - eapply advance_quiet; eauto. lia.
  - now apply advance_wf.
Qed.

Lemma editEvent_armed (change : Form P -> Form P) (w : World P) :
  timers_wf P w -> autosaveAttached P w = true ->
  armed P (exec P (editEvent P change) w).
Proof.
  intros Hw Ha.
  destruct (editEvent_arms P change w Hw Ha) as (H1 & H2 & H3 & _ & H5 & _).
  split; [exact H1|]. split; [exact H2|].
  exists (nextTimer P w). rewrite H3, H5. reflexivity.
Qed.

(** Edits less than 180 ms apart: the debouncer stays armed, nothing is
    captured, and the page shows the fields of the last edit. *)
Lemma play_spec (edits : list (nat * (Form P -> Form P))) (w : World P) :
  armed P w ->
  Forall (fun e => (fst e < AUTOSAVE_DEBOUNCE_MS)%nat) edits ->
  armed P (play P edits w)
  /\ captures (log P (play P edits w)) = captures (log P w)
  /\ page_view P (play P edits w)
     = page_view P (set_now P (now P w + duration edits)%nat
                      (set_form P (edited P edits (form P w)) w)).
Proof.
  revert w. induction edits as [|[gap change] rest IH]; intros w Hw Hall.
  - simpl. split; [exact Hw|]. split; [reflexivity|].
    unfold page_view, duration. simpl. now rewrite Nat.add_0_r.
  - inversion Hall as [|e r Hgap Hrest]; subst. simpl in Hgap.
    destruct (armed_quiet gap w Hw Hgap) as [Hq Hwf].
    destruct (quiet_view_parts _ _ _ Hq) as (Ea & _ & _ & Ec & Ep).
    destruct Hw as (_ & Ha & _). simpl in Ea, Ec.
    set (wq := advance P gap w) in *.
    assert (Haq : autosaveAttached P wq = true) by congruence.
    destruct (editEvent_arms P change wq Hwf Haq)
      as (_ & _ & _ & Hform & Hnow & Hcur & Hls & Hcap).
    pose proof (editEvent_armed change wq Hwf Haq) as Harm.
    cbv zeta in Hform, Hnow, Hcur, Hls, Hcap.
    set (we := exec P (editEvent P change) wq) in *.
    destruct (IH we Harm Hrest) as (I1 & I2 & I3).
    change (play P ((gap, change) :: rest) w) with (play P rest we).
    split; [exact I1|]. split; [congruence|].
    rewrite I3. rewrite duration_cons. simpl.
    unfold page_view in *. simpl in *.
    injection Ep as E1 E2 E3 E4 E5.
    rewrite Hform, Hnow, Hcur, Hls, E1, E2, E3, E4, E5.
    unfold edited. simpl. f_equal. lia.
Qed.

Lemma transient_key_unit (w1 w2 : World P) :
  currentUnit P w1 = currentUnit P w2 ->
  localStorage P w1 !! "currentUnit" = localStorage P w2 !! "currentUnit" ->
  transient_key P w1 = transient_key P w2.
Proof.
  intros Hc Hcur. unfold transient_key, transientUnitKey. unfold_m. rewrite Hc.
  destruct (currentUnit P w2 =? 0); simpl; [|reflexivity].
  rewrite Hcur. destruct (localStorage P w2 !! "currentUnit") as [s|]; [|reflexivity].
  destruct (String.eqb s ""); [reflexivity|].
  destruct (Number_of_string s); reflexivity.
Qed.

Lemma page_view_set_now (n : nat) (w1 w2 : World P) :
  page_view P w1 = page_view P w2 ->
  page_view P (set_now P n w1) = page_view P (set_now P n w2).
Proof. unfold page_view. simpl. intros H. injection H. intros. congruence. Qed.

(** A debounced save due in [S k] milliseconds runs then, once, and from
    then on nothing more is captured. *)
Lemma fires_after (k ms : nat) (w : World P) (id : nat) :
  timers_wf P w -> autosaveAttached P w = true ->
  List.filter is_debounced (timers P w)
  = [(id, ((now P w + S k)%nat, TDebounced))] ->
  let due := set_now P (now P w + S k)%nat w in
  captures (log P (advance P (S k + ms) w))
  = captures (log P w) ++ [(transient_key P due, collected P due)].
Proof.
  intros Hw Ha Hf due.
  replace (S k + ms)%nat with (k + (1 + ms))%nat by lia.
  rewrite advance_add, (advance_add 1 ms).
  assert (Hq : quiet_view P (advance P k w)
               = quiet_view P (set_now P (now P w + k)%nat w))
    by (eapply advance_quiet; eauto; lia).
  assert (Hwf : timers_wf P (advance P k w)) by now apply advance_wf.
  remember (advance P k w) as wq eqn:Ewq. clear Ewq.
  destruct (quiet_view_parts _ _ _ Hq) as (Ea & Ef & _ & Ec & Ep).
  simpl in Ea, Ef, Ec.
  assert (Hn : now P wq = (now P w + k)%nat).
  { unfold page_view in Ep. now injection Ep. }
  assert (Hfq : List.filter is_debounced (timers P wq)
                = [(id, (S (now P wq), TDebounced))]).
  { rewrite Ef, Hf, Hn. do 3 f_equal. lia. }
  destruct (tick_fires P wq id Hwf ltac:(congruence) Hfq) as (T1 & T2 & T3).
  cbv zeta in T1, T3. change (advance P 1 wq) with (tick P wq).
  destruct (armed_view_parts P _ _ T1) as (_ & _ & Tatt).
  simpl in Tatt.
  pose proof (advance_idle ms (tick P wq) ltac:(congruence) T2) as Hi.
  destruct (quiet_view_parts _ _ _ Hi) as (_ & _ & _ & Eci & _).
  simpl in Eci. rewrite Eci, T3, Ec.
  assert (Hpv : page_view P (set_now P (S (now P wq)) wq) = page_view P due).
  { subst due. rewrite Hn.
    replace (S (now P w + k)) with (now P w + S k)%nat by lia.
    rewrite (page_view_set_now _ _ _ Ep). reflexivity. }
  destruct (collected_page_view P _ _ Hpv) as [-> ->]. reflexivity.
Qed.

Lemma debounce_delay : AUTOSAVE_DEBOUNCE_MS = S 179.
Proof. reflexivity. Qed.

(** 180 ms after the last edit the debounced save runs, once, and from
    then on nothing more is captured. *)
Lemma armed_fires (ms : nat) (w : World P) :
  armed P w ->
  captures (log P (advance P (AUTOSAVE_DEBOUNCE_MS + ms) w))
  = captures (log P w)
    ++ [(transient_key P (set_now P (now P w + AUTOSAVE_DEBOUNCE_MS)%nat w),
         collected P (set_now P (now P w + AUTOSAVE_DEBOUNCE_MS)%nat w))].
Proof.
  intros (Hw & Ha & id & Hf). revert Hf. rewrite debounce_delay. intros Hf.
  exact (fires_after 179 ms w id Hw Ha Hf).
Qed.

End Burst.



(** The same burst, run on the reference page: three edits at 0, 50 and
    150 ms, one capture at 330 ms, none before, none after. *)
Definition typed (s : string) (pg : Reference.Page) : Reference.Page :=
  Reference.mkPage [("rows", JArr [JStr s])] (Reference.page_unit pg).

Definition burst : World Reference.platform :=
  play Reference.platform [(50%nat, typed "ab"); (100%nat, typed "abc")]
    (exec Reference.platform (editEvent Reference.platform (typed "a"))
       (Reference.fresh [] [])).

Example burst_run :
  captures (log Reference.platform (advance Reference.platform 179 burst)) = []
  /\ map (fun c => (fst c, field (own_props (snd c)) "rows",
                    field (own_props (snd c)) "ts"))
       (captures (log Reference.platform (advance Reference.platform 1000 burst)))
     = [("1", JArr [JStr "abc"], JNum 330)].
Proof. vm_compute. split; reflexivity. Qed.

(** ** The durable tier *)

(** The texts written under the payload-cache key, in order. *)
Definition payload_writes (l : list Event) : list string :=
  flat_map (fun e => match e with
                     | EvSetItem k v => if String.eqb k PAYLOAD_CACHE_KEY then [v] else []
                     | _ => []
                     end) l.

Lemma payload_writes_app (l1 l2 : list Event) :
  payload_writes (l1 ++ l2) = payload_writes l1 ++ payload_writes l2.
Proof. unfold payload_writes. apply flat_map_app. Qed.

(** The deferred write: what has been written, the timer variable, and
    the deferred writes of the queue. *)
Definition flush_view (P : Platform) (w : World P) :=
  (payload_writes (log P w), deferredPayloadWriteTimer P w,
   List.filter is_flush (timers P w)).

Ltac durable_side :=
  intros; unfold flush_view; simpl;
  rewrite ?payload_writes_app, ?List.filter_app; simpl;
  rewrite ?app_nil_r; reflexivity.

(** [m] never writes the payload-cache key itself. *)
Definition indirect {P : Platform} {A} (m : M P A) : Prop :=
  preserves (fun w => payload_writes (log P w)) m.

Section Durable.

Context (P : Platform).

Lemma saveTransientToMemory_indirect : indirect (saveTransientToMemory P).
Proof. unfold indirect. frame_with durable_side. Qed.

Lemma schedulePersistPayloadCache_indirect : indirect (schedulePersistPayloadCache P).
Proof. unfold indirect. frame_with durable_side. Qed.

Lemma editEvent_indirect (change : Form P -> Form P) : indirect (editEvent P change).
Proof. unfold indirect. frame_with durable_side. Qed.

Lemma backgroundFetch_indirect (u : Z) : indirect (backgroundFetch P u).
Proof. unfold indirect. frame_with durable_side. Qed.

Lemma prefetchBody_indirect (current : Z) : indirect (prefetchBody P current).
Proof. unfold indirect. frame_with durable_side. Qed.

Lemma setCurrentUnitFast_indirect (u : Z) : indirect (setCurrentUnitFast P u).
Proof. unfold indirect. frame_with durable_side. Qed.

Lemma ensureServerUnitMapping_indirect : indirect (ensureServerUnitMapping P).
Proof. unfold indirect. frame_with durable_side. Qed.

Lemma getBlendIdForUnit_indirect (u : Z) : indirect (getBlendIdForUnit P u).
Proof. unfold indirect. frame_with durable_side. Qed.

Lemma attachAutosaveListenersOnce_indirect : indirect (attachAutosaveListenersOnce P).
Proof. unfold indirect. frame_with durable_side. Qed.

(** A call while a deferred write is pending does nothing. *)
Lemma schedulePersistPayloadCache_absorbed (id : nat) (w : World P) :
  deferredPayloadWriteTimer P w = Some id ->
  schedulePersistPayloadCache P w = (Return tt, w).
Proof.
  intros H. unfold schedulePersistPayloadCache. unfold_m. now rewrite H.
Qed.

(** A call while none is pending sets the timer, 300 ms from now. *)
Lemma schedulePersistPayloadCache_arms (w : World P) :
  deferredPayloadWriteTimer P w = None ->
  schedulePersistPayloadCache P w
  = (Return tt,
     set_deferredPayloadWriteTimer P (Some (nextTimer P w))
       (set_timers P (timers P w ++ [(nextTimer P w, ((now P w + 300)%nat, TFlush))])
          (S (nextTimer P w)) w)).
Proof.
  intros H. unfold schedulePersistPayloadCache, setTimeout. unfold_m. now rewrite H.
Qed.

End Durable.

Lemma preserves_keeps_eq {P : Platform} {A B} (view : World P -> B) (V : B)
    (m : M P A) :
  preserves view m -> keeps (fun w => view w = V) m.
Proof. intros H w Hw. now rewrite H. Qed.

Lemma schedulePersistPayloadCache_keeps_pending (P : Platform) (ws : list string)
    (id : nat) (fl : list (nat * (nat * Task))) :
  keeps (fun w => flush_view P w = (ws, Some id, fl)) (schedulePersistPayloadCache P).
Proof.
  intros w Hw. assert (H : deferredPayloadWriteTimer P w = Some id).
  { unfold flush_view in Hw. now injection Hw. }
  now rewrite (schedulePersistPayloadCache_absorbed P id w H).
Qed.

(** Decomposes a goal that a computation leaves the deferred write as it
    is while one is pending. *)
Ltac pending_step :=
  match goal with
  | |- keeps _ (bind _ _) => apply keeps_bind; [|intros]
  | |- keeps _ (try_catch _ _) => apply keeps_try_catch; [|intros]
  | |- keeps _ (repeat_m _ _ _) => apply keeps_repeat_m
  | |- keeps _ (for_each _ _ _) => apply keeps_for_each; intros
  | |- keeps _ (schedulePersistPayloadCache _) =>
      apply schedulePersistPayloadCache_keeps_pending
  | |- keeps _ (if ?b then _ else _) => destruct b
  | |- keeps _ (match ?x with _ => _ end) => destruct x
  | |- keeps _ (let _ := _ in _) => cbv zeta
  | |- keeps _ (and_then _ _ _) => unfold and_then
  | |- keeps _ (or_else _ _ _) => unfold or_else
  end.

Ltac pending :=
  repeat first
    [ pending_step
    | progress unfold_scripts
    | apply preserves_keeps_eq; solve [frame_with durable_side] ].

Section Window.

Context (P : Platform).

Lemma filter_flush_removed (id : nat) (ts : list (nat * (nat * Task))) :
  ~ In id (map fst (List.filter is_flush ts)) ->
  List.filter is_flush
    (List.filter (fun e => negb (Nat.eqb (fst e) id)) ts)
  = List.filter is_flush ts.
Proof.
  induction ts as [|e ts IH]; simpl; intros H; [reflexivity|].
  destruct (is_flush e) eqn:Ed; simpl in H.
  - destruct (Nat.eqb (fst e) id) eqn:Ei; simpl.
    + apply Nat.eqb_eq in Ei. tauto.
    + rewrite Ed. f_equal. apply IH. tauto.
  - destruct (Nat.eqb (fst e) id) eqn:Ei; simpl; rewrite ?Ed; auto.
Qed.

Lemma removed_flush_view (id : nat) (w : World P) :
  ~ In id (map fst (List.filter is_flush (timers P w))) ->
  flush_view P (removed P id w) = flush_view P w.
Proof.
  intros H. unfold flush_view, removed. simpl. now rewrite filter_flush_removed.
Qed.

Lemma flush_view_parts (w1 w2 : World P) :
  flush_view P w1 = flush_view P w2 ->
  payload_writes (log P w1) = payload_writes (log P w2)
  /\ deferredPayloadWriteTimer P w1 = deferredPayloadWriteTimer P w2
  /\ List.filter is_flush (timers P w1) = List.filter is_flush (timers P w2).
Proof. unfold flush_view. intros H. injection H. auto. Qed.

(** While a deferred write is pending, a callback other than the flush
    writes nothing and leaves the pending write as it is. *)
Lemma foreign_task_pending (task : Task) (id : nat) (w : World P) :
  task <> TFlush -> deferredPayloadWriteTimer P w = Some id ->
  flush_view P (exec P (runTask P task) w) = flush_view P w.
Proof.
  intros Ht Hd.
  assert (K : keeps (fun w' => flush_view P w' = flush_view P w) (runTask P task)).
  { unfold flush_view at 2. rewrite Hd. destruct task; [congruence| | |]; pending. }
  now apply K.
Qed.

Lemma fire_pending (i id : nat) (w : World P) :
  deferredPayloadWriteTimer P w = Some id ->
  ~ In i (map fst (List.filter is_flush (timers P w))) ->
  flush_view P (fire P w i) = flush_view P w.
Proof.
  intros Hd Hi.
  destruct (find_timer i (timers P w)) as [task|] eqn:Ef;
    [|now rewrite fire_idle].
  rewrite (fire_value _ _ _ _ Ef).
  rewrite (foreign_task_pending task id); [now apply removed_flush_view| |exact Hd].
  intros ->. apply Hi. destruct (find_timer_In _ _ _ Ef) as [d Hin].
  apply in_map_iff. exists (i, (d, TFlush)). split; [reflexivity|].
  apply filter_In. split; [exact Hin|reflexivity].
Qed.

Lemma fold_fire_pending (ids : list nat) (id : nat) (w : World P) :
  deferredPayloadWriteTimer P w = Some id ->
  (forall i, In i ids -> ~ In i (map fst (List.filter is_flush (timers P w)))) ->
  flush_view P (fold_left (fire P) ids w) = flush_view P w.
Proof.
  revert w. induction ids as [|i ids IH]; simpl; intros w Hd Hids; [reflexivity|].
  assert (Hq : flush_view P (fire P w i) = flush_view P w)
    by (eapply fire_pending; eauto).
  destruct (flush_view_parts _ _ Hq) as (_ & Ed & Ef).
  rewrite IH; [exact Hq|congruence|].
  intros j Hj. rewrite Ef. auto.
Qed.

Lemma flush_entry_In (id d : nat) (w : World P) :
  List.filter is_flush (timers P w) = [(id, (d, TFlush))] ->
  In (id, (d, TFlush)) (timers P w).
Proof.
  intros H. assert (Hin : In (id, (d, TFlush)) (List.filter is_flush (timers P w)))
    by (rewrite H; now left).
  now apply filter_In in Hin.
Qed.

(** A millisecond passes before the deferred write is due: nothing is
    written, the write stays pending. *)
Lemma tick_pending (w : World P) (id d : nat) :
  timers_wf P w -> deferredPayloadWriteTimer P w = Some id ->
  List.filter is_flush (timers P w) = [(id, (d, TFlush))] ->
  (S (now P w) < d)%nat ->
  flush_view P (tick P w) = flush_view P w.
Proof.
  intros Hw Hd Hf Hlt. rewrite tick_value.
  change (flush_view P w) with (flush_view P (set_now P (S (now P w)) w)).
  apply (fold_fire_pending _ id); [exact Hd|].
  intros i Hi. simpl. rewrite Hf. simpl. intros [<-|[]].
  destruct (due_ids_In _ _ _ Hi) as (d' & task & Hin & Hle).
  pose proof (NoDup_fst_eq _ _ _ _ (wf_distinct P w Hw) Hin
                (flush_entry_In _ _ _ Hf)) as E.
  injection E as -> _. lia.
Qed.

Lemma now_tick (w : World P) : now P (tick P w) = S (now P w).
Proof.
  rewrite tick_value.
  assert (H : forall ids w', now P (fold_left (fire P) ids w') = now P w').
  { induction ids as [|i ids IH]; intros w'; simpl; [reflexivity|].
    rewrite IH. unfold fire. destruct (find_timer i (timers P w')) as [task|];
      [|reflexivity].
    assert (K : preserves (now P) (clearTimeout P (Some i) ;;; runTask P task)).
    { destruct task; frame. }
    apply K. }
  now rewrite H.
Qed.

Lemma now_advance (ms : nat) (w : World P) :
  now P (advance P ms w) = (now P w + ms)%nat.
Proof.
  revert w. induction ms as [|ms IH]; intros w; simpl; [lia|].
  rewrite IH, now_tick. lia.
Qed.

(** The window: until the deferred write is due nothing is written and
    the write stays pending, whatever else fires. *)
Lemma advance_pending (ms : nat) (w : World P) (id d : nat) :
  timers_wf P w -> deferredPayloadWriteTimer P w = Some id ->
  List.filter is_flush (timers P w) = [(id, (d, TFlush))] ->
  (now P w + ms < d)%nat ->
  flush_view P (advance P ms w) = flush_view P w.
Proof.
  revert w. induction ms as [|ms IH]; intros w Hw Hd Hf Hlt; simpl; [reflexivity|].
  assert (Hq : flush_view P (tick P w) = flush_view P w)
    by (eapply tick_pending; eauto; lia).
  destruct (flush_view_parts _ _ Hq) as (_ & Ed & Ef).
  rewrite IH; [exact Hq|now apply tick_wf|congruence|congruence|].
  rewrite now_tick. lia.
Qed.

End Window.

(** Timer identifiers only grow: [N] bounds the next identifier from
    below, [L] the identifier of a pending deferred write. *)
Definition newer (P : Platform) (N L : nat) (w : World P) : Prop :=
  (N <= nextTimer P w)%nat
  /\ forall j, deferredPayloadWriteTimer P w = Some j -> (L <= j)%nat.

Lemma newer_view (P : Platform) (N L : nat) (w w' : World P) :
  (nextTimer P w', deferredPayloadWriteTimer P w')
  = (nextTimer P w, deferredPayloadWriteTimer P w) ->
  newer P N L w -> newer P N L w'.
Proof.
  intros E [H1 H2]. injection E as E1 E2. unfold newer.
  rewrite E1, E2. split; assumption.
Qed.

Lemma preserves_keeps_newer {P : Platform} {A} (N L : nat) (m : M P A) :
  preserves (fun w => (nextTimer P w, deferredPayloadWriteTimer P w)) m ->
  keeps (newer P N L) m.
Proof. intros H w Hw. eapply newer_view; [apply H|exact Hw]. Qed.

Lemma setTimeout_newer (P : Platform) (N L : nat) (task : Task) (delay : nat) :
  keeps (newer P N L) (setTimeout P task delay).
Proof. intros w [H1 H2]. split; simpl; [lia|exact H2]. Qed.

Lemma schedulePersistPayloadCache_newer (P : Platform) (N L : nat) :
  (L <= N)%nat -> keeps (newer P N L) (schedulePersistPayloadCache P).
Proof.
  intros HLN w [H1 H2].
  destruct (deferredPayloadWriteTimer P w) as [id|] eqn:E.
  - rewrite (schedulePersistPayloadCache_absorbed P id w E). simpl.
    split; [exact H1|]. now rewrite E.
  - rewrite (schedulePersistPayloadCache_arms P w E).
    split; simpl; [lia|]. intros j [= <-]. lia.
Qed.

Lemma flushPayloadCache_newer (P : Platform) (N L : nat) :
  keeps (newer P N L) (flushPayloadCache P).
Proof.
  intros w [H1 H2]. rewrite flushPayloadCache_value.
  split; simpl; [exact H1|discriminate].
Qed.

Ltac newer_step :=
  match goal with
  | |- keeps _ (bind _ _) => apply keeps_bind; [|intros]
  | |- keeps _ (try_catch _ _) => apply keeps_try_catch; [|intros]
  | |- keeps _ (repeat_m _ _ _) => apply keeps_repeat_m
  | |- keeps _ (for_each _ _ _) => apply keeps_for_each; intros
  | |- keeps _ (schedulePersistPayloadCache _) =>
      apply schedulePersistPayloadCache_newer; assumption
  | |- keeps _ (flushPayloadCache _) => apply flushPayloadCache_newer
  | |- keeps _ (setTimeout _ _ _) => apply setTimeout_newer
  | |- keeps _ (if ?b then _ else _) => destruct b
  | |- keeps _ (match ?x with _ => _ end) => destruct x
  | |- keeps _ (let _ := _ in _) => cbv zeta
  | |- keeps _ (and_then _ _ _) => unfold and_then
  | |- keeps _ (or_else _ _ _) => unfold or_else
  end.

Ltac newer_tac :=
  repeat first
    [ newer_step
    | progress unfold readBlendIds, fetchServerUnitMap, mem_set,
        collectFormData, transientUnitKey, saveTransientToMemory,
        attachAutosaveListenersOnce, prefetchBody, runTask
    | apply preserves_keeps_newer; solve [frame] ].

Section Deadline.

Context (P : Platform).

Lemma runTask_newer (N L : nat) (task : Task) :
  (L <= N)%nat -> keeps (newer P N L) (runTask P task).
Proof. intros HLN. destruct task; newer_tac. Qed.

Lemma fire_newer (N L : nat) (i : nat) (w : World P) :
  (L <= N)%nat -> newer P N L w -> newer P N L (fire P w i).
Proof.
  intros HLN Hw. destruct (find_timer i (timers P w)) as [task|] eqn:Ef;
    [|now rewrite fire_idle].
  rewrite (fire_value _ _ _ _ Ef). apply runTask_newer; [exact HLN|].
  eapply newer_view; [|exact Hw]. reflexivity.
Qed.

Lemma fold_fire_newer (N L : nat) (ids : list nat) (w : World P) :
  (L <= N)%nat -> newer P N L w -> newer P N L (fold_left (fire P) ids w).
Proof.
  intros HLN. revert w. induction ids as [|i ids IH]; simpl; intros w Hw;
    [exact Hw|].
  apply IH. now apply fire_newer.
Qed.

(** A callback other than the flush writes nothing. *)
Lemma foreign_task_indirect (task : Task) :
  task <> TFlush -> indirect (runTask P task).
Proof.
  intros Ht. destruct task; [congruence| | |]; simpl.
  - apply saveTransientToMemory_indirect.
  - apply attachAutosaveListenersOnce_indirect.
  - apply prefetchBody_indirect.
Qed.

(** Once the flush has run, the timers that were already due write
    nothing: a deferred write they set is due later, under a new
    identifier. *)
Lemma fold_fire_after_flush (N : nat) (ids : list nat) (w : World P) :
  timers_wf P w -> newer P N N w ->
  (forall i, In i ids -> (i < N)%nat) ->
  payload_writes (log P (fold_left (fire P) ids w)) = payload_writes (log P w).
Proof.
  revert w. induction ids as [|i ids IH]; simpl; intros w Hw Hn Hids;
    [reflexivity|].
  rewrite IH; [|now apply fire_wf|now apply fire_newer|auto].
  destruct (find_timer i (timers P w)) as [task|] eqn:Ef;
    [|now rewrite fire_idle].
  rewrite (fire_value _ _ _ _ Ef).
  assert (Ht : task <> TFlush).
  { intros ->. destruct (find_timer_In _ _ _ Ef) as [d Hin].
    pose proof (wf_flush_only P w Hw _ Hin eq_refl) as Hd. simpl in Hd.
    destruct Hn as [_ Hn]. specialize (Hn i Hd).
    specialize (Hids i (or_introl eq_refl)). lia. }
  unfold exec. rewrite (foreign_task_indirect task Ht). reflexivity.
Qed.

(** The deferred write fires: one write, of the whole memory tier, and
    the timer variable is cleared. *)
Lemma fire_flush (id d : nat) (w : World P) :
  timers_wf P w ->
  List.filter is_flush (timers P w) = [(id, (d, TFlush))] ->
  payload_writes (log P (fire P w id))
  = payload_writes (log P w)
    ++ [JSON_stringify P (JObj (inMemoryPayloadCache P w))]
  /\ deferredPayloadWriteTimer P (fire P w id) = None
  /\ nextTimer P (fire P w id) = nextTimer P w.
Proof.
  intros Hw Hf.
  rewrite (fire_value P id TFlush w)
    by (eapply find_timer_unique;
        [apply (wf_distinct P w Hw)|apply (flush_entry_In P _ _ _ Hf)]).
  unfold exec, runTask. rewrite flushPayloadCache_value. simpl.
  rewrite payload_writes_app. simpl. auto.
Qed.

(** The timers queued ahead of [id]. *)
Fixpoint ahead (id : nat) (ids : list nat) : list nat :=
  match ids with
  | [] => []
  | i :: r => if Nat.eqb i id then [] else i :: ahead id r
  end.

Lemma ahead_split (id : nat) (l1 l2 : list nat) :
  ~ In id l1 -> ahead id (l1 ++ id :: l2) = l1.
Proof.
  induction l1 as [|i l1 IH]; simpl; intros H.
  - now rewrite Nat.eqb_refl.
  - destruct (Nat.eqb i id) eqn:E.
    + apply Nat.eqb_eq in E. tauto.
    + f_equal. apply IH. tauto.
Qed.

(** The world in which the timer [id], due at the next tick, fires: the
    timers queued ahead of it have run. *)
Definition flush_moment (id : nat) (w : World P) : World P :=
  fold_left (fire P) (ahead id (due_ids P w)) (set_now P (S (now P w)) w).

(** The millisecond at which the deferred write is due: exactly one
    write, of the whole memory tier as it is when the timer fires. *)
Lemma tick_flushes (w : World P) (id : nat) :
  timers_wf P w -> deferredPayloadWriteTimer P w = Some id ->
  List.filter is_flush (timers P w) = [(id, (S (now P w), TFlush))] ->
  payload_writes (log P (tick P w))
  = payload_writes (log P w)
    ++ [JSON_stringify P (JObj (inMemoryPayloadCache P (flush_moment id w)))].
Proof.
  intros Hw Hd Hf. rewrite tick_value. unfold flush_moment.
  set (w1 := set_now P (S (now P w)) w).
  assert (Hw1 : timers_wf P w1) by (eapply timers_wf_view; [|exact Hw]; reflexivity).
  assert (Hin : In id (due_ids P w)).
  { unfold due_ids. apply in_map_iff. exists (id, (S (now P w), TFlush)).
    split; [reflexivity|]. apply filter_In.
    split; [apply (flush_entry_In P _ _ _ Hf)|]. simpl. apply Nat.leb_refl. }
  assert (Hnd : List.NoDup (due_ids P w)).
  { unfold due_ids. apply NoDup_map_filter. apply (wf_distinct P w Hw). }
  assert (Hold : forall i, In i (due_ids P w) -> (i < nextTimer P w)%nat).
  { intros i Hi. destruct (due_ids_In P _ _ Hi) as (d' & task & Hi' & _).
    apply (wf_fresh P w Hw _ Hi'). }
  apply in_split in Hin as (l1 & l2 & Hsplit). rewrite Hsplit in *.
  pose proof (List.NoDup_remove_2 _ _ _ Hnd) as Hni.
  rewrite ahead_split by (intros H; apply Hni; apply in_or_app; now left).
  rewrite fold_left_app. simpl.
  set (wa := fold_left (fire P) l1 w1).
  assert (Hqa : flush_view P wa = flush_view P w1).
  { apply (fold_fire_pending P _ id); [exact Hd|].
    intros i Hi. simpl. rewrite Hf. simpl. intros [<-|[]].
    apply Hni. apply in_or_app. now left. }
  assert (Hwa : timers_wf P wa) by now apply fold_fire_wf.
  assert (Hna : newer P (nextTimer P w) 0 wa).
  { apply fold_fire_newer; [lia|]. split; simpl; [lia|intros; lia]. }
  destruct (flush_view_parts P _ _ Hqa) as (Epa & _ & Efa).
  simpl in Efa, Epa. rewrite Hf in Efa.
  destruct (fire_flush id _ wa Hwa Efa) as (Hb1 & Hb2 & Hb3).
  rewrite (fold_fire_after_flush (nextTimer P w)).
  - rewrite Hb1, Epa. reflexivity.
  - now apply fire_wf.
  - split; [rewrite Hb3; apply Hna|]. rewrite Hb2. discriminate.
  - intros i Hi. apply Hold. apply in_or_app. right. now right.
Qed.

End Deadline.

Section BatchingWindow.

Context (P : Platform).

(** With none pending, a call sets the one deferred write of the queue. *)
Lemma schedulePersistPayloadCache_opens (w : World P) :
  timers_wf P w -> deferredPayloadWriteTimer P w = None ->
  let w1 := exec P (schedulePersistPayloadCache P) w in
  timers_wf P w1
  /\ deferredPayloadWriteTimer P w1 = Some (nextTimer P w)
  /\ List.filter is_flush (timers P w1)
     = [(nextTimer P w, ((now P w + 300)%nat, TFlush))]
  /\ now P w1 = now P w
  /\ payload_writes (log P w1) = payload_writes (log P w).
Proof.
  intros Hw Hd w1.
  assert (Hw1 : timers_wf P w1) by (apply schedulePersistPayloadCache_wf; exact Hw).
  subst w1. unfold exec in *.
  rewrite (schedulePersistPayloadCache_arms P w Hd) in *. simpl.
  split; [exact Hw1|]. split; [reflexivity|]. split; [|split; reflexivity].
  rewrite List.filter_app. simpl.
  destruct (List.filter is_flush (timers P w)) as [|e l] eqn:E; [reflexivity|].
  assert (Hin : In e (e :: l)) by now left.
  rewrite <- E in Hin. apply filter_In in Hin as [Hin He].
  pose proof (wf_flush_only P w Hw e Hin He) as H. congruence.
Qed.

(** Until the deferred write is due, nothing is written and further calls
    are absorbed. *)
Lemma window_quiet (k ms id : nat) (w : World P) :
  timers_wf P w -> deferredPayloadWriteTimer P w = Some id ->
  List.filter is_flush (timers P w) = [(id, ((now P w + S k)%nat, TFlush))] ->
  (ms <= k)%nat ->
  payload_writes (log P (advance P ms w)) = payload_writes (log P w)
  /\ schedulePersistPayloadCache P (advance P ms w) = (Return tt, advance P ms w).
Proof.
  intros Hw Hd Hf Hms.
  assert (Hq : flush_view P (advance P ms w) = flush_view P w)
    by (eapply advance_pending; eauto; lia).
  destruct (flush_view_parts P _ _ Hq) as (Ep & Ed & _).
  split; [exact Ep|].
  apply (schedulePersistPayloadCache_absorbed P id). congruence.
Qed.

(** When it is due, it is written once: the whole memory tier. *)
Lemma window_flush (k id : nat) (w : World P) :
  timers_wf P w -> deferredPayloadWriteTimer P w = Some id ->
  List.filter is_flush (timers P w) = [(id, ((now P w + S k)%nat, TFlush))] ->
  payload_writes (log P (advance P (S k) w))
  = payload_writes (log P w)
    ++ [JSON_stringify P
          (JObj (inMemoryPayloadCache P (flush_moment P id (advance P k w))))].
Proof.
  intros Hw Hd Hf.
  replace (S k) with (k + 1)%nat by lia. rewrite advance_add.
  assert (Hq : flush_view P (advance P k w) = flush_view P w)
    by (eapply advance_pending; eauto; lia).
  assert (Hwq : timers_wf P (advance P k w)) by now apply advance_wf.
  pose proof (now_advance P k w) as Hn.
  remember (advance P k w) as wq eqn:Ewq. clear Ewq.
  destruct (flush_view_parts P _ _ Hq) as (Ep & Ed & Ef).
  change (advance P 1 wq) with (tick P wq).
  rewrite (tick_flushes P wq id Hwq); [now rewrite Ep|congruence|].
  rewrite Ef, Hf, Hn. do 3 f_equal. lia.
Qed.

End BatchingWindow.

(** C3, as stated, fails: an explicit save and a load from the server
    each write the payload-cache key at once, with no deferred write set
    or pending, and what they write is the stored snapshot with one entry
    replaced, not the memory tier. *)
Lemma saveToServer_writes_directly :
  let w := Reference.fresh [("rows", JArr [JStr "coal-7"])]
             [Response true (Some (JObj []));
              Response true (Some (JObj [("id", JStr "abc123")]));
              Response true (Some (JObj []));
              Response true (Some (JObj [("1", JStr "abc123")]))] in
  let w' := exec Reference.platform (saveToServer Reference.platform) w in
  let v := Reference.fresh []
             [Response true (Some (JObj [("1", JStr "abc123")]));
              Response true (Some (JObj [("rows", JArr [JStr "coal-7"])]))] in
  let v' := exec Reference.platform (loadUnitData Reference.platform 1) v in
  (payload_writes (log Reference.platform w) = []
   /\ payload_writes (log Reference.platform w')
      = [Reference.stringify (JObj [("1", collected Reference.platform w)])]
   /\ List.filter is_flush (timers Reference.platform w') = []
   /\ deferredPayloadWriteTimer Reference.platform w' = None
   /\ now Reference.platform w' = now Reference.platform w)
  /\ (payload_writes (log Reference.platform v) = []
      /\ payload_writes (log Reference.platform v')
         = [Reference.stringify (JObj [("1", JObj [("rows", JArr [JStr "coal-7"])])])]
      /\ List.filter is_flush (timers Reference.platform v') = []
      /\ deferredPayloadWriteTimer Reference.platform v' = None
      /\ now Reference.platform v' = now Reference.platform v)
  /\ ~ indirect (saveToServer Reference.platform)
  /\ ~ indirect (loadUnitData Reference.platform 1).
Proof.
  intros w w' v v'.
  assert (Hw : payload_writes (log Reference.platform w')
               = [Reference.stringify (JObj [("1", collected Reference.platform w)])])
    by (vm_compute; reflexivity).
  assert (Hv : payload_writes (log Reference.platform v')
               = [Reference.stringify
                    (JObj [("1", JObj [("rows", JArr [JStr "coal-7"])])])])
    by (vm_compute; reflexivity).
  split; [|split; [|split]].
  - repeat split; try exact Hw; vm_compute; reflexivity.
  - repeat split; try exact Hv; vm_compute; reflexivity.
  - intros H. specialize (H w). cbv beta in H.
    change (snd (saveToServer Reference.platform w)) with w' in H.
    rewrite Hw in H. vm_compute in H. discriminate.
  - intros H. specialize (H v). cbv beta in H.
    change (snd (loadUnitData Reference.platform 1 v)) with v' in H.
    rewrite Hv in H. vm_compute in H. discriminate.
Qed.

(** C3, amended. The debounced capture, the background reconciliation,
    the prefetch, the unit switch, an edit and [schedulePersistPayloadCache]
    itself never write the payload-cache key.  A call of
    [schedulePersistPayloadCache] with no deferred write pending opens a
    window of 300 ms: at every millisecond before its end nothing has been
    written under the key, whatever timers fired, and a further call does
    nothing; at its end the key has been written exactly once, with the
    serialisation of the whole memory tier as it is when the timer
    fires. *)
Theorem durable_writes_deferred (P : Platform) (w : World P) :
  timers_wf P w -> deferredPayloadWriteTimer P w = None ->
  let w1 := exec P (schedulePersistPayloadCache P) w in
  (indirect (saveTransientToMemory P)
   /\ (forall u, indirect (backgroundFetch P u))
   /\ (forall current, indirect (prefetchBody P current))
   /\ (forall u, indirect (setCurrentUnitFast P u))
   /\ (forall change, indirect (editEvent P change))
   /\ indirect (schedulePersistPayloadCache P))
  /\ (forall ms, (ms < 300)%nat ->
        payload_writes (log P (advance P ms w1)) = payload_writes (log P w)
        /\ schedulePersistPayloadCache P (advance P ms w1)
           = (Return tt, advance P ms w1))
  /\ payload_writes (log P (advance P 300 w1))
     = payload_writes (log P w)
       ++ [JSON_stringify P
             (JObj (inMemoryPayloadCache P
                      (flush_moment P (nextTimer P w) (advance P 299 w1))))].
Proof.
  intros Hw Hd w1.
  destruct (schedulePersistPayloadCache_opens P w Hw Hd) as (H1 & H2 & H3 & H4 & H5).
  fold w1 in H1, H2, H3, H4, H5. rewrite <- H4 in H3.
  split; [|split].
  - split; [apply saveTransientToMemory_indirect|].
    split; [apply backgroundFetch_indirect|].
    split; [apply prefetchBody_indirect|].
    split; [apply setCurrentUnitFast_indirect|].
    split; [apply editEvent_indirect|apply schedulePersistPayloadCache_indirect].
  - intros ms Hms. rewrite <- H5.
    apply (window_quiet P 299 ms (nextTimer P w) w1 H1 H2 H3). lia.
  - rewrite <- H5. exact (window_flush P 299 (nextTimer P w) w1 H1 H2 H3).
Qed.

Lemma durable_writes_deferred_witness :
  let w := Reference.fresh [("rows", JArr [JStr "coal-7"])] [] in
  let w1 := exec Reference.platform
              (schedulePersistPayloadCache Reference.platform) w in
  payload_writes (log Reference.platform (advance Reference.platform 299 w1)) = []
  /\ payload_writes (log Reference.platform (advance Reference.platform 300 w1))
     = [Reference.stringify (JObj [])].
Proof.
  intros w w1.
  pose proof (durable_writes_deferred Reference.platform w
                (fresh_timers_wf _ _) eq_refl) as H.
  cbv zeta in H. destruct H as (_ & H2 & H3). split.
  - destruct (H2 299%nat ltac:(lia)) as [H _]. exact H.
  - unfold w1. rewrite H3. vm_compute. reflexivity.
Defined.

(** The burst of edits of [burst_run], followed to the end of the window
    its capture opens: the capture is made 180 ms after the last edit, and
    one write follows 300 ms later, of the memory tier holding that
    capture. *)
Example burst_flush :
  payload_writes (log Reference.platform (advance Reference.platform 479 burst)) = []
  /\ payload_writes (log Reference.platform (advance Reference.platform 1000 burst))
     = [Reference.stringify
          (JObj (inMemoryPayloadCache Reference.platform
                   (advance Reference.platform 1000 burst)))]
  /\ map (fun e => fst e) (inMemoryPayloadCache Reference.platform
                             (advance Reference.platform 1000 burst)) = ["1"].
Proof. vm_compute. repeat split. Qed.

(** * Further properties of the scripts *)

(** ** What the user is told *)

(** The alerts among the events of a log. *)
Definition alerts (l : list Event) : list AlertKind :=
  flat_map (fun e => match e with EvAlert k => [k] | _ => [] end) l.

Lemma alerts_app (l1 l2 : list Event) :
  alerts (l1 ++ l2) = alerts l1 ++ alerts l2.
Proof. unfold alerts. apply flat_map_app. Qed.

Ltac alerts_side :=
  intros; simpl; rewrite ?alerts_app; simpl; rewrite ?app_nil_r; reflexivity.

Section Announces.

Context {P : Platform}.

(** [m] shows no alert. *)
Definition silent {A} (m : M P A) : Prop :=
  preserves (fun w => alerts (log P w)) m.

(** [m] shows exactly one alert when it returns, and none when it
    throws. *)
Definition announces {A} (m : M P A) : Prop :=
  forall w,
    match m w with
    | (Return _, w') => exists k, alerts (log P w') = alerts (log P w) ++ [k]
    | (Throw _, w') => alerts (log P w') = alerts (log P w)
    end.

Lemma announces_alert (k : AlertKind) : announces (alert P k).
Proof. intros w. exists k. simpl. now rewrite alerts_app. Qed.

Lemma announces_bind {A B} (m : M P A) (k : A -> M P B) :
  silent m -> (forall a, announces (k a)) -> announces (bind m k).
Proof.
  intros Hm Hk w. unfold bind. specialize (Hm w). cbv beta in Hm.
  destruct (m w) as [[a|e] w1]; simpl in Hm.
  - specialize (Hk a w1). destruct (k a w1) as [[b|e] w2]; now rewrite <- Hm.
  - exact Hm.
Qed.

(** A handler that alerts makes the whole announce, and return. *)
Lemma announces_try_catch (m : M P unit) (k : AlertKind) (w : World P) :
  announces m ->
  exists k',
    fst (try_catch m (fun _ => alert P k) w) = Return tt
    /\ alerts (log P (snd (try_catch m (fun _ => alert P k) w)))
       = alerts (log P w) ++ [k'].
Proof.
  intros Hm. specialize (Hm w). unfold try_catch.
  destruct (m w) as [[[]|e] w1]; simpl.
  - destruct Hm as [k' Hk']. exists k'. auto.
  - exists k. rewrite alerts_app, Hm. auto.
Qed.

End Announces.

Ltac announce :=
  repeat first
    [ apply announces_alert
    | apply announces_bind; [solve [unfold silent; frame_with alerts_side]|intros]
    | match goal with
      | |- announces (if ?b then _ else _) => destruct b
      | |- announces (let _ := _ in _) => cbv zeta
      end ].

(** X1. Every explicit save tells the user how it went: [saveToServer] never
    raises, and shows exactly one alert, whatever the page, the store and
    the server do. *)
Theorem saveToServer_announces (P : Platform) (w : World P) :
  exists k,
    fst (saveToServer P w) = Return tt
    /\ alerts (log P (exec P (saveToServer P) w)) = alerts (log P w) ++ [k].
Proof.
  unfold exec, saveToServer. apply announces_try_catch. announce.
Qed.

(** ** The explicit save and the two cache tiers *)

Ltac tiers_side :=
  intros; simpl;
  rewrite ?lookup_insert_ne by discriminate;
  rewrite ?payload_writes_app; simpl; rewrite ?app_nil_r; reflexivity.

Section SaveTiers.

Context (P : Platform).

(** The cache tiers and the form: the memory tier, the text stored under
    the payload-cache key, the writes made under it, and the fields. *)
Definition tiers_view (w : World P) :=
  (inMemoryPayloadCache P w, localStorage P w !! PAYLOAD_CACHE_KEY,
   payload_writes (log P w), form P w).

Lemma getBlendIdForUnit_tiers (u : Z) : preserves tiers_view (getBlendIdForUnit P u).
Proof. unfold tiers_view. frame_with tiers_side. Qed.

Lemma stored_json_view (w1 w2 : World P) (key : string) :
  localStorage P w1 !! key = localStorage P w2 !! key ->
  stored_json P w1 key = stored_json P w2 key.
Proof. unfold stored_json. now intros ->. Qed.

(** Up to the save request: the payload is collected, the id resolved. *)
Lemma saveToServer_request (w w1 : World P) (idForUnit : jsval) :
  getBlendIdForUnit P (zor (currentUnit P w) 1) w = (Return idForUnit, w1) ->
  exists k,
    saveToServer P w
    = try_catch (bind (fetch P (save_request P w idForUnit)) k)
        (fun _ => alert P AlertError) w1
    /\ (forall n body,
          k (false, body) (requested P (save_request P w idForUnit) n w1)
          = alert P AlertFailed (requested P (save_request P w idForUnit) n w1)).
Proof.
  intros Hid. unfold saveToServer. eexists. split.
  - unfold try_catch at 1.
    erewrite bind_Return by apply collectFormData_value.
    erewrite bind_Return by apply readBlendIds_value.
    erewrite bind_Return by reflexivity.
    cbv zeta.
    erewrite bind_Return by exact Hid.
    fold (save_request P w idForUnit). reflexivity.
  - intros n body. reflexivity.
Qed.

End SaveTiers.

(** X2. A save the server refuses, or that does not reach it, changes
    neither cache tier nor the form: it makes its one request and tells
    the user, [Failed] for an answer that is not OK and [Error] for a
    rejected request. *)
Theorem saveToServer_failure (P : Platform) (w w1 : World P) (idForUnit : jsval)
    (reply : Reply) (n : Net P) :
  getBlendIdForUnit P (zor (currentUnit P w) 1) w = (Return idForUnit, w1) ->
  serve P (save_request P w idForUnit) (net P w1) = (reply, n) ->
  (forall body, reply <> Response true body) ->
  let w' := exec P (saveToServer P) w in
  inMemoryPayloadCache P w' = inMemoryPayloadCache P w
  /\ localStorage P w' !! PAYLOAD_CACHE_KEY = localStorage P w !! PAYLOAD_CACHE_KEY
  /\ payload_writes (log P w') = payload_writes (log P w)
  /\ form P w' = form P w
  /\ requests (log P w') = requests (log P w1) ++ [save_request P w idForUnit]
  /\ blend_writes (log P w') = blend_writes (log P w1)
  /\ alerts (log P w')
     = alerts (log P w)
       ++ [match reply with NetworkFailure => AlertError | _ => AlertFailed end].
Proof.
  intros Hid Hserve Hbad w'.
  pose proof (getBlendIdForUnit_tiers P (zor (currentUnit P w) 1) w) as Ht.
  rewrite Hid in Ht. unfold tiers_view in Ht. simpl in Ht.
  injection Ht as Hm Hs Hp Hf.
  assert (Ha : alerts (log P w1) = alerts (log P w)).
  { assert (H : silent (getBlendIdForUnit P (zor (currentUnit P w) 1)))
      by (unfold silent; frame_with alerts_side).
    specialize (H w). now rewrite Hid in H. }
  destruct (saveToServer_request P w w1 idForUnit Hid) as (k & Hk & Hfail).
  subst w'. unfold exec. rewrite Hk.
  destruct reply as [|[|] body].
  - erewrite try_catch_Throw
      by (erewrite bind_Throw; [reflexivity|apply fetch_NetworkFailure; exact Hserve]).
    simpl. rewrite requests_app, blend_writes_app, alerts_app, payload_writes_app.
    simpl. rewrite !requests_app, !blend_writes_app, !alerts_app, !payload_writes_app.
    simpl. rewrite !app_nil_r, Hm, Hs, Hp, Hf, Ha. repeat split; reflexivity.
  - exfalso. now apply (Hbad body).
  - erewrite try_catch_Return; cycle 1.
    { erewrite bind_Return by (apply fetch_Response; exact Hserve).
      apply Hfail. }
    simpl. rewrite requests_app, blend_writes_app, alerts_app, payload_writes_app.
    simpl. rewrite !requests_app, !blend_writes_app, !alerts_app, !payload_writes_app.
    simpl. rewrite !app_nil_r, Hm, Hs, Hp, Hf, Ha. repeat split; reflexivity.
Qed.

Lemma saveToServer_failure_witness :
  let w := Reference.fresh [("rows", JArr [JStr "coal-7"])]
             [Response true (Some (JObj [])); Response false None] in
  let w' := exec Reference.platform (saveToServer Reference.platform) w in
  inMemoryPayloadCache Reference.platform w' = []
  /\ payload_writes (log Reference.platform w') = []
  /\ alerts (log Reference.platform w') = [AlertFailed].
Proof.
  intros w w'.
  eassert (H1 : getBlendIdForUnit Reference.platform 1 w = (Return JNull, _))
    by vm_solve_eq.
  match type of H1 with
  | _ = (_, ?w1) =>
      eassert (H2 : serve Reference.platform
                      (save_request Reference.platform w JNull)
                      (net Reference.platform w1) = (Response false None, _))
        by vm_solve_eq
  end.
  destruct (saveToServer_failure Reference.platform w _ JNull _ _ H1 H2
              ltac:(intros; discriminate))
    as (Hm & _ & Hp & _ & _ & _ & Ha).
  split; [exact Hm|]. split; [exact Hp|exact Ha].
Defined.

(** X3. A save the server accepts for a unit whose id was resolved (an
    update), with an object stored as payload cache: the entry of the unit
    is replaced in that snapshot and the snapshot written back at once,
    and the memory tier gets the same entry, the payload the server
    echoed under [payload] or [data] if any and the collected one
    otherwise; the other entries of the memory tier stay, the fallback map
    is not written, no request follows the update, and the user is told
    [Saved]. *)
Theorem saveToServer_update_tiers (P : Platform) (w w1 : World P)
    (idForUnit : jsval) (props cached : list (string * jsval)) (n : Net P) :
  let key := String_of_Z (zor (currentUnit P w) 1) in
  let data := JObj props in
  let chosen := jor (jor (jor (field props "payload") (field props "data")) JNull)
                  (collected P w) in
  getBlendIdForUnit P (zor (currentUnit P w) 1) w = (Return idForUnit, w1) ->
  truthy idForUnit = true ->
  serve P (save_request P w idForUnit) (net P w1) = (Response true (Some data), n) ->
  stored_json P w PAYLOAD_CACHE_KEY = JObj cached ->
  let w' := exec P (saveToServer P) w in
  field (inMemoryPayloadCache P w') key = chosen
  /\ (forall k, k <> key ->
        field (inMemoryPayloadCache P w') k = field (inMemoryPayloadCache P w) k)
  /\ payload_writes (log P w')
     = payload_writes (log P w)
       ++ [JSON_stringify P (JObj (obj_set key chosen cached))]
  /\ localStorage P w' !! PAYLOAD_CACHE_KEY
     = Some (JSON_stringify P (JObj (obj_set key chosen cached)))
  /\ requests (log P w') = requests (log P w1) ++ [save_request P w idForUnit]
  /\ blend_writes (log P w') = blend_writes (log P w1)
  /\ alerts (log P w') = alerts (log P w) ++ [AlertSaved].
Proof.
  intros key data chosen Hid Htruthy Hserve Hcache w'.
  pose proof (getBlendIdForUnit_tiers P (zor (currentUnit P w) 1) w) as Ht.
  rewrite Hid in Ht. unfold tiers_view in Ht. simpl in Ht.
  injection Ht as Hm Hs Hp Hf.
  assert (Ha : alerts (log P w1) = alerts (log P w)).
  { assert (H : silent (getBlendIdForUnit P (zor (currentUnit P w) 1)))
      by (unfold silent; frame_with alerts_side).
    specialize (H w). now rewrite Hid in H. }
  assert (Hc1 : stored_json P (requested P (save_request P w idForUnit) n w1)
                  PAYLOAD_CACHE_KEY = JObj cached).
  { rewrite <- Hcache. apply stored_json_view. exact Hs. }
  unfold requested in Hc1.
  assert (E : saveToServer P w
              = (Return tt,
                 emit P (EvAlert AlertSaved)
                   (set_inMemoryPayloadCache P
                      (obj_set key chosen (inMemoryPayloadCache P w1))
                      (emit P (EvSetItem PAYLOAD_CACHE_KEY
                                 (JSON_stringify P (JObj (obj_set key chosen cached))))
                         (set_localStorage P
                            (<[PAYLOAD_CACHE_KEY :=
                                 JSON_stringify P (JObj (obj_set key chosen cached))]>
                               (localStorage P w1))
                            (requested P (save_request P w idForUnit) n w1)))))).
  { unfold saveToServer. apply try_catch_Return.
    erewrite bind_Return by apply collectFormData_value.
    erewrite bind_Return by apply readBlendIds_value.
    erewrite bind_Return by reflexivity.
    cbv zeta. fold key.
    erewrite bind_Return by exact Hid.
    fold (save_request P w idForUnit).
    erewrite bind_Return by (apply fetch_Response; exact Hserve).
    msimp.
    erewrite bind_Return by reflexivity.
    erewrite bind_Return by reflexivity.
    erewrite bind_Return by (apply or_else_prop; reflexivity).
    rewrite Htruthy. msimp.
    erewrite bind_Return by reflexivity.
    erewrite bind_Return; [reflexivity|].
    apply try_catch_Return.
    erewrite bind_Return by apply readPayloadCache_value.
    rewrite Hc1.
    erewrite bind_Return by reflexivity.
    erewrite bind_Return by (apply or_else_prop; reflexivity).
    cbv zeta.
    erewrite bind_Return by reflexivity.
    erewrite bind_Return by reflexivity.
    erewrite bind_Return
      by (unfold prop; simpl; rewrite field_obj_set; reflexivity).
    reflexivity. }
  subst w'. unfold exec. rewrite E. unfold requested. simpl.
  rewrite ?requests_app, ?blend_writes_app, ?alerts_app, ?payload_writes_app.
  simpl. rewrite ?app_nil_r, Hm, Hp, Ha, lookup_insert_eq.
  split; [apply field_obj_set|].
  split; [intros k Hk; now apply field_obj_set_other|].
  repeat split; reflexivity.
Qed.

Lemma saveToServer_update_tiers_witness :
  let w := Reference.fresh [("rows", JArr [JStr "coal-7"])]
             [Response true (Some (JObj [("1", JStr "abc123")]));
              Response true (Some (JObj [("id", JStr "abc123")]))] in
  let w' := exec Reference.platform (saveToServer Reference.platform) w in
  field (inMemoryPayloadCache Reference.platform w') "1"
  = collected Reference.platform w
  /\ payload_writes (log Reference.platform w')
     = [Reference.stringify (JObj [("1", collected Reference.platform w)])]
  /\ alerts (log Reference.platform w') = [AlertSaved].
Proof.
  intros w w'.
  eassert (H1 : getBlendIdForUnit Reference.platform 1 w
                = (Return (JStr "abc123"), _)) by vm_solve_eq.
  match type of H1 with
  | _ = (_, ?w1) =>
      eassert (H2 : serve Reference.platform
                      (save_request Reference.platform w (JStr "abc123"))
                      (net Reference.platform w1)
                    = (Response true (Some (JObj [("id", JStr "abc123")])), _))
        by vm_solve_eq
  end.
  assert (H3 : stored_json Reference.platform w PAYLOAD_CACHE_KEY = JObj [])
    by (vm_compute; reflexivity).
  pose proof (saveToServer_update_tiers Reference.platform w _ (JStr "abc123")
                [("id", JStr "abc123")] [] _ H1 eq_refl H2 H3) as H.
  cbv zeta in H. destruct H as (Hm & _ & Hp & _ & _ & _ & Ha).
  evaluate_in Hm (String_of_Z (zor (currentUnit Reference.platform w) 1)).
  evaluate_in Hp (String_of_Z (zor (currentUnit Reference.platform w) 1)).
  unfold w'. split; [rewrite Hm; vm_compute; reflexivity|].
  split; [rewrite Hp; vm_compute; reflexivity|].
  rewrite Ha. reflexivity.
Defined.

(** ** The remote map *)

(** X4. [fetchServerUnitMap] never raises and always yields a truthy value,
    after exactly one request.  Unless the answer is OK and readable it
    yields the empty map and leaves the remote map in memory and the
    store as they were: a failed refresh does not wipe the mapping
    already known.  On an OK, readable answer the document is written as
    fallback map as it is, and installed as remote map, the empty map in
    its place when it is falsy. *)
Theorem fetchServerUnitMap_refresh (P : Platform) (w : World P) :
  let w' := snd (fetchServerUnitMap P w) in
  (exists map, fst (fetchServerUnitMap P w) = Return map /\ truthy map = true)
  /\ requests (log P w') = requests (log P w) ++ [reqUnits]
  /\ match fst (serve P reqUnits (net P w)) with
     | Response true (Some map) =>
         fst (fetchServerUnitMap P w) = Return (jor map (JObj []))
         /\ serverUnitMap P w' = jor map (JObj [])
         /\ localStorage P w' !! BLEND_IDS_KEY = Some (JSON_stringify P map)
     | _ =>
         fst (fetchServerUnitMap P w) = Return (JObj [])
         /\ serverUnitMap P w' = serverUnitMap P w
         /\ localStorage P w' = localStorage P w
     end.
Proof.
  intros w'. subst w'. rewrite fetchServerUnitMap_cases.
  destruct (serve P reqUnits (net P w)) as [[|[|] [map|]] n]; simpl;
    rewrite ?requests_app; simpl; rewrite ?app_nil_r.
  - split; [exists (JObj []); auto|]. auto.
  - split; [|rewrite lookup_insert_eq; auto].
    exists (jor map (JObj [])). split; [reflexivity|].
    unfold jor. destruct (truthy map) eqn:E; auto.
  - split; [exists (JObj []); auto|]. auto.
  - split; [exists (JObj []); auto|]. auto.
  - split; [exists (JObj []); auto|]. auto.
Qed.

(** ** The selected unit *)

Lemma try_catch_unit {P : Platform} (m : M P unit) (w : World P) :
  fst (try_catch m (ignore P tt) w) = Return tt.
Proof. unfold try_catch. destruct (m w) as [[[]|e] w1]; reflexivity. Qed.

Ltac selection_side :=
  intros; simpl; rewrite ?lookup_insert_ne by discriminate; reflexivity.


(** ** Timers do not pile up *)

(** What happens on the page: the user switches unit, edits a field,
    saves or loads; a started asynchronous function runs; time passes. *)
Inductive Action (P : Platform) : Type :=
| ASwitch (u : Z)
| AEdit (change : Form P -> Form P)
| ASave
| ALoad (u : Z)
| AJob (j : Job)
| AWait (ms : nat).
Arguments ASwitch {P} u.
Arguments AEdit {P} change.
Arguments ASave {P}.
Arguments ALoad {P} u.
Arguments AJob {P} j.
Arguments AWait {P} ms.

Definition act (P : Platform) (w : World P) (a : Action P) : World P :=
  match a with
  | ASwitch u => exec P (setCurrentUnitFast P u) w
  | AEdit change => exec P (editEvent P change) w
  | ASave => exec P (saveToServer P) w
  | ALoad u => exec P (loadUnitData P u) w
  | AJob j => exec P (runJob P j) w
  | AWait ms => advance P ms w
  end.

Definition session (P : Platform) (acts : list (Action P)) (w : World P) : World P :=
  fold_left (act P) acts w.

Section Bounded.

Context (P : Platform).

Lemma same_fst_NoDup {A B} (l : list (A * B)) (a : A) :
  List.NoDup (map fst l) -> (forall e, In e l -> fst e = a) -> (length l <= 1)%nat.
Proof.
  destruct l as [|e1 [|e2 l]]; simpl; intros Hnd Hall; try lia.
  exfalso. apply List.NoDup_cons_iff in Hnd as [Hni _]. apply Hni.
  left. rewrite (Hall e1), (Hall e2); auto.
Qed.

Lemma timers_wf_bounds (w : World P) :
  timers_wf P w ->
  (length (List.filter is_flush (timers P w)) <= 1)%nat
  /\ (length (List.filter is_debounced (timers P w)) <= 1)%nat
  /\ (deferredPayloadWriteTimer P w = None ->
      List.filter is_flush (timers P w) = [])
  /\ (debounce_t P w = None -> List.filter is_debounced (timers P w) = []).
Proof.
  intros Hw.
  assert (Hf : forall e, In e (List.filter is_flush (timers P w)) ->
                         deferredPayloadWriteTimer P w = Some (fst e)).
  { intros e He. apply filter_In in He as [Hin Hk].
    apply (wf_flush_only P w Hw e Hin Hk). }
  assert (Hd : forall e, In e (List.filter is_debounced (timers P w)) ->
                         debounce_t P w = Some (fst e)).
  { intros e He. apply filter_In in He as [Hin Hk].
    apply (wf_debounce_only P w Hw e Hin Hk). }
  pose proof (NoDup_map_filter fst is_flush _ (wf_distinct P w Hw)) as Nf.
  pose proof (NoDup_map_filter fst is_debounced _ (wf_distinct P w Hw)) as Nd.
  repeat split.
  - destruct (deferredPayloadWriteTimer P w) as [id|] eqn:E.
    + apply (same_fst_NoDup _ id Nf). intros e He. specialize (Hf e He). congruence.
    + destruct (List.filter is_flush (timers P w)) as [|e l]; simpl; [lia|].
      specialize (Hf e (or_introl eq_refl)). discriminate.
  - destruct (debounce_t P w) as [id|] eqn:E.
    + apply (same_fst_NoDup _ id Nd). intros e He. specialize (Hd e He). congruence.
    + destruct (List.filter is_debounced (timers P w)) as [|e l]; simpl; [lia|].
      specialize (Hd e (or_introl eq_refl)). discriminate.
  - intros E. destruct (List.filter is_flush (timers P w)) as [|e l]; [reflexivity|].
    specialize (Hf e (or_introl eq_refl)). congruence.
  - intros E. destruct (List.filter is_debounced (timers P w)) as [|e l]; [reflexivity|].
    specialize (Hd e (or_introl eq_refl)). congruence.
Qed.

Lemma loaded_timers_wf (w : World P) :
  timers P w = [] -> deferredPayloadWriteTimer P w = None ->
  debounce_t P w = None -> timers_wf P w.
Proof.
  intros Ht Hd Hb.
  split; rewrite ?Ht, ?Hd, ?Hb; simpl; try discriminate;
    try (intros ? []); try (intros ? ? ? []).
  constructor.
Qed.

Lemma act_wf (a : Action P) (w : World P) : timers_wf P w -> timers_wf P (act P w a).
Proof.
  intros Hw. destruct a as [u|change| |u|[u]|ms]; simpl.
  - now apply setCurrentUnitFast_wf.
  - assert (K : keeps (timers_wf P) (editEvent P change)) by wf. now apply K.
  - now apply saveToServer_wf.
  - now apply loadUnitData_wf.
  - now apply backgroundFetch_wf.
  - now apply advance_wf.
Qed.

Lemma session_wf (acts : list (Action P)) (w : World P) :
  timers_wf P w -> timers_wf P (session P acts w).
Proof.
  unfold session. revert w. induction acts as [|a acts IH]; simpl; intros w Hw;
    [exact Hw|].
  apply IH. now apply act_wf.
Qed.

End Bounded.

(** X6. From a page with no timer pending, whatever the user does and however
    long it takes: at any moment at most one deferred write of the payload
    cache and at most one debounced capture are pending, none when its
    timer variable is clear, and no two pending timers share an
    identifier. *)
Theorem timers_never_pile_up (P : Platform) (acts : list (Action P)) (w : World P) :
  timers P w = [] -> deferredPayloadWriteTimer P w = None -> debounce_t P w = None ->
  let w' := session P acts w in
  (length (List.filter is_flush (timers P w')) <= 1)%nat
  /\ (length (List.filter is_debounced (timers P w')) <= 1)%nat
  /\ (deferredPayloadWriteTimer P w' = None ->
      List.filter is_flush (timers P w') = [])
  /\ (debounce_t P w' = None -> List.filter is_debounced (timers P w') = [])
  /\ List.NoDup (map fst (timers P w')).
Proof.
  intros Ht Hd Hb w'.
  assert (Hw : timers_wf P w') by (apply session_wf, loaded_timers_wf; assumption).
  destruct (timers_wf_bounds P w' Hw) as (H1 & H2 & H3 & H4).
  repeat split; try assumption. apply (wf_distinct P w' Hw).
Qed.

Lemma timers_never_pile_up_witness :
  let acts : list (Action Reference.platform) :=
    [@AEdit Reference.platform (typed "a"); AWait 100; ASwitch 2;
     @AEdit Reference.platform (typed "b"); AWait 50; ASave;
     @AEdit Reference.platform (typed "c")] in
  let w' := session Reference.platform acts (Reference.fresh [] []) in
  (length (List.filter is_flush (timers Reference.platform w')) <= 1)%nat
  /\ (length (List.filter is_debounced (timers Reference.platform w')) <= 1)%nat.
Proof.
  intros acts w'.
  destruct (timers_never_pile_up Reference.platform acts (Reference.fresh [] [])
              eq_refl eq_refl eq_refl)
    as (H1 & H2 & _).
  split; [exact H1|exact H2].
Defined.

(** ** The prefetch *)

Ltac outside_side :=
  intros; simpl; unfold ui_events;
  rewrite ?List.filter_app, ?captures_app, ?alerts_app, ?payload_writes_app;
  simpl; rewrite ?app_nil_r; reflexivity.

Section Prefetch.

Context (P : Platform).

(** [m] leaves the memory tier as it is, or assigns the entry [key]. *)
Definition assigns_at_most (key : string) {A} (m : M P A) : Prop :=
  forall w,
    inMemoryPayloadCache P (snd (m w)) = inMemoryPayloadCache P w
    \/ exists p,
         inMemoryPayloadCache P (snd (m w)) = obj_set key p (inMemoryPayloadCache P w).

Lemma assigns_preserves (key : string) {A} (m : M P A) :
  preserves (inMemoryPayloadCache P) m -> assigns_at_most key m.
Proof. intros H w. left. apply H. Qed.

Lemma assigns_bind (key : string) {A B} (m : M P A) (k : A -> M P B) :
  preserves (inMemoryPayloadCache P) m -> (forall a, assigns_at_most key (k a)) ->
  assigns_at_most key (bind m k).
Proof.
  intros Hm Hk w. unfold bind. specialize (Hm w).
  destruct (m w) as [[a|e] w1]; simpl in *.
  - rewrite <- Hm. apply Hk.
  - now left.
Qed.

Lemma assigns_try_catch (key : string) {A} (m : M P A) (h : Exn -> M P A) :
  assigns_at_most key m -> (forall e, preserves (inMemoryPayloadCache P) (h e)) ->
  assigns_at_most key (try_catch m h).
Proof.
  intros Hm Hh w. unfold try_catch. specialize (Hm w).
  destruct (m w) as [[a|e] w1]; simpl in *; [exact Hm|].
  rewrite !(Hh e w1). exact Hm.
Qed.

Lemma assigns_mem_set (key : string) (p : jsval) {B} (k : unit -> M P B) :
  (forall a, preserves (inMemoryPayloadCache P) (k a)) ->
  assigns_at_most key (bind (mem_set P key p) k).
Proof.
  intros Hk w. right. exists p. unfold bind, mem_set, modify. simpl.
  now rewrite Hk.
Qed.

End Prefetch.

Ltac assigns_tac :=
  repeat first
    [ apply assigns_mem_set; intros; solve [frame]
    | apply assigns_bind; [solve [frame]|intros]
    | apply assigns_try_catch; [|intros; solve [frame]]
    | match goal with
      | |- assigns_at_most _ _ (if ?b then _ else _) => destruct b
      end
    | apply assigns_preserves; solve [frame] ].

Section PrefetchBody.

Context (P : Platform) (current : Z).

(** One round of the loop of [prefetchOtherUnits]. *)
Definition prefetch_round (u : Z) : M P unit :=
  if u =? current then ret tt
  else
    cached <- mem_get P (String_of_Z u) ;;
    if truthy cached then ret tt
    else
      sm <- gets (serverUnitMap P) ;;
      a <- and_then P sm (prop P sm (String_of_Z u)) ;;
      id <- (if truthy a then prop P sm (String_of_Z u)
             else
               local <- readBlendIds P ;;
               x <- prop P local (String_of_Z u) ;;
               ret (jor x JNull)) ;;
      if negb (truthy id) then ret tt
      else
        try_catch
          (r <- fetch P (mkRequest GET ("/blend/" +:+ ToString id) None) ;;
           (if negb (fst r) then throw HttpError else ret tt) ;;;
           d <- res_json P r ;;
           p <- unwrapNestedFirst P d ;;
           mem_set P (String_of_Z u) p ;;;
           schedulePersistPayloadCache P)
          (ignore P tt).

Lemma prefetchBody_rounds :
  prefetchBody P current
  = try_catch
      (fetchServerUnitMap P ;;;
       prefetch_round 1 ;;; prefetch_round 2 ;;; prefetch_round 3 ;;; ret tt)
      (ignore P tt).
Proof. reflexivity. Qed.

(** A round fills the slot of its unit only when that unit is not the
    active one and its slot holds nothing. *)
Lemma prefetch_round_fills (u : Z) (w : World P) :
  let key := String_of_Z u in
  inMemoryPayloadCache P (snd (prefetch_round u w)) = inMemoryPayloadCache P w
  \/ (u <> current
      /\ truthy (field (inMemoryPayloadCache P w) key) = false
      /\ exists p, inMemoryPayloadCache P (snd (prefetch_round u w))
                   = obj_set key p (inMemoryPayloadCache P w)).
Proof.
  intros key. unfold prefetch_round.
  destruct (u =? current) eqn:E; [now left|]. apply Z.eqb_neq in E.
  erewrite bind_Return by reflexivity. cbv beta. fold key.
  destruct (truthy (field (inMemoryPayloadCache P w) key)) eqn:Et; [now left|].
  match goal with
  | |- inMemoryPayloadCache P (snd (?m w)) = _ \/ _ =>
      assert (H : assigns_at_most P key m) by (subst key; assigns_tac)
  end.
  destruct (H w) as [H1|H1]; [now left|]. right.
  split; [exact E|]. split; [reflexivity|exact H1].
Qed.

(** What the prefetch may not change of the memory tier [mem0]: the
    entries that hold something, the entry of the active unit, and the
    entries of anything that is not unit 1, 2 or 3. *)
Definition kept (mem0 : list (string * jsval)) (w : World P) : Prop :=
  forall k,
    truthy (field mem0 k) = true \/ k = String_of_Z current
    \/ (k <> "1" /\ k <> "2" /\ k <> "3") ->
    field (inMemoryPayloadCache P w) k = field mem0 k.

Lemma prefetch_round_kept (mem0 : list (string * jsval)) (u : Z) :
  u = 1 \/ u = 2 \/ u = 3 -> keeps (kept mem0) (prefetch_round u).
Proof.
  intros Hu w Hw k Hk.
  destruct (prefetch_round_fills u w) as [E|(Hne & Hfalsy & p & E)];
    rewrite E; [now apply Hw|].
  rewrite field_obj_set_other; [now apply Hw|].
  intros ->. destruct Hk as [Hk|[Hk|Hk]].
  - rewrite <- (Hw _ (or_introl Hk)) in Hk. congruence.
  - apply String_of_Z_inj in Hk. contradiction.
  - destruct Hu as [Hu|[Hu|Hu]]; subst u; vm_compute in Hk; tauto.
Qed.

Lemma prefetchBody_kept (mem0 : list (string * jsval)) :
  keeps (kept mem0) (prefetchBody P current).
Proof.
  rewrite prefetchBody_rounds.
  apply keeps_try_catch; [|intros e w Hw; exact Hw].
  apply keeps_bind.
  { intros w Hw k Hk.
    assert (H : preserves (inMemoryPayloadCache P) (fetchServerUnitMap P)) by frame.
    rewrite H. now apply Hw. }
  intros _. apply keeps_bind; [apply prefetch_round_kept; auto|intros _].
  apply keeps_bind; [apply prefetch_round_kept; auto|intros _].
  apply keeps_bind; [apply prefetch_round_kept; auto|intros _].
  intros w Hw. exact Hw.
Qed.

End PrefetchBody.

(** X7. The prefetch works behind the page.  It never raises; it does not
    touch the fields, the active unit, the captures, the alerts or the
    durable store, and calls neither of the form-filling functions; in the
    memory tier it leaves alone every entry that holds something, the
    entry of the unit it was started for, and everything that is not the
    entry of unit 1, 2 or 3: it only fills empty slots of the other
    units. *)
Theorem prefetch_fills_gaps_only (P : Platform) (current : Z) (w : World P) :
  let w' := exec P (prefetchBody P current) w in
  fst (prefetchBody P current w) = Return tt
  /\ form P w' = form P w
  /\ currentUnit P w' = currentUnit P w
  /\ ui_events (log P w') = ui_events (log P w)
  /\ captures (log P w') = captures (log P w)
  /\ alerts (log P w') = alerts (log P w)
  /\ payload_writes (log P w') = payload_writes (log P w)
  /\ (forall k, truthy (field (inMemoryPayloadCache P w) k) = true ->
                field (inMemoryPayloadCache P w') k = field (inMemoryPayloadCache P w) k)
  /\ field (inMemoryPayloadCache P w') (String_of_Z current)
     = field (inMemoryPayloadCache P w) (String_of_Z current)
  /\ (forall k, k <> "1" -> k <> "2" -> k <> "3" ->
                field (inMemoryPayloadCache P w') k = field (inMemoryPayloadCache P w) k).
Proof.
  intros w'.
  assert (V : preserves (fun w => (form P w, currentUnit P w, ui_events (log P w),
                                   captures (log P w), alerts (log P w),
                                   payload_writes (log P w)))
                (prefetchBody P current)) by frame_with outside_side.
  specialize (V w). cbv beta in V. fold (exec P (prefetchBody P current) w) in V.
  fold w' in V. injection V as V1 V2 V3 V4 V5 V6.
  pose proof (prefetchBody_kept P current (inMemoryPayloadCache P w) w
                (fun k _ => eq_refl)) as K.
  fold (exec P (prefetchBody P current) w) in K. fold w' in K.
  split; [apply try_catch_unit|].
  repeat (split; [assumption|]).
  split; [intros k Hk; apply K; auto|].
  split; [apply K; auto|].
  intros k H1 H2 H3. apply K. auto.
Qed.

(** * The coal list *)

(** ** [tryFetchCoalEndpoints] *)

(** [Array.isArray(v)]. *)
Definition isArray (v : jsval) : bool :=
  match v with JArr _ => true | _ => false end.

(** [v !== null]. *)
Definition not_null (v : jsval) : bool :=
  match v with JNull => false | _ => true end.

(** The endpoints tried, in order, below [API_BASE]. *)
Definition coalEndpoints : list string :=
  ["/coal"; "/coals"; "/coal/list"; "/coalnames"].

Definition coalRequest (endpoint : string) : Request :=
  mkRequest GET endpoint None.

Section CoalList.

Context (P : Platform).

(** The body of the loop after [res.json()]: [Some] list when a [return]
    is reached, [None] when control falls through to the next round. *)
Definition coalListOf (data : jsval) : M P (option jsval) :=
  if isArray data then ret (Some data)
  else
    coals <- prop P data "coals" ;;
    if isArray coals then ret (Some coals)
    else
      inner <- prop P data "data" ;;
      if isArray inner then ret (Some inner)
      else
        items <- prop P data "items" ;;
        if isArray items then ret (Some items)
        else if typeof_object data && not_null data then
          docs <- prop P data "docs" ;;
          rows <- or_else P docs (prop P data "rows") ;;
          nested <- or_else P rows (prop P data "list") ;;
          if isArray nested then ret (Some nested) else ret None
        else ret None.

(** One round of the loop: [continue] on an answer that is not OK and on
    any exception. *)
Definition tryEndpoint (endpoint : string) : M P (option jsval) :=
  try_catch
    (res <- fetch P (coalRequest endpoint) ;;
     if negb (fst res) then ret None
     else
       data <- res_json P res ;;
       coalListOf data)
    (ignore P None).

Fixpoint tryEndpoints (endpoints : list string) : M P jsval :=
  match endpoints with
  | [] => ret (JArr [])
  | endpoint :: rest =>
      found <- tryEndpoint endpoint ;;
      match found with
      | Some coals => ret coals
      | None => tryEndpoints rest
      end
  end.

Definition tryFetchCoalEndpoints : M P jsval := tryEndpoints coalEndpoints.

(** [fetchLatestBlendId]. *)
Definition fetchLatestBlendId : M P jsval :=
  try_catch
    (res <- fetch P (mkRequest GET "/blend/latest" None) ;;
     if negb (fst res) then ret JNull
     else
       data <- res_json P res ;;
       id <- prop P data "_id" ;;
       ret (jor id JNull))
    (ignore P JNull).

(** The list a document holds, as a value: the document itself when it is
    an array, else the first array among its [coals], [data] and [items],
    else [docs || rows || list] when that is an array. *)
Definition coal_list (data : jsval) : option jsval :=
  if isArray data then Some data
  else if isArray (entry data "coals") then Some (entry data "coals")
  else if isArray (entry data "data") then Some (entry data "data")
  else if isArray (entry data "items") then Some (entry data "items")
  else
    let nested := jor (jor (entry data "docs") (entry data "rows")) (entry data "list") in
    if typeof_object data && not_null data && isArray nested then Some nested
    else None.

Lemma coalListOf_value (data : jsval) (w : World P) :
  data <> JNull -> data <> JUndefined ->
  coalListOf data w = (Return (coal_list data), w).
Proof.
  intros Hn Hu. unfold coalListOf, coal_list.
  destruct (isArray data) eqn:Ea; [reflexivity|].
  assert (Hp : forall k, getProp data k = Some (entry data k)).
  { intros k. unfold entry. destruct data; simpl; try congruence; reflexivity. }
  erewrite bind_Return by (unfold prop; rewrite Hp; reflexivity).
  destruct (isArray (entry data "coals")); [reflexivity|].
  erewrite bind_Return by (unfold prop; rewrite Hp; reflexivity).
  destruct (isArray (entry data "data")); [reflexivity|].
  erewrite bind_Return by (unfold prop; rewrite Hp; reflexivity).
  destruct (isArray (entry data "items")); [reflexivity|].
  destruct (typeof_object data && not_null data); [|reflexivity].
  erewrite bind_Return by (unfold prop; rewrite Hp; reflexivity).
  erewrite bind_Return by (apply or_else_prop; apply Hp).
  erewrite bind_Return by (apply or_else_prop; apply Hp).
  simpl. destruct (isArray (jor _ _)); reflexivity.
Qed.

Lemma coal_list_isArray (data v : jsval) : coal_list data = Some v -> isArray v = true.
Proof.
  unfold coal_list.
  destruct (isArray data) eqn:E0; [intros [= <-]; exact E0|].
  destruct (isArray (entry data "coals")) eqn:E1; [intros [= <-]; exact E1|].
  destruct (isArray (entry data "data")) eqn:E2; [intros [= <-]; exact E2|].
  destruct (isArray (entry data "items")) eqn:E3; [intros [= <-]; exact E3|].
  cbv zeta.
  destruct (typeof_object data && not_null data); simpl; [|discriminate].
  destruct (isArray (jor _ _)) eqn:E4; [intros [= <-]; exact E4|discriminate].
Qed.

(** What one round yields: the list of the answer when the answer is OK,
    readable, not [null] and holds one; nothing otherwise. *)
Definition round_result (reply : Reply) : option jsval :=
  match reply with
  | Response true (Some data) => if not_null data then coal_list data else None
  | _ => None
  end.

Lemma tryEndpoint_value (endpoint : string) (w : World P) :
  tryEndpoint endpoint w
  = (Return (round_result (fst (serve P (coalRequest endpoint) (net P w)))),
     requested P (coalRequest endpoint)
       (snd (serve P (coalRequest endpoint) (net P w))) w).
Proof.
  unfold tryEndpoint, requested.
  destruct (serve P (coalRequest endpoint) (net P w)) as [[|ok body] n] eqn:Es.
  - erewrite try_catch_Throw
      by (erewrite bind_Throw; [reflexivity|apply fetch_NetworkFailure; exact Es]).
    reflexivity.
  - destruct ok; simpl.
    + destruct body as [data|]; simpl.
      * destruct data;
          try (apply try_catch_Return;
               erewrite bind_Return by (apply fetch_Response; exact Es);
               msimp; erewrite bind_Return by reflexivity;
               rewrite coalListOf_value by discriminate; reflexivity).
        -- erewrite try_catch_Throw; [reflexivity|].
           erewrite bind_Return by (apply fetch_Response; exact Es).
           msimp. erewrite bind_Return by reflexivity. reflexivity.
        -- erewrite try_catch_Throw; [reflexivity|].
           erewrite bind_Return by (apply fetch_Response; exact Es).
           msimp. erewrite bind_Return by reflexivity. reflexivity.
      * erewrite try_catch_Throw; [reflexivity|].
        erewrite bind_Return by (apply fetch_Response; exact Es).
        msimp. erewrite bind_Throw by reflexivity. reflexivity.
    + apply try_catch_Return.
      erewrite bind_Return by (apply fetch_Response; exact Es).
      reflexivity.
Qed.

End CoalList.

Section CoalSearch.

Context (P : Platform).

(** Everything of the page but the network and the log. *)
Definition page_state (w : World P) :=
  (currentUnit P w, serverUnitMap P w, localStorage P w,
   inMemoryPayloadCache P w, deferredPayloadWriteTimer P w, debounce_t P w,
   autosaveAttached P w, now P w, timers P w, nextTimer P w, jobs P w, form P w).

Definition coalFetches (endpoints : list string) : list Event :=
  map (fun endpoint => EvFetch (coalRequest endpoint)) endpoints.

Lemma isArray_JArr (v : jsval) : isArray v = true -> exists l, v = JArr l.
Proof. destruct v; try discriminate. eauto. Qed.

Lemma tryEndpoints_spec (endpoints : list string) (w : World P) :
  exists l n,
    fst (tryEndpoints P endpoints w) = Return (JArr l)
    /\ (n <= length endpoints)%nat
    /\ (endpoints <> [] -> 1 <= n)%nat
    /\ log P (snd (tryEndpoints P endpoints w))
       = log P w ++ coalFetches (firstn n endpoints)
    /\ page_state (snd (tryEndpoints P endpoints w)) = page_state w.
Proof.
  revert w. induction endpoints as [|endpoint rest IH]; intros w; simpl.
  - exists [], 0%nat. simpl. rewrite app_nil_r. repeat split; try lia. congruence.
  - erewrite bind_Return by apply tryEndpoint_value.
    destruct (round_result _) as [v|] eqn:Er.
    + assert (Hv : isArray v = true).
      { unfold round_result in Er.
        destruct (fst (serve P _ _)) as [|[|] [data|]]; try discriminate.
        destruct (not_null data); [|discriminate].
        eapply coal_list_isArray; eassumption. }
      destruct (isArray_JArr v Hv) as [l ->].
      exists l, 1%nat. simpl. repeat split; try lia.
    + destruct (IH (requested P (coalRequest endpoint)
                      (snd (serve P (coalRequest endpoint) (net P w))) w))
        as (l & n & H1 & H2 & H3 & H4 & H5).
      exists l, (S n). rewrite H1, H4, H5. simpl.
      rewrite <- app_assoc. repeat split; try lia.
Qed.

(** When no endpoint ever answers with a list, every endpoint is tried,
    once and in order. *)
Lemma tryEndpoints_exhausted (endpoints : list string) (w : World P) :
  (forall r n, round_result (fst (serve P r n)) = None) ->
  fst (tryEndpoints P endpoints w) = Return (JArr [])
  /\ log P (snd (tryEndpoints P endpoints w)) = log P w ++ coalFetches endpoints.
Proof.
  intros Hnone. revert w. induction endpoints as [|endpoint rest IH]; intros w; simpl.
  - now rewrite app_nil_r.
  - erewrite bind_Return by apply tryEndpoint_value.
    rewrite Hnone.
    destruct (IH (requested P (coalRequest endpoint)
                    (snd (serve P (coalRequest endpoint) (net P w))) w)) as [H1 H2].
    rewrite H1, H2. simpl. now rewrite <- app_assoc.
Qed.

End CoalSearch.

(** X8. [tryFetchCoalEndpoints] never raises and always yields an array,
    whatever the server answers: its callers may take the length of the
    result.  It asks the endpoints in their order and stops at the first
    that yields a list: between one and four requests, a prefix of the
    four; and it changes nothing of the page but the log of requests. *)
Theorem tryFetchCoalEndpoints_array (P : Platform) (w : World P) :
  let w' := exec P (tryFetchCoalEndpoints P) w in
  exists l n,
    fst (tryFetchCoalEndpoints P w) = Return (JArr l)
    /\ (1 <= n <= 4)%nat
    /\ log P w' = log P w ++ coalFetches (firstn n coalEndpoints)
    /\ page_state P w' = page_state P w.
Proof.
  intros w'. subst w'. unfold exec, tryFetchCoalEndpoints.
  destruct (tryEndpoints_spec P coalEndpoints w) as (l & n & H1 & H2 & H3 & H4 & H5).
  exists l, n. simpl in H2. repeat split; try assumption.
  apply H3. discriminate.
Qed.

(** X9. Which list [tryFetchCoalEndpoints] yields.  When the first endpoint
    answers OK with a document that holds a list (the document itself if
    it is an array, else the first array among its [coals], [data] and
    [items], else [docs || rows || list] if that is an array), that list
    is the result and no other endpoint is asked.  When no endpoint ever
    answers with such a document, the result is the empty array, after the
    four requests in order. *)
Theorem tryFetchCoalEndpoints_result (P : Platform) (w : World P) :
  (forall data n,
     serve P (coalRequest "/coal") (net P w) = (Response true (Some data), n) ->
     forall coals, data <> JNull -> coal_list data = Some coals ->
     tryFetchCoalEndpoints P w
     = (Return coals, requested P (coalRequest "/coal") n w))
  /\ ((forall r n, round_result (fst (serve P r n)) = None) ->
      fst (tryFetchCoalEndpoints P w) = Return (JArr [])
      /\ log P (exec P (tryFetchCoalEndpoints P) w)
         = log P w ++ coalFetches coalEndpoints).
Proof.
  split.
  - intros data n Hs coals Hn Hc. unfold tryFetchCoalEndpoints, coalEndpoints.
    simpl. erewrite bind_Return by apply tryEndpoint_value.
    rewrite Hs. simpl.
    destruct (not_null data) eqn:En; [rewrite Hc; reflexivity|].
    destruct data; try discriminate; congruence.
  - intros Hnone. apply tryEndpoints_exhausted. exact Hnone.
Qed.

Lemma tryFetchCoalEndpoints_result_witness :
  let coals := JArr [JObj [("_id", JStr "c1"); ("coal", JStr "Indo")]] in
  let w := Reference.fresh [] [Response true (Some (JObj [("coals", coals)]))] in
  fst (tryFetchCoalEndpoints Reference.platform w) = Return coals
  /\ requests (log Reference.platform (exec Reference.platform
                 (tryFetchCoalEndpoints Reference.platform) w))
     = [coalRequest "/coal"].
Proof.
  intros coals w.
  destruct (tryFetchCoalEndpoints_result Reference.platform w) as [H _].
  rewrite (H (JObj [("coals", coals)]) [] eq_refl coals ltac:(discriminate) eq_refl).
  split; reflexivity.
Defined.

(** * The single-record page, [public/inputfinal.js] *)

Section Final.

Context (P : Platform).

(** The request of the save of [inputfinal.js]. *)
Definition final_request (latest payload : jsval) : Request :=
  if truthy latest
  then mkRequest PUT ("/blend/" +:+ ToString latest) (Some (JSON_stringify P payload))
  else mkRequest POST "/blend" (Some (JSON_stringify P payload)).

(** [saveToServer] of [inputfinal.js].  The script keeps the id of the
    record in the global [latestBlendId]; here the function takes its value
    and yields the value it leaves.  An assignment to the global made
    before an exception stays: the handler is repeated at each point where
    the value has changed. *)
Definition saveToServerFinal (latestBlendId : jsval) : M P jsval :=
  try_catch
    (payload <- collectFormData P ;;
     latest <- (if negb (truthy latestBlendId) then fetchLatestBlendId P
                else ret latestBlendId) ;;
     try_catch
       (res <- fetch P (final_request latest payload) ;;
        if negb (fst res) then
          err <- try_catch (res_json P res)
                   (ignore P (JObj [("error", JStr "Unknown")])) ;;
          prop P err "error" ;;;
          alert P AlertFailed ;;;
          ret latest
        else
          data <- res_json P res ;;
          id <- prop P data "id" ;;
          alert P AlertSaved ;;;
          ret (jor id latest))
       (fun _ => alert P AlertError ;;; ret latest))
    (fun _ => alert P AlertError ;;; ret latestBlendId).

Lemma fetchLatestBlendId_value (w : World P) :
  fetchLatestBlendId P w
  = (Return match fst (serve P (mkRequest GET "/blend/latest" None) (net P w)) with
            | Response true (Some data) => jor (entry data "_id") JNull
            | _ => JNull
            end,
     requested P (mkRequest GET "/blend/latest" None)
       (snd (serve P (mkRequest GET "/blend/latest" None) (net P w))) w).
Proof.
  unfold fetchLatestBlendId, requested.
  destruct (serve P _ (net P w)) as [[|ok body] n] eqn:Es.
  - erewrite try_catch_Throw
      by (erewrite bind_Throw; [reflexivity|apply fetch_NetworkFailure; exact Es]).
    reflexivity.
  - destruct ok; simpl.
    + destruct body as [data|]; simpl.
      * destruct (getProp data "_id") as [x|] eqn:Eg.
        -- apply try_catch_Return.
           erewrite bind_Return by (apply fetch_Response; exact Es).
           msimp. erewrite bind_Return by reflexivity.
           erewrite bind_Return by (unfold prop; rewrite Eg; reflexivity).
           unfold entry. rewrite Eg. reflexivity.
        -- erewrite try_catch_Throw.
           ++ unfold entry. rewrite Eg. reflexivity.
           ++ erewrite bind_Return by (apply fetch_Response; exact Es).
              msimp. erewrite bind_Return by reflexivity.
              erewrite bind_Throw by (unfold prop; rewrite Eg; reflexivity).
              reflexivity.
      * erewrite try_catch_Throw; [reflexivity|].
        erewrite bind_Return by (apply fetch_Response; exact Es).
        msimp. erewrite bind_Throw by reflexivity. reflexivity.
    + apply try_catch_Return.
      erewrite bind_Return by (apply fetch_Response; exact Es).
      reflexivity.
Qed.

End Final.

Section FinalSave.

Context (P : Platform).

(** [m] returns, having shown exactly one alert. *)
Definition tells {A} (m : M P A) : Prop :=
  forall w, exists a k,
    fst (m w) = Return a
    /\ alerts (log P (snd (m w))) = alerts (log P w) ++ [k].

Lemma tells_announces {A} (m : M P A) : tells m -> announces m.
Proof.
  intros H w. destruct (H w) as (a & k & H1 & H2).
  destruct (m w) as [[a'|e] w1]; simpl in *; [eauto|discriminate].
Qed.

Lemma tells_try_catch {A} (m : M P A) (h : Exn -> M P A) :
  announces m -> (forall e, tells (h e)) -> tells (try_catch m h).
Proof.
  intros Hm Hh w. specialize (Hm w). unfold try_catch.
  destruct (m w) as [[a|e] w1]; simpl.
  - destruct Hm as [k Hk]. exists a, k. auto.
  - destruct (Hh e w1) as (a & k & H1 & H2). exists a, k.
    rewrite H2, Hm. auto.
Qed.

Lemma tells_alert_ret {A} (k : AlertKind) (a : A) : tells (alert P k ;;; ret a).
Proof. intros w. exists a, k. simpl. rewrite alerts_app. auto. Qed.

Lemma final_request_known (latest payload : jsval) :
  truthy latest = true ->
  final_request P latest payload
  = mkRequest PUT ("/blend/" +:+ ToString latest) (Some (JSON_stringify P payload)).
Proof. intros H. unfold final_request. now rewrite H. Qed.

(** The id the save leaves: the one the server returned, the one it had
    otherwise. *)
Definition id_after (latest : jsval) (reply : Reply) : jsval :=
  match reply with
  | Response true (Some data) => jor (entry data "id") latest
  | _ => latest
  end.

(** The save proper, once the id to use is settled. *)
Lemma final_exchange (latest payload : jsval) (w : World P) :
  let request := final_request P latest payload in
  let body :=
    try_catch
      (res <- fetch P request ;;
       if negb (fst res) then
         err <- try_catch (res_json P res)
                  (ignore P (JObj [("error", JStr "Unknown")])) ;;
         prop P err "error" ;;;
         alert P AlertFailed ;;;
         ret latest
       else
         data <- res_json P res ;;
         id <- prop P data "id" ;;
         alert P AlertSaved ;;;
         ret (jor id latest))
      (fun _ => alert P AlertError ;;; ret latest) in
  fst (body w) = Return (id_after latest (fst (serve P request (net P w))))
  /\ requests (log P (snd (body w))) = requests (log P w) ++ [request].
Proof.
  intros request body. subst body. unfold id_after.
  destruct (serve P request (net P w)) as [[|ok b] n] eqn:Es.
  - erewrite try_catch_Throw
      by (erewrite bind_Throw; [reflexivity|apply fetch_NetworkFailure; exact Es]).
    simpl. rewrite !requests_app. simpl. now rewrite app_nil_r.
  - destruct ok; simpl.
    + destruct b as [data|]; [destruct (getProp data "id") as [x|] eqn:Eg|].
      * erewrite try_catch_Return; cycle 1.
        { erewrite bind_Return by (apply fetch_Response; exact Es).
          msimp. erewrite bind_Return by reflexivity.
          erewrite bind_Return by (unfold prop; rewrite Eg; reflexivity).
          reflexivity. }
        simpl. unfold entry. rewrite Eg, !requests_app. simpl.
        now rewrite app_nil_r.
      * erewrite try_catch_Throw; cycle 1.
        { erewrite bind_Return by (apply fetch_Response; exact Es).
          msimp. erewrite bind_Return by reflexivity.
          erewrite bind_Throw by (unfold prop; rewrite Eg; reflexivity).
          reflexivity. }
        simpl. unfold entry, jor. rewrite Eg, !requests_app. simpl.
        now rewrite app_nil_r.
      * erewrite try_catch_Throw; cycle 1.
        { erewrite bind_Return by (apply fetch_Response; exact Es).
          msimp. erewrite bind_Throw by reflexivity. reflexivity. }
        simpl. rewrite !requests_app. simpl. now rewrite app_nil_r.
    + set (err := match b with
                  | Some v => v
                  | None => JObj [("error", JStr "Unknown")]
                  end).
      assert (He : try_catch (res_json P (false, b))
                     (ignore P (JObj [("error", JStr "Unknown")]))
                     (set_net P n (emit P (EvFetch request) w))
                   = (Return err, set_net P n (emit P (EvFetch request) w))).
      { subst err. destruct b; reflexivity. }
      destruct (getProp err "error") as [x|] eqn:Eg.
      * erewrite try_catch_Return; cycle 1.
        { erewrite bind_Return by (apply fetch_Response; exact Es).
          msimp. erewrite bind_Return by exact He.
          erewrite bind_Return by (unfold prop; rewrite Eg; reflexivity).
          reflexivity. }
        simpl. rewrite !requests_app. simpl. now rewrite app_nil_r.
      * erewrite try_catch_Throw; cycle 1.
        { erewrite bind_Return by (apply fetch_Response; exact Es).
          msimp. erewrite bind_Return by exact He.
          erewrite bind_Throw by (unfold prop; rewrite Eg; reflexivity).
          reflexivity. }
        simpl. rewrite !requests_app. simpl. now rewrite app_nil_r.
Qed.

End FinalSave.

Lemma try_catch_returns {P : Platform} {A} (m : M P A) (h : Exn -> M P A)
    (w : World P) (a : A) :
  fst (m w) = Return a -> try_catch m h w = m w.
Proof.
  unfold try_catch. destruct (m w) as [[a'|e] w1]; simpl; [reflexivity|discriminate].
Qed.

(** X10. Every save of [inputfinal.js] tells the user how it went: it never
    raises and shows exactly one alert, whatever the server does. *)
Theorem saveToServerFinal_announces (P : Platform) (latestBlendId : jsval)
    (w : World P) :
  exists latest k,
    fst (saveToServerFinal P latestBlendId w) = Return latest
    /\ alerts (log P (exec P (saveToServerFinal P latestBlendId) w))
       = alerts (log P w) ++ [k].
Proof.
  assert (H : tells P (saveToServerFinal P latestBlendId)).
  { unfold saveToServerFinal, fetchLatestBlendId.
    apply tells_try_catch; [|intros; apply tells_alert_ret].
    apply announces_bind; [unfold silent; frame_with alerts_side|intros payload].
    apply announces_bind;
      [unfold silent; destruct (negb (truthy latestBlendId)); frame_with alerts_side
      |intros latest].
    apply tells_announces.
    apply tells_try_catch; [|intros; apply tells_alert_ret].
    apply announces_bind; [unfold silent; frame_with alerts_side|intros res].
    destruct (negb (fst res)).
    - apply announces_bind; [unfold silent; frame_with alerts_side|intros err].
      apply announces_bind; [unfold silent; frame_with alerts_side|intros _].
      apply tells_announces, tells_alert_ret.
    - apply announces_bind; [unfold silent; frame_with alerts_side|intros data].
      apply announces_bind; [unfold silent; frame_with alerts_side|intros id].
      apply tells_announces, tells_alert_ret. }
  destruct (H w) as (latest & k & H1 & H2). exists latest, k. auto.
Qed.

(** X11. A save of [inputfinal.js] that knows the id of the record: its one
    request is the update of that record, with the collected payload, and
    nothing is looked up.  The id it leaves is the one the server returned
    with an OK answer, and the id it had otherwise: once known, the id is
    never lost. *)
Theorem saveToServerFinal_known (P : Platform) (latestBlendId : jsval)
    (w : World P) :
  truthy latestBlendId = true ->
  let request :=
    mkRequest PUT ("/blend/" +:+ ToString latestBlendId)
      (Some (JSON_stringify P (collected P w))) in
  let w' := exec P (saveToServerFinal P latestBlendId) w in
  let latest := id_after latestBlendId (fst (serve P request (net P w))) in
  fst (saveToServerFinal P latestBlendId w) = Return latest
  /\ truthy latest = true
  /\ requests (log P w') = requests (log P w) ++ [request].
Proof.
  intros Hk request w' latest.
  pose proof (final_exchange P latestBlendId (collected P w) w) as H.
  cbv zeta in H. rewrite (final_request_known P _ _ Hk) in H. fold request in H.
  destruct H as [H1 H2].
  assert (E : saveToServerFinal P latestBlendId w
              = try_catch
                  (res <- fetch P request ;;
                   if negb (fst res) then
                     err <- try_catch (res_json P res)
                              (ignore P (JObj [("error", JStr "Unknown")])) ;;
                     prop P err "error" ;;;
                     alert P AlertFailed ;;;
                     ret latestBlendId
                   else
                     data <- res_json P res ;;
                     id <- prop P data "id" ;;
                     alert P AlertSaved ;;;
                     ret (jor id latestBlendId))
                  (fun _ => alert P AlertError ;;; ret latestBlendId) w).
  { unfold saveToServerFinal.
    match goal with
    | |- try_catch ?m ?h w = ?r =>
        assert (Hb : m w = r);
          [|rewrite (try_catch_returns m h w latest) by (rewrite Hb; exact H1);
            exact Hb]
    end.
    erewrite bind_Return by apply collectFormData_value.
    rewrite Hk. msimp.
    erewrite bind_Return by reflexivity.
    rewrite (final_request_known P _ _ Hk). reflexivity. }
  subst w'. unfold exec. rewrite E.
  split; [exact H1|]. split; [|exact H2].
  subst latest. unfold id_after.
  destruct (fst (serve P request (net P w))) as [|[|] [data|]]; try exact Hk.
  unfold jor. destruct (truthy (entry data "id")) eqn:Et; [exact Et|exact Hk].
Qed.

Lemma saveToServerFinal_known_witness :
  let w := Reference.fresh [("rows", JArr [JStr "coal-7"])]
             [Response true (Some (JObj [("id", JStr "r2")]))] in
  fst (saveToServerFinal Reference.platform (JStr "r1") w) = Return (JStr "r2")
  /\ map req_method
       (requests (log Reference.platform
                    (exec Reference.platform
                       (saveToServerFinal Reference.platform (JStr "r1")) w)))
     = [PUT].
Proof.
  intros w.
  destruct (saveToServerFinal_known Reference.platform (JStr "r1") w eq_refl)
    as (H1 & _ & H3).
  split.
  - rewrite H1. vm_compute. reflexivity.
  - rewrite H3. reflexivity.
Defined.

(** X12. A save of [inputfinal.js] that knows no id first asks for the latest
    record, then updates the record found, or creates one when none was
    found: two requests.  The id it leaves is the one the server returned
    with an OK answer to the save, and the id found otherwise, also when
    the save itself failed. *)
Theorem saveToServerFinal_unknown (P : Platform) (latestBlendId : jsval)
    (w : World P) :
  truthy latestBlendId = false ->
  let lookup := mkRequest GET "/blend/latest" None in
  let found :=
    match fst (serve P lookup (net P w)) with
    | Response true (Some data) => jor (entry data "_id") JNull
    | _ => JNull
    end in
  let request := final_request P found (collected P w) in
  let latest := id_after found (fst (serve P request (snd (serve P lookup (net P w))))) in
  let w' := exec P (saveToServerFinal P latestBlendId) w in
  fst (saveToServerFinal P latestBlendId w) = Return latest
  /\ requests (log P w') = requests (log P w) ++ [lookup; request]
  /\ (truthy found = true -> truthy latest = true).
Proof.
  intros Hk lookup found request latest w'.
  set (w1 := requested P lookup (snd (serve P lookup (net P w))) w).
  pose proof (final_exchange P found (collected P w) w1) as H.
  cbv zeta in H. fold request in H.
  change (net P w1) with (snd (serve P lookup (net P w))) in H.
  fold latest in H. destruct H as [H1 H2].
  assert (E : saveToServerFinal P latestBlendId w
              = try_catch
                  (res <- fetch P request ;;
                   if negb (fst res) then
                     err <- try_catch (res_json P res)
                              (ignore P (JObj [("error", JStr "Unknown")])) ;;
                     prop P err "error" ;;;
                     alert P AlertFailed ;;;
                     ret found
                   else
                     data <- res_json P res ;;
                     id <- prop P data "id" ;;
                     alert P AlertSaved ;;;
                     ret (jor id found))
                  (fun _ => alert P AlertError ;;; ret found) w1).
  { unfold saveToServerFinal.
    match goal with
    | |- try_catch ?m ?h w = ?r =>
        assert (Hb : m w = r);
          [|rewrite (try_catch_returns m h w latest) by (rewrite Hb; exact H1);
            exact Hb]
    end.
    erewrite bind_Return by apply collectFormData_value.
    rewrite Hk. msimp.
    erewrite bind_Return by apply fetchLatestBlendId_value.
    reflexivity. }
  subst w'. unfold exec. rewrite E.
  split; [exact H1|]. split.
  - rewrite H2. subst w1. unfold requested. simpl.
    rewrite requests_app. simpl. now rewrite <- app_assoc.
  - intros Hf. subst latest. unfold id_after.
    destruct (fst (serve P request _)) as [|[|] [data|]]; try exact Hf.
    unfold jor. destruct (truthy (entry data "id")) eqn:Et; [exact Et|exact Hf].
Qed.

Lemma saveToServerFinal_unknown_witness :
  let w := Reference.fresh [("rows", JArr [JStr "coal-7"])]
             [Response true (Some (JObj [("_id", JStr "r1")]));
              Response false None] in
  fst (saveToServerFinal Reference.platform JNull w) = Return (JStr "r1")
  /\ map (fun r => (req_method r, req_path r))
       (requests (log Reference.platform
                    (exec Reference.platform
                       (saveToServerFinal Reference.platform JNull) w)))
     = [(GET, "/blend/latest"); (PUT, "/blend/r1")].
Proof.
  intros w.
  destruct (saveToServerFinal_unknown Reference.platform JNull w eq_refl)
    as (H1 & H2 & _).
  split.
  - rewrite H1. vm_compute. reflexivity.
  - rewrite H2. vm_compute. reflexivity.
Defined.

(** * The coal database and the per-cell inputs *)

(** ** [findCoalInDB] *)

Section CoalDB.

(** [String.prototype.toLowerCase], left open: the properties below hold
    whatever it does to a string. *)
Variable toLowerCase : string -> string.

(** The first loop: the record whose [_id] or [id] reads as [key]. *)
Fixpoint findCoalById (key : string) (db : list jsval) : Outcome (option jsval) :=
  match db with
  | [] => Return None
  | c :: rest =>
      match getProp c "_id" with
      | None => Throw TypeError
      | Some a =>
          if String.eqb (ToString a) key then Return (Some c)
          else
            match getProp c "id" with
            | None => Throw TypeError
            | Some b =>
                if String.eqb (ToString b) key then Return (Some c)
                else findCoalById key rest
            end
      end
  end.

(** The second loop: the record whose [coal] reads as [key], letter case
    apart. *)
Fixpoint findCoalByName (key : string) (db : list jsval) : Outcome (option jsval) :=
  match db with
  | [] => Return None
  | c :: rest =>
      match getProp c "coal" with
      | None => Throw TypeError
      | Some n =>
          if String.eqb (toLowerCase (ToString (jor n (JStr ""))))
                        (toLowerCase key)
          then Return (Some c)
          else findCoalByName key rest
      end
  end.

(** [findCoalInDB(idOrName)], with [window.COAL_DB] the array [db]. *)
Definition findCoalInDB (db : list jsval) (idOrName : jsval) : Outcome jsval :=
  if negb (truthy idOrName) then Return JNull
  else
    match findCoalById (ToString idOrName) db with
    | Throw e => Throw e
    | Return (Some c) => Return c
    | Return None =>
        match findCoalByName (ToString idOrName) db with
        | Throw e => Throw e
        | Return (Some c) => Return c
        | Return None => Return JNull
        end
    end.

(** A record the first loop accepts, and one the second accepts. *)
Definition id_match (key : string) (c : jsval) : bool :=
  String.eqb (ToString (entry c "_id")) key
  || String.eqb (ToString (entry c "id")) key.

Definition name_match (key : string) (c : jsval) : bool :=
  String.eqb (toLowerCase (ToString (jor (entry c "coal") (JStr ""))))
             (toLowerCase key).

(** A record whose properties can be read: anything but [null] and
    [undefined]. *)
Definition readable (c : jsval) : Prop := c <> JNull /\ c <> JUndefined.

Lemma readable_getProp (c : jsval) (k : string) :
  readable c -> getProp c k = Some (entry c k).
Proof.
  intros [Hn Hu]. unfold entry. destruct c; simpl; try congruence; reflexivity.
Qed.

Lemma findCoalById_find (key : string) (db : list jsval) :
  Forall readable db -> findCoalById key db = Return (List.find (id_match key) db).
Proof.
  induction 1 as [|c db Hc Hdb IH]; simpl; [reflexivity|].
  rewrite !(readable_getProp c _ Hc). unfold id_match.
  destruct (String.eqb (ToString (entry c "_id")) key); [reflexivity|].
  destruct (String.eqb (ToString (entry c "id")) key); [reflexivity|].
  exact IH.
Qed.

Lemma findCoalByName_find (key : string) (db : list jsval) :
  Forall readable db -> findCoalByName key db = Return (List.find (name_match key) db).
Proof.
  induction 1 as [|c db Hc Hdb IH]; simpl; [reflexivity|].
  rewrite (readable_getProp c _ Hc). unfold name_match.
  destruct (String.eqb _ _); [reflexivity|exact IH].
Qed.

(** The result of [findCoalInDB] for a truthy key, as two searches. *)
Lemma findCoalInDB_value (db : list jsval) (idOrName : jsval) :
  Forall readable db -> truthy idOrName = true ->
  findCoalInDB db idOrName
  = Return match List.find (id_match (ToString idOrName)) db with
           | Some c => c
           | None =>
               match List.find (name_match (ToString idOrName)) db with
               | Some c => c
               | None => JNull
               end
           end.
Proof.
  intros Hdb Ht. unfold findCoalInDB. rewrite Ht. simpl.
  rewrite (findCoalById_find (ToString idOrName) db Hdb).
  destruct (List.find (id_match (ToString idOrName)) db); [reflexivity|].
  rewrite (findCoalByName_find (ToString idOrName) db Hdb).
  destruct (List.find (name_match (ToString idOrName)) db); reflexivity.
Qed.

(** X13. [findCoalInDB] in a database of readable records.  It never raises.
    A record whose [_id] or [id] reads as the key wins over every record
    that only matches by name, wherever they stand: the result is the
    first record matching by id when there is one, else the first matching
    by name, else [null]; so the result is [null] or a record of the
    database that matches, and [null] exactly when none matches. *)
Theorem findCoalInDB_two_passes (db : list jsval) (idOrName : jsval) :
  Forall readable db -> truthy idOrName = true ->
  let key := ToString idOrName in
  findCoalInDB db idOrName
  = Return match List.find (id_match key) db with
           | Some c => c
           | None =>
               match List.find (name_match key) db with
               | Some c => c
               | None => JNull
               end
           end
  /\ (forall c, findCoalInDB db idOrName = Return c ->
        (c = JNull /\ forall x, In x db -> id_match key x || name_match key x = false)
        \/ (In c db /\ id_match key c || name_match key c = true))
  /\ (forall c skipped rest,
        db = skipped ++ c :: rest -> id_match key c = true ->
        Forall (fun x => id_match key x = false) skipped ->
        findCoalInDB db idOrName = Return c).
Proof.
  intros Hdb Ht key.
  assert (E : findCoalInDB db idOrName
              = Return match List.find (id_match key) db with
                       | Some c => c
                       | None =>
                           match List.find (name_match key) db with
                           | Some c => c
                           | None => JNull
                           end
                       end).
  { exact (findCoalInDB_value db idOrName Hdb Ht). }
  split; [exact E|]. split.
  - intros c Hc. rewrite E in Hc. injection Hc as <-.
    destruct (List.find (id_match key) db) as [c1|] eqn:E1.
    + right. apply List.find_some in E1 as [Hin Hm]. split; [exact Hin|].
      now rewrite Hm.
    + destruct (List.find (name_match key) db) as [c2|] eqn:E2.
      * right. apply List.find_some in E2 as [Hin Hm]. split; [exact Hin|].
        rewrite Hm. apply orb_true_r.
      * left. split; [reflexivity|]. intros x Hx.
        rewrite (List.find_none _ _ E1 x Hx), (List.find_none _ _ E2 x Hx).
        reflexivity.
  - intros c skipped rest -> Hm Hs. rewrite E.
    assert (F : List.find (id_match key) (skipped ++ c :: rest) = Some c).
    { clear E Hdb. induction Hs as [|x l Hx Hl IH]; simpl.
      - now rewrite Hm.
      - rewrite Hx. exact IH. }
    now rewrite F.
Qed.

(** A falsy key finds nothing, whatever the database holds. *)
Lemma findCoalInDB_falsy (db : list jsval) (idOrName : jsval) :
  truthy idOrName = false -> findCoalInDB db idOrName = Return JNull.
Proof. intros H. unfold findCoalInDB. now rewrite H. Qed.

End CoalDB.

Lemma findCoalInDB_two_passes_witness :
  let named := JObj [("_id", JStr "c1"); ("coal", JStr "c2")] in
  let wanted := JObj [("_id", JStr "c2"); ("coal", JStr "Indo")] in
  findCoalInDB (fun s => s) [named; wanted] (JStr "c2") = Return wanted.
Proof.
  intros named wanted.
  destruct (findCoalInDB_two_passes (fun s => s) [named; wanted] (JStr "c2")) as (_ & _ & H).
  - repeat constructor; discriminate.
  - reflexivity.
  - apply (H wanted [named] []); [reflexivity|reflexivity|].
    repeat constructor.
Defined.

(** ** The identifiers of the per-cell inputs *)

(** [`coal_cell_r${row}_m${mill}`] and its two companions. *)
Definition cellCoalInputId (row mill : jsval) : string :=
  "coal_cell_r" +:+ ToString row +:+ "_m" +:+ ToString mill.
Definition cellGcvInputId (row mill : jsval) : string :=
  "gcv_cell_r" +:+ ToString row +:+ "_m" +:+ ToString mill.
Definition cellCostInputId (row mill : jsval) : string :=
  "cost_cell_r" +:+ ToString row +:+ "_m" +:+ ToString mill.

(** ['coalName' + row], the row-level select. *)
Definition coalNameId (row : jsval) : string := "coalName" +:+ ToString row.

Section CellIds.

(** The part of a string before the first [c], and the part after it. *)
Fixpoint before (c : ascii) (s : string) : string :=
  match s with
  | EmptyString => EmptyString
  | String a r => if Ascii.eqb a c then EmptyString else String a (before c r)
  end.

Fixpoint after (c : ascii) (s : string) : string :=
  match s with
  | EmptyString => EmptyString
  | String a r => if Ascii.eqb a c then r else after c r
  end.

Fixpoint lacks (c : ascii) (s : string) : bool :=
  match s with
  | EmptyString => true
  | String a r => negb (Ascii.eqb a c) && lacks c r
  end.

Lemma before_app (c : ascii) (s t : string) :
  lacks c s = true -> before c (s +:+ String c t) = s.
Proof.
  induction s as [|a s IH]; simpl; intros H.
  - now rewrite Ascii.eqb_refl.
  - rewrite ?append_String. simpl. apply andb_true_iff in H as [Ha Hs].
    apply negb_true_iff in Ha. rewrite Ha. f_equal. now apply IH.
Qed.

Lemma after_app (c : ascii) (s t : string) :
  lacks c s = true -> after c (s +:+ String c t) = t.
Proof.
  induction s as [|a s IH]; simpl; intros H.
  - now rewrite Ascii.eqb_refl.
  - rewrite ?append_String. simpl. apply andb_true_iff in H as [Ha Hs].
    apply negb_true_iff in Ha. rewrite Ha. now apply IH.
Qed.

Lemma digits_lack_underscore (s : string) :
  digits_only s = true -> lacks "_" s = true.
Proof.
  induction s as [|a s IH]; simpl; [reflexivity|].
  intros H. apply andb_true_iff in H as [Ha Hs]. rewrite (IH Hs), andb_true_r.
  destruct (Ascii.eqb a "_") eqn:E; [|reflexivity].
  apply Ascii.eqb_eq in E. subst a. discriminate.
Qed.

Lemma String_of_Z_lacks_underscore (z : Z) : lacks "_" (String_of_Z z) = true.
Proof.
  destruct z as [|p|p].
  - reflexivity.
  - apply digits_lack_underscore. apply String_of_Z_digits. lia.
  - assert (H : String_of_Z (Z.neg p) = String "-" (String_of_Z (Z.pos p))).
    { unfold String_of_Z. simpl. reflexivity. }
    rewrite H. simpl. apply digits_lack_underscore. apply String_of_Z_digits. lia.
Qed.

Lemma append_cancel (p a b : string) : p +:+ a = p +:+ b -> a = b.
Proof.
  induction p as [|c p IH]; simpl; intros H; [exact H|].
  injection H as H. now apply IH.
Qed.

(** Two cells with the same identifier are the same cell. *)
Lemma cell_suffix_inj (r m r' m' : Z) :
  String_of_Z r +:+ "_m" +:+ String_of_Z m
  = String_of_Z r' +:+ "_m" +:+ String_of_Z m' ->
  r = r' /\ m = m'.
Proof.
  intros H.
  pose proof (f_equal (before "_") H) as Hb.
  pose proof (f_equal (after "_") H) as Ha.
  change ("_m" +:+ String_of_Z m) with (String "_" (String "m" (String_of_Z m))) in Hb, Ha.
  change ("_m" +:+ String_of_Z m') with (String "_" (String "m" (String_of_Z m'))) in Hb, Ha.
  rewrite !before_app in Hb by apply String_of_Z_lacks_underscore.
  rewrite !after_app in Ha by apply String_of_Z_lacks_underscore.
  injection Ha as Ha.
  split; now apply String_of_Z_inj.
Qed.

End CellIds.

(** Inputs of different kinds never share an identifier. *)
Lemma cell_ids_apart (row mill row' mill' : jsval) :
  cellCoalInputId row mill <> cellGcvInputId row' mill'
  /\ cellCoalInputId row mill <> cellCostInputId row' mill'
  /\ cellGcvInputId row mill <> cellCostInputId row' mill'
  /\ coalNameId row <> cellCoalInputId row' mill'
  /\ coalNameId row <> cellGcvInputId row' mill'
  /\ coalNameId row <> cellCostInputId row' mill'.
Proof.
  unfold cellCoalInputId, cellGcvInputId, cellCostInputId, coalNameId.
  repeat match goal with |- _ /\ _ => split end;
    intros H; simpl in H; discriminate.
Qed.

Lemma cellCoalInputId_inj (r m r' m' : Z) :
  cellCoalInputId (JNum r) (JNum m) = cellCoalInputId (JNum r') (JNum m') ->
  r = r' /\ m = m'.
Proof.
  unfold cellCoalInputId. intros H. apply append_cancel in H.
  now apply cell_suffix_inj.
Qed.

(** X14. The identifiers of the hidden per-cell inputs do not collide: for
    integer rows and mills, two cells share the identifier of their coal
    (or gcv, or cost) input only if they are the same cell; and, whatever
    the rows and mills are, no coal, gcv or cost identifier is that of an
    input of another kind or of a row-level select. *)
Theorem cell_input_ids_distinct (r m r' m' : Z) (row mill row' mill' : jsval) :
  (cellCoalInputId (JNum r) (JNum m) = cellCoalInputId (JNum r') (JNum m') ->
   r = r' /\ m = m')
  /\ (cellGcvInputId (JNum r) (JNum m) = cellGcvInputId (JNum r') (JNum m') ->
      r = r' /\ m = m')
  /\ (cellCostInputId (JNum r) (JNum m) = cellCostInputId (JNum r') (JNum m') ->
      r = r' /\ m = m')
  /\ cellCoalInputId row mill <> cellGcvInputId row' mill'
  /\ cellCoalInputId row mill <> cellCostInputId row' mill'
  /\ cellGcvInputId row mill <> cellCostInputId row' mill'
  /\ coalNameId row <> cellCoalInputId row' mill'
  /\ coalNameId row <> cellGcvInputId row' mill'
  /\ coalNameId row <> cellCostInputId row' mill'.
Proof.
  unfold cellCoalInputId, cellGcvInputId, cellCostInputId, coalNameId.
  split; [|split; [|split]];
    try (intros H; apply append_cancel in H; now apply cell_suffix_inj).
  repeat match goal with |- _ /\ _ => split end;
    intros H; simpl in H; discriminate.
Qed.

(** ** The per-cell inputs *)

(** The form controls of the page that carry an identifier, each with its
    value: what [document.getElementById(id)] finds, and its [value]. *)
Abbreviation Document := (gmap string string).

Section Cells.

Variable toLowerCase : string -> string.

(** [getCellCoalId(row, mill)]: the hidden input of the cell when it
    holds something, else the select of the row, else the empty string. *)
Definition getCellCoalId (doc : Document) (row mill : jsval) : string :=
  match doc !! cellCoalInputId row mill with
  | Some v =>
      if negb (String.eqb v "") then v
      else
        match doc !! coalNameId row with
        | Some g => if negb (String.eqb g "") then g else ""
        | None => ""
        end
  | None =>
      match doc !! coalNameId row with
      | Some g => if negb (String.eqb g "") then g else ""
      | None => ""
      end
  end.

(** [ensureHiddenInput(id).value = v]: the input is made if there is
    none; assigning its value stores the string of it. *)
Definition setHiddenInput (id : string) (v : jsval) (doc : Document) : Document :=
  <[id := ToString v]> doc.

(** [setCellCoal(row, mill, coalId)], with [window.COAL_DB] the array
    [db].  The document is given back also when an exception is raised,
    with the inputs set up to then. *)
Definition setCellCoal (db : list jsval) (row mill coalId : jsval)
    (doc : Document) : Outcome unit * Document :=
  if negb (truthy row) then (Return tt, doc)
  else
    match mill with
    | JUndefined => (Return tt, doc)
    | _ =>
        let doc1 := setHiddenInput (cellCoalInputId row mill)
                      (jor coalId (JStr "")) doc in
        match findCoalInDB toLowerCase db coalId with
        | Throw e => (Throw e, doc1)
        | Return coalObj =>
            if truthy coalObj then
              match getProp coalObj "gcv" with
              | None => (Throw TypeError, doc1)
              | Some gcv =>
                  let doc2 := setHiddenInput (cellGcvInputId row mill)
                                (jor gcv (JStr "")) doc1 in
                  match getProp coalObj "cost" with
                  | None => (Throw TypeError, doc2)
                  | Some cost =>
                      (Return tt,
                       setHiddenInput (cellCostInputId row mill)
                         (jor cost (JStr "")) doc2)
                  end
              end
            else
              (Return tt,
               setHiddenInput (cellCostInputId row mill) (JStr "")
                 (setHiddenInput (cellGcvInputId row mill) (JStr "") doc1))
        end
    end.

(** The value of the select of a row, empty when there is none. *)
Definition row_coal (doc : Document) (row : jsval) : string :=
  match doc !! coalNameId row with
  | Some g => g
  | None => ""
  end.

Lemma getCellCoalId_value (doc : Document) (row mill : jsval) :
  getCellCoalId doc row mill
  = match doc !! cellCoalInputId row mill with
    | Some v => if String.eqb v "" then row_coal doc row else v
    | None => row_coal doc row
    end.
Proof.
  unfold getCellCoalId, row_coal.
  destruct (doc !! cellCoalInputId row mill) as [v|];
    [destruct (String.eqb v "")|]; simpl;
    destruct (doc !! coalNameId row) as [g|]; try reflexivity;
    destruct (String.eqb g "") eqn:E; simpl; try reflexivity;
    apply String.eqb_eq in E; now subst.
Qed.

(** What a call leaves in the three inputs of its cell, and nowhere
    else. *)
Lemma setCellCoal_writes (db : list jsval) (row mill coalId : jsval)
    (doc : Document) :
  truthy row = true -> mill <> JUndefined ->
  let doc' := snd (setCellCoal db row mill coalId doc) in
  doc' !! cellCoalInputId row mill = Some (ToString (jor coalId (JStr "")))
  /\ forall id, id <> cellCoalInputId row mill -> id <> cellGcvInputId row mill ->
                id <> cellCostInputId row mill -> doc' !! id = doc !! id.
Proof.
  intros Hr Hm doc'. subst doc'. unfold setCellCoal, setHiddenInput. rewrite Hr.
  cbn [negb].
  pose proof (cell_ids_apart row mill row mill) as (D1 & D2 & D3 & _).
  pose proof (not_eq_sym D1) as D1'. pose proof (not_eq_sym D2) as D2'.
  destruct mill; try congruence;
    repeat match goal with
      | |- context [match findCoalInDB ?a ?b ?c with _ => _ end] =>
          destruct (findCoalInDB a b c)
      | |- context [if truthy ?c then _ else _] => destruct (truthy c)
      | |- context [match getProp ?c ?k with _ => _ end] => destruct (getProp c k)
      end;
    cbn [snd]; split;
    try (rewrite ?lookup_insert_ne by assumption; apply lookup_insert_eq);
    intros id H1 H2 H3;
    rewrite ?lookup_insert_ne by (apply not_eq_sym; assumption); reflexivity.
Qed.

End Cells.

Section CellProperties.

Variable toLowerCase : string -> string.

Lemma setCellCoal_returns (db : list jsval) (row mill coalId : jsval)
    (doc : Document) :
  Forall readable db ->
  fst (setCellCoal toLowerCase db row mill coalId doc) = Return tt.
Proof.
  intros Hdb. unfold setCellCoal.
  destruct (truthy row); [|reflexivity]. cbn [negb].
  assert (Hf : exists c, findCoalInDB toLowerCase db coalId = Return c).
  { destruct (truthy coalId) eqn:Ht.
    - rewrite (findCoalInDB_value toLowerCase db coalId Hdb Ht). eauto.
    - rewrite (findCoalInDB_falsy toLowerCase db coalId Ht). eauto. }
  destruct Hf as [c ->].
  destruct mill; try reflexivity;
    (destruct (truthy c) eqn:Hc; [|reflexivity];
     rewrite !(getProp_truthy c _ Hc); reflexivity).
Qed.

End CellProperties.

(** X15. Choosing a coal for a cell and reading the cell back.  With a
    database of readable records [setCellCoal] never raises.  For a row
    that is truthy and a mill that is given, a coal id that is a
    non-empty string is what [getCellCoalId] then reads for the cell; a
    falsy id empties the hidden input, so that the cell reads as the
    select of its row.  With a falsy row or no mill the call changes
    nothing. *)
Theorem setCellCoal_getCellCoalId (toLowerCase : string -> string)
    (db : list jsval) (row mill coalId : jsval) (doc : Document) :
  Forall readable db ->
  let doc' := snd (setCellCoal toLowerCase db row mill coalId doc) in
  fst (setCellCoal toLowerCase db row mill coalId doc) = Return tt
  /\ (truthy row = false \/ mill = JUndefined -> doc' = doc)
  /\ (truthy row = true -> mill <> JUndefined ->
      (forall s, coalId = JStr s -> s <> "" -> getCellCoalId doc' row mill = s)
      /\ (truthy coalId = false ->
          getCellCoalId doc' row mill = row_coal doc row
          /\ doc' !! cellGcvInputId row mill = Some ""
          /\ doc' !! cellCostInputId row mill = Some "")).
Proof.
  intros Hdb doc'. split; [now apply setCellCoal_returns|]. split.
  - subst doc'. unfold setCellCoal. intros [H| ->].
    + now rewrite H.
    + destruct (truthy row); reflexivity.
  - intros Hr Hm.
    pose proof (setCellCoal_writes toLowerCase db row mill coalId doc Hr Hm) as Hw.
    cbv zeta in Hw. fold doc' in Hw. destruct Hw as [Hc Hother].
    pose proof (cell_ids_apart row mill row mill) as (D1 & D2 & D3 & N1 & N2 & N3).
    assert (Hrow : row_coal doc' row = row_coal doc row).
    { unfold row_coal. now rewrite Hother. }
    split.
    + intros s -> Hs. rewrite getCellCoalId_value, Hc.
      apply String.eqb_neq in Hs. unfold jor. simpl. rewrite Hs. simpl.
      now rewrite Hs.
    + intros Hf. rewrite getCellCoalId_value, Hc, Hrow.
      unfold jor. rewrite Hf. simpl. split; [reflexivity|].
      subst doc'. unfold setCellCoal, setHiddenInput. rewrite Hr. cbn [negb].
      rewrite (findCoalInDB_falsy toLowerCase db coalId Hf).
      destruct mill; try congruence; cbn [snd truthy];
        (split; [rewrite lookup_insert_ne by (apply not_eq_sym; exact D3)|];
         apply lookup_insert_eq).
Qed.

Lemma setCellCoal_getCellCoalId_witness :
  let db := [JObj [("_id", JStr "c1"); ("coal", JStr "Indo"); ("gcv", JNum 4200)]] in
  let doc' := snd (setCellCoal (fun s => s) db (JNum 3) (JNum 1) (JStr "c1") ∅) in
  getCellCoalId doc' (JNum 3) (JNum 1) = "c1"
  /\ doc' !! "gcv_cell_r3_m1" = Some "4200".
Proof.
  intros db doc'.
  destruct (setCellCoal_getCellCoalId (fun s => s) db (JNum 3) (JNum 1) (JStr "c1") ∅)
    as (_ & _ & H).
  - repeat constructor; discriminate.
  - destruct (H eq_refl ltac:(discriminate)) as [H1 _].
    split; [apply (H1 "c1" eq_refl); discriminate|].
    vm_compute. reflexivity.
Defined.

(** X16. Choosing a coal for one cell does not reach another: for integer
    rows and mills, what [getCellCoalId] reads for any other cell, and the
    select of any row, are as they were, whatever the call did and also
    when it raised. *)
Theorem setCellCoal_other_cells (toLowerCase : string -> string)
    (db : list jsval) (r m r' m' : Z) (coalId : jsval) (doc : Document) :
  (r', m') <> (r, m) ->
  let doc' := snd (setCellCoal toLowerCase db (JNum r) (JNum m) coalId doc) in
  getCellCoalId doc' (JNum r') (JNum m') = getCellCoalId doc (JNum r') (JNum m')
  /\ row_coal doc' (JNum r') = row_coal doc (JNum r').
Proof.
  intros Hne doc'.
  destruct (truthy (JNum r)) eqn:Hr.
  - pose proof (setCellCoal_writes toLowerCase db (JNum r) (JNum m) coalId doc Hr
                  ltac:(discriminate)) as Hw.
    cbv zeta in Hw. fold doc' in Hw. destruct Hw as [_ Hother].
    pose proof (cellCoalInputId_inj r' m' r m) as I1.
    pose proof (cell_ids_apart (JNum r') (JNum m') (JNum r) (JNum m))
      as (D1 & D2 & _ & N1 & N2 & N3).
    assert (Hrow : row_coal doc' (JNum r') = row_coal doc (JNum r')).
    { unfold row_coal. now rewrite Hother. }
    split; [|exact Hrow].
    rewrite !getCellCoalId_value, Hrow, Hother; [reflexivity| |exact D1|exact D2].
    intros H. apply I1 in H as [-> ->]. now apply Hne.
  - subst doc'. unfold setCellCoal. rewrite Hr. split; reflexivity.
Qed.

Lemma setCellCoal_other_cells_witness :
  let doc : Document := {[ "coal_cell_r3_m2" := "c9" ]} in
  let doc' := snd (setCellCoal (fun s => s) [] (JNum 3) (JNum 1) (JStr "c1") doc) in
  getCellCoalId doc' (JNum 3) (JNum 2) = "c9".
Proof.
  intros doc doc'.
  destruct (setCellCoal_other_cells (fun s => s) [] 3 1 3 2 (JStr "c1") doc
              ltac:(congruence)) as [H _].
  fold doc' in H. rewrite H. vm_compute. reflexivity.
Defined.

(** * Across a reload *)

(** [Object.assign(target, source)] on the properties of [target]. *)
Definition Object_assign_into (target : list (string * jsval)) (source : jsval)
  : list (string * jsval) :=
  fold_left (fun acc kv => obj_set (fst kv) (snd kv) acc) (own_props source) target.

(** The start of the script: the memory tier takes the entries of the
    stored payload cache. *)
Definition hydrate (P : Platform) : M P unit :=
  try_catch
    (persisted <- readPayloadCache P ;;
     if truthy persisted then
       modify (fun w =>
         set_inMemoryPayloadCache P
           (Object_assign_into (inMemoryPayloadCache P w) persisted) w)
     else ret tt)
    (ignore P tt).

Section Reload.

Lemma assoc_not_in (k : string) (fs : list (string * jsval)) :
  ~ In k (map fst fs) -> assoc k fs = None.
Proof.
  induction fs as [|[k' v] fs IH]; simpl; intros H; [reflexivity|].
  destruct (String.eqb k k') eqn:E.
  - apply String.eqb_eq in E. subst. tauto.
  - apply IH. tauto.
Qed.

Lemma field_assign_into (fs acc : list (string * jsval)) (k : string) :
  List.NoDup (map fst fs) ->
  field (fold_left (fun acc kv => obj_set (fst kv) (snd kv) acc) fs acc) k
  = match assoc k fs with
    | Some v => v
    | None => field acc k
    end.
Proof.
  revert acc. induction fs as [|[k1 v1] fs IH]; simpl; intros acc Hnd; [reflexivity|].
  apply List.NoDup_cons_iff in Hnd as [Hni Hnd].
  rewrite IH by exact Hnd.
  destruct (String.eqb k k1) eqn:E.
  - apply String.eqb_eq in E. subst k1.
    rewrite (assoc_not_in k fs Hni). apply field_obj_set.
  - apply String.eqb_neq in E.
    destruct (assoc k fs); [reflexivity|]. now apply field_obj_set_other.
Qed.

End Reload.

(** X17. What the deferred write stored is what the next load of the page
    takes up.  When the memory tier, written by the flush, parses back to
    itself, a page that starts with that store and an empty memory tier
    has, after the start-up hydration, every entry of the memory tier as
    it was; the hydration never raises and touches nothing else. *)
Theorem hydrate_restores_flush (P : Platform) (w reloaded : World P) :
  let mem := inMemoryPayloadCache P w in
  let text := JSON_stringify P (JObj mem) in
  List.NoDup (map fst mem) ->
  text <> "" ->
  JSON_parse P text = Some (JObj mem) ->
  localStorage P reloaded = localStorage P (exec P (flushPayloadCache P) w) ->
  inMemoryPayloadCache P reloaded = [] ->
  let w' := exec P (hydrate P) reloaded in
  fst (hydrate P reloaded) = Return tt
  /\ (forall k, field (inMemoryPayloadCache P w') k = field mem k)
  /\ localStorage P w' = localStorage P reloaded
  /\ form P w' = form P reloaded
  /\ log P w' = log P reloaded
  /\ timers P w' = timers P reloaded.
Proof.
  intros mem text Hnd Htext Hparse Hstore Hempty w'.
  assert (Hs : stored_json P reloaded PAYLOAD_CACHE_KEY = JObj mem).
  { unfold stored_json. rewrite Hstore. unfold exec.
    rewrite flushPayloadCache_value. simpl. rewrite lookup_insert_eq.
    fold mem. fold text. unfold string_or.
    apply String.eqb_neq in Htext. rewrite Htext. now rewrite Hparse. }
  assert (E : hydrate P reloaded
              = (Return tt,
                 set_inMemoryPayloadCache P
                   (Object_assign_into (inMemoryPayloadCache P reloaded) (JObj mem))
                   reloaded)).
  { unfold hydrate. apply try_catch_Return.
    erewrite bind_Return by apply readPayloadCache_value.
    rewrite Hs. reflexivity. }
  subst w'. unfold exec. rewrite E. simpl.
  split; [reflexivity|]. split; [|repeat split].
  intros k. unfold Object_assign_into. simpl. rewrite Hempty.
  rewrite field_assign_into by exact Hnd.
  unfold field. destruct (assoc k mem); reflexivity.
Qed.

Lemma hydrate_restores_flush_witness :
  let payload := JObj [("rows", JArr [JStr "coal-7"]); ("generation", JNum 210)] in
  let w := set_inMemoryPayloadCache Reference.platform [("2", payload)]
             (Reference.fresh [] []) in
  let reloaded :=
    set_localStorage Reference.platform
      (localStorage Reference.platform
         (exec Reference.platform (flushPayloadCache Reference.platform) w))
      (Reference.fresh [] []) in
  field (inMemoryPayloadCache Reference.platform
           (exec Reference.platform (hydrate Reference.platform) reloaded)) "2"
  = payload.
Proof.
  intros payload w reloaded.
  destruct (hydrate_restores_flush Reference.platform w reloaded) as (_ & H & _).
  - repeat constructor. simpl. tauto.
  - vm_compute. discriminate.
  - vm_compute. reflexivity.
  - reflexivity.
  - reflexivity.
  - rewrite H. reflexivity.
Defined.

(** * Loading a unit *)

Section LoadStores.

Context (P : Platform).

(** The two tiers as a load may change them. *)
Definition tier_writes (w : World P) :=
  (inMemoryPayloadCache P w, payload_writes (log P w)).

(** [m] leaves both tiers alone, or returns a payload that it has filed
    in the memory tier under [key] after one write of the durable
    cache. *)
Definition stores_result (key : string) (m : M P jsval) : Prop :=
  forall w,
    tier_writes (snd (m w)) = tier_writes w
    \/ exists payload text,
         fst (m w) = Return payload
         /\ payload_writes (log P (snd (m w))) = payload_writes (log P w) ++ [text]
         /\ inMemoryPayloadCache P (snd (m w))
            = obj_set key payload (inMemoryPayloadCache P w).

Lemma stores_preserves (key : string) (m : M P jsval) :
  preserves tier_writes m -> stores_result key m.
Proof. intros H w. left. apply H. Qed.

Lemma stores_bind (key : string) {A} (m : M P A) (k : A -> M P jsval) :
  preserves tier_writes m -> (forall a, stores_result key (k a)) ->
  stores_result key (bind m k).
Proof.
  intros Hm Hk w. unfold bind. specialize (Hm w).
  destruct (m w) as [[a|e] w1]; simpl in *; [|now left].
  unfold tier_writes in Hm. injection Hm as Hm1 Hm2.
  destruct (Hk a w1) as [H|(p & t & H1 & H2 & H3)].
  - left. rewrite H. unfold tier_writes. congruence.
  - right. exists p, t. rewrite H1, H2, H3, Hm1, Hm2. auto.
Qed.

Lemma stores_try_catch (key : string) (m : M P jsval) (h : Exn -> M P jsval) :
  stores_result key m -> (forall e, preserves tier_writes (h e)) ->
  stores_result key (try_catch m h).
Proof.
  intros Hm Hh w. unfold try_catch. specialize (Hm w).
  destruct (m w) as [[a|e] w1]; simpl in *; [exact Hm|].
  left. rewrite (Hh e w1).
  destruct Hm as [H|(p & t & H1 & _)]; [exact H|discriminate].
Qed.

(** The last steps of a load that got its payload. *)
Lemma stores_payload (key : string) (payload : jsval) :
  stores_result key
    (try_catch
       (cache <- readPayloadCache P ;;
        cache' <- assign P cache key payload ;;
        writePayloadCache P cache' ;;;
        mem_set P key payload)
       (ignore P tt) ;;;
     ret payload).
Proof.
  intros w.
  destruct (setProp (stored_json P w PAYLOAD_CACHE_KEY) key payload) as [cache'|] eqn:Es.
  - right. exists payload, (JSON_stringify P cache').
    erewrite bind_Return; cycle 1.
    { apply try_catch_Return.
      erewrite bind_Return by apply readPayloadCache_value.
      erewrite bind_Return by (unfold assign; rewrite Es; reflexivity).
      reflexivity. }
    simpl. rewrite payload_writes_app. auto.
  - left.
    erewrite bind_Return; cycle 1.
    { erewrite try_catch_Throw; [reflexivity|].
      erewrite bind_Return by apply readPayloadCache_value.
      erewrite bind_Throw by (unfold assign; rewrite Es; reflexivity).
      reflexivity. }
    reflexivity.
Qed.

End LoadStores.

Ltac stores_tac :=
  repeat first
    [ apply stores_payload
    | apply stores_bind; [solve [unfold tier_writes; frame_with durable_side]|intros]
    | apply stores_try_catch;
        [|intros; solve [unfold tier_writes; frame_with durable_side]]
    | match goal with
      | |- stores_result _ _ (if ?b then _ else _) => destruct b
      | |- stores_result _ _ (let _ := _ in _) => cbv zeta
      end
    | apply stores_preserves; solve [unfold tier_writes; frame_with durable_side] ].

(** X18. [loadUnitData] and the two tiers.  A call either leaves the memory
    tier and the durable payload cache as they were, or writes the
    durable cache exactly once and files in the memory tier, under the
    unit, the very payload it returns; it never does one without the
    other, and never stores a payload it does not return. *)
Theorem loadUnitData_stores_what_it_returns (P : Platform) (u : Z) (w : World P) :
  let key := String_of_Z (zor u (zor (currentUnit P w) 1)) in
  let w' := exec P (loadUnitData P u) w in
  (inMemoryPayloadCache P w' = inMemoryPayloadCache P w
   /\ payload_writes (log P w') = payload_writes (log P w))
  \/ exists payload text,
       fst (loadUnitData P u w) = Return payload
       /\ payload_writes (log P w') = payload_writes (log P w) ++ [text]
       /\ inMemoryPayloadCache P w' = obj_set key payload (inMemoryPayloadCache P w)
       /\ field (inMemoryPayloadCache P w') key = payload.
Proof.
  intros key w'.
  assert (H : stores_result P key
                (try_catch
                   (try_catch
                      (cache <- readPayloadCache P ;;
                       hit <- and_then P cache (prop P cache key) ;;
                       if truthy hit then
                         v <- prop P cache key ;; populateFormFromPayload P v
                       else ret tt)
                      (ignore P tt) ;;;
                    id <- getBlendIdForUnit P (zor u (zor (currentUnit P w) 1)) ;;
                    if negb (truthy id) then
                      cache <- readPayloadCache P ;;
                      lacks <- cacheLacks P cache key ;;
                      (if lacks then clearFormForUnitUI P else ret tt) ;;;
                      ret JNull
                    else
                      res <- fetch P (mkRequest GET ("/blend/" +:+ ToString id) None) ;;
                      if negb (fst res) then
                        cache <- readPayloadCache P ;;
                        lacks <- cacheLacks P cache key ;;
                        (if lacks then clearFormForUnitUI P else ret tt) ;;;
                        ret JNull
                      else
                        data <- res_json P res ;;
                        payload <- unwrapShapeFirst P data ;;
                        populateFormFromPayload P payload ;;;
                        try_catch
                          (cache <- readPayloadCache P ;;
                           cache' <- assign P cache key payload ;;
                           writePayloadCache P cache' ;;;
                           mem_set P key payload)
                          (ignore P tt) ;;;
                        ret payload)
                   (fun _ =>
                      cache <- readPayloadCache P ;;
                      hit <- and_then P cache (prop P cache key) ;;
                      if truthy hit then
                        v <- prop P cache key ;;
                        populateFormFromPayload P v ;;;
                        prop P cache key
                      else
                        clearFormForUnitUI P ;;; ret JNull))) by stores_tac.
  specialize (H w).
  change (try_catch _ _ w) with (loadUnitData P u w) in H.
  fold (exec P (loadUnitData P u) w) in H. fold w' in H.
  destruct H as [H|(p & t & H1 & H2 & H3)].
  - left. unfold tier_writes in H. injection H as H1 H2. auto.
  - right. exists p, t. rewrite H3. repeat split; try assumption.
    apply field_obj_set.
Qed.

(** * From an edit to the durable store *)

Section EditToStore.

Context (P : Platform).

Lemma set_now_id (w : World P) : set_now P (now P w) w = w.
Proof. destruct w. reflexivity. Qed.

(** A millisecond in which no timer is due only moves the clock. *)
Lemma tick_nothing_due (w : World P) :
  (forall e, In e (timers P w) -> (S (now P w) < fst (snd e))%nat) ->
  tick P w = set_now P (S (now P w)) w.
Proof.
  intros H. unfold tick. cbv zeta.
  replace (List.filter _ (timers P (set_now P (S (now P w)) w))) with (@nil (nat * (nat * Task))).
  - reflexivity.
  - symmetry. simpl.
    induction (timers P w) as [|e l IH]; simpl; [reflexivity|].
    assert (He : (S (now P w) < fst (snd e))%nat) by (apply H; now left).
    apply Nat.leb_gt in He. rewrite He. apply IH. intros x Hx. apply H. now right.
Qed.

Lemma advance_nothing_due (ms : nat) (w : World P) :
  (forall e, In e (timers P w) -> (now P w + ms < fst (snd e))%nat) ->
  advance P ms w = set_now P (now P w + ms)%nat w.
Proof.
  revert w. induction ms as [|ms IH]; intros w H; simpl.
  - rewrite Nat.add_0_r. symmetry. apply set_now_id.
  - rewrite tick_nothing_due by (intros e He; specialize (H e He); lia).
    rewrite IH by (intros e He; simpl; specialize (H e He); simpl in *; lia).
    simpl. replace (S (now P w + ms)) with (now P w + S ms)%nat by lia.
    reflexivity.
Qed.

(** The one pending timer fires at its deadline, and nothing happens
    before. *)
Lemma advance_to_deadline (k id : nat) (task : Task) (w : World P) :
  timers P w = [(id, ((now P w + S k)%nat, task))] ->
  advance P (S k) w = fire P (set_now P (now P w + S k)%nat w) id.
Proof.
  intros Ht. replace (S k) with (k + 1)%nat at 1 by lia.
  rewrite advance_add.
  rewrite (advance_nothing_due k w)
    by (rewrite Ht; intros e [<-|[]]; simpl; lia).
  change (advance P 1 ?x) with (tick P x).
  unfold tick. cbv zeta. simpl. rewrite Ht. simpl.
  replace (S (now P w + k)) with (now P w + S k)%nat by lia.
  rewrite Nat.leb_refl. reflexivity.
Qed.

(** The world an edit on an idle page leaves. *)
Definition edited_world (change : Form P -> Form P) (w : World P) : World P :=
  set_debounce_t P (Some (nextTimer P w))
    (set_timers P
       [(nextTimer P w, ((now P w + AUTOSAVE_DEBOUNCE_MS)%nat, TDebounced))]
       (S (nextTimer P w))
       (set_form P (change (form P w)) w)).

Lemma editEvent_idle (change : Form P -> Form P) (w : World P) :
  timers P w = [] -> autosaveAttached P w = true ->
  exec P (editEvent P change) w = edited_world change w.
Proof.
  intros Ht Ha. unfold exec, editEvent, dispatchInput, debouncedTransientSave,
    clearTimeout, setTimeout, edited_world. unfold_m. simpl.
  rewrite Ha. simpl. destruct (debounce_t P w); simpl; rewrite ?Ht; reflexivity.
Qed.

(** The world once the debounced capture has run, 180 ms later. *)
Definition captured_at (change : Form P -> Form P) (w : World P) : World P :=
  let due := set_now P (now P w + AUTOSAVE_DEBOUNCE_MS)%nat
               (set_form P (change (form P w)) w) in
  set_deferredPayloadWriteTimer P (Some (S (nextTimer P w)))
    (set_timers P
       [(S (nextTimer P w), ((now P w + AUTOSAVE_DEBOUNCE_MS + 300)%nat, TFlush))]
       (S (S (nextTimer P w)))
       (emit P (EvCapture (transient_key P w) (collected P due))
          (set_inMemoryPayloadCache P
             (obj_set (transient_key P w) (collected P due)
                (inMemoryPayloadCache P w))
             (set_debounce_t P (Some (nextTimer P w)) due)))).


Lemma exec_debounced (w : World P) :
  exec P (runTask P TDebounced) w
  = snd (schedulePersistPayloadCache P (captured_world P w)).
Proof. unfold exec. cbn [runTask]. now rewrite saveTransientToMemory_value. Qed.

Lemma exec_flush (w : World P) :
  exec P (runTask P TFlush) w = snd (flushPayloadCache P w).
Proof. reflexivity. Qed.

Lemma transient_key_same (w1 w2 : World P) :
  currentUnit P w1 = currentUnit P w2 -> localStorage P w1 = localStorage P w2 ->
  transient_key P w1 = transient_key P w2.
Proof. intros H1 H2. apply transient_key_unit; [exact H1|now rewrite H2]. Qed.

Lemma collected_same (w1 w2 : World P) :
  page_view P w1 = page_view P w2 -> collected P w1 = collected P w2.
Proof. intros H. now destruct (collected_page_view P w1 w2 H). Qed.

Lemma capture_fires (change : Form P -> Form P) (w : World P) :
  deferredPayloadWriteTimer P w = None ->
  fire P (set_now P (now P w + AUTOSAVE_DEBOUNCE_MS)%nat (edited_world change w))
    (nextTimer P w)
  = captured_at change w.
Proof.
  intros Hd.
  rewrite (fire_value P _ TDebounced)
    by (unfold find_timer; simpl; now rewrite Nat.eqb_refl).
  rewrite exec_debounced.
  rewrite schedulePersistPayloadCache_arms by exact Hd.
  cbn [snd]. unfold captured_at, captured_world, removed, edited_world. simpl.
  rewrite Nat.eqb_refl. simpl.
  erewrite (transient_key_same _ w) by reflexivity.
  erewrite (collected_same _ (set_now P (now P w + AUTOSAVE_DEBOUNCE_MS)%nat
                                (set_form P (change (form P w)) w))) by reflexivity.
  reflexivity.
Qed.

(** What the capture files, the memory tier it leaves and the text the
    deferred write stores. *)
Definition edit_capture (change : Form P -> Form P) (w : World P) : jsval :=
  collected P (set_now P (now P w + AUTOSAVE_DEBOUNCE_MS)%nat
                 (set_form P (change (form P w)) w)).

Definition edit_memory (change : Form P -> Form P) (w : World P)
  : list (string * jsval) :=
  obj_set (transient_key P w) (edit_capture change w) (inMemoryPayloadCache P w).

Definition edit_text (change : Form P -> Form P) (w : World P) : string :=
  JSON_stringify P (JObj (edit_memory change w)).

(** The world once the deferred write has run, 300 ms after the capture. *)
Definition flushed_at (change : Form P -> Form P) (w : World P) : World P :=
  let wc := set_now P (now P w + AUTOSAVE_DEBOUNCE_MS + 300)%nat
              (captured_at change w) in
  set_deferredPayloadWriteTimer P None
    (emit P (EvSetItem PAYLOAD_CACHE_KEY (edit_text change w))
       (set_localStorage P
          (<[PAYLOAD_CACHE_KEY := edit_text change w]> (localStorage P w))
          (set_timers P [] (S (S (nextTimer P w))) wc))).

Lemma flush_fires (change : Form P -> Form P) (w : World P) :
  fire P (set_now P (now P w + AUTOSAVE_DEBOUNCE_MS + 300)%nat (captured_at change w))
    (S (nextTimer P w))
  = flushed_at change w.
Proof.
  rewrite (fire_value P _ TFlush)
    by (unfold find_timer; simpl; now rewrite Nat.eqb_refl).
  rewrite exec_flush, flushPayloadCache_value. cbn [snd].
  unfold flushed_at, edit_text, edit_memory, edit_capture, removed, captured_at.
  simpl. rewrite Nat.eqb_refl. reflexivity.
Qed.

(** The three stretches of the 480 ms after an edit on an idle page. *)
Definition edit_stage (change : Form P -> Form P) (w : World P) (ms : nat)
  : World P :=
  if (ms <? AUTOSAVE_DEBOUNCE_MS)%nat then edited_world change w
  else if (ms <? AUTOSAVE_DEBOUNCE_MS + 300)%nat then captured_at change w
  else flushed_at change w.

Lemma set_now_set_now (a b : nat) (w : World P) :
  set_now P a (set_now P b w) = set_now P a w.
Proof. reflexivity. Qed.

Lemma edited_world_timers (change : Form P -> Form P) (w : World P) :
  timers P (edited_world change w)
  = [(nextTimer P w, ((now P (edited_world change w) + AUTOSAVE_DEBOUNCE_MS)%nat, TDebounced))].
Proof. reflexivity. Qed.

Lemma captured_at_now (change : Form P -> Form P) (w : World P) :
  now P (captured_at change w) = (now P w + AUTOSAVE_DEBOUNCE_MS)%nat.
Proof. reflexivity. Qed.

Lemma captured_at_timers (change : Form P -> Form P) (w : World P) :
  timers P (captured_at change w)
  = [(S (nextTimer P w), ((now P (captured_at change w) + 300)%nat, TFlush))].
Proof. reflexivity. Qed.

Lemma flushed_at_now (change : Form P -> Form P) (w : World P) :
  now P (flushed_at change w) = (now P w + AUTOSAVE_DEBOUNCE_MS + 300)%nat.
Proof. reflexivity. Qed.

Lemma edit_trajectory (change : Form P -> Form P) (w : World P) (ms : nat) :
  deferredPayloadWriteTimer P w = None ->
  advance P ms (edited_world change w)
  = set_now P (now P w + ms)%nat (edit_stage change w ms).
Proof.
  intros Hd. unfold edit_stage.
  pose proof debounce_delay as HD.
  assert (E1 : advance P AUTOSAVE_DEBOUNCE_MS (edited_world change w)
               = captured_at change w).
  { rewrite <- (capture_fires change w Hd).
    pose proof (edited_world_timers change w) as Ht. revert Ht.
    change (now P w) with (now P (edited_world change w)).
    rewrite HD. apply advance_to_deadline. }
  assert (E2 : advance P 300 (captured_at change w) = flushed_at change w).
  { rewrite <- (flush_fires change w).
    rewrite <- (captured_at_now change w).
    apply (advance_to_deadline 299 _ TFlush), captured_at_timers. }
  destruct (ms <? AUTOSAVE_DEBOUNCE_MS)%nat eqn:L1.
  - apply Nat.ltb_lt in L1.
    rewrite (advance_nothing_due ms (edited_world change w)); [reflexivity|].
    rewrite edited_world_timers. intros e [<-|[]]. cbn [fst snd]. lia.
  - apply Nat.ltb_ge in L1.
    replace ms with (AUTOSAVE_DEBOUNCE_MS + (ms - AUTOSAVE_DEBOUNCE_MS))%nat at 1 by lia.
    rewrite advance_add, E1.
    destruct (ms <? AUTOSAVE_DEBOUNCE_MS + 300)%nat eqn:L2.
    + apply Nat.ltb_lt in L2.
      rewrite (advance_nothing_due (ms - AUTOSAVE_DEBOUNCE_MS) (captured_at change w)).
      * rewrite captured_at_now. f_equal. lia.
      * rewrite captured_at_timers. intros e [<-|[]]. cbn [fst snd]. lia.
    + apply Nat.ltb_ge in L2.
      replace (ms - AUTOSAVE_DEBOUNCE_MS)%nat
        with (300 + (ms - AUTOSAVE_DEBOUNCE_MS - 300))%nat by lia.
      rewrite advance_add, E2.
      rewrite (advance_nothing_due (ms - AUTOSAVE_DEBOUNCE_MS - 300) (flushed_at change w)).
      * rewrite flushed_at_now. f_equal. lia.
      * intros e [].
Qed.

End EditToStore.

Section EditReaches.

Context (P : Platform).

Lemma stage_cases (ms : nat) (A : Type) (a b c : A) (Q : A -> Prop) :
  ((ms < AUTOSAVE_DEBOUNCE_MS)%nat -> Q a) ->
  ((AUTOSAVE_DEBOUNCE_MS <= ms < AUTOSAVE_DEBOUNCE_MS + 300)%nat -> Q b) ->
  ((AUTOSAVE_DEBOUNCE_MS + 300 <= ms)%nat -> Q c) ->
  Q (if (ms <? AUTOSAVE_DEBOUNCE_MS)%nat then a
     else if (ms <? AUTOSAVE_DEBOUNCE_MS + 300)%nat then b else c).
Proof.
  intros Ha Hb Hc.
  destruct (ms <? AUTOSAVE_DEBOUNCE_MS)%nat eqn:L1.
  - apply Ha. now apply Nat.ltb_lt.
  - apply Nat.ltb_ge in L1.
    destruct (ms <? AUTOSAVE_DEBOUNCE_MS + 300)%nat eqn:L2.
    + apply Hb. apply Nat.ltb_lt in L2. lia.
    + apply Hc. now apply Nat.ltb_ge.
Qed.

(** X19. From an edit to the durable store.  On a page with no timer
    pending and the autosave listeners attached, follow one edit
    millisecond by millisecond.  The form shows the edit at once.  The
    memory tier is untouched for 180 ms and from then on holds, under
    the key of the active unit, exactly what [collectFormData] reads
    from the edited form at that moment.  The durable store is untouched
    for 480 ms; at 480 ms it receives one write, the serialisation of
    that memory tier, and from then on no timer is left.  No request is
    ever made. *)
Theorem edit_reaches_durable_store (change : Form P -> Form P) (w : World P)
    (ms : nat) :
  timers P w = [] -> deferredPayloadWriteTimer P w = None ->
  autosaveAttached P w = true ->
  let w' := advance P ms (exec P (editEvent P change) w) in
  let captured := (AUTOSAVE_DEBOUNCE_MS <=? ms)%nat in
  let flushed := (AUTOSAVE_DEBOUNCE_MS + 300 <=? ms)%nat in
  fst (collectFormData P
         (set_now P (now P w + AUTOSAVE_DEBOUNCE_MS)%nat
            (set_form P (change (form P w)) w)))
  = Return (edit_capture P change w)
  /\ form P w' = change (form P w)
  /\ inMemoryPayloadCache P w'
     = (if captured then edit_memory P change w else inMemoryPayloadCache P w)
  /\ captures (log P w')
     = captures (log P w)
       ++ (if captured then [(transient_key P w, edit_capture P change w)] else [])
  /\ localStorage P w'
     = (if flushed
        then <[PAYLOAD_CACHE_KEY := edit_text P change w]> (localStorage P w)
        else localStorage P w)
  /\ payload_writes (log P w')
     = payload_writes (log P w) ++ (if flushed then [edit_text P change w] else [])
  /\ requests (log P w') = requests (log P w)
  /\ (if flushed then timers P w' = [] /\ deferredPayloadWriteTimer P w' = None
      else timers P w' <> []).
Proof.
  intros Ht Hd Ha w' captured flushed. subst w' captured flushed.
  split; [now rewrite collectFormData_value|].
  rewrite (editEvent_idle P change w Ht Ha), (edit_trajectory P change w ms Hd).
  unfold edit_stage. apply stage_cases; intros L.
  - assert (E1 : (AUTOSAVE_DEBOUNCE_MS <=? ms)%nat = false) by (apply Nat.leb_gt; lia).
    assert (E2 : (AUTOSAVE_DEBOUNCE_MS + 300 <=? ms)%nat = false) by (apply Nat.leb_gt; lia).
    rewrite E1, E2. unfold edited_world.
    cbn [form inMemoryPayloadCache log localStorage timers deferredPayloadWriteTimer
         set_now set_debounce_t set_timers set_form].
    rewrite !app_nil_r. repeat split; discriminate.
  - assert (E1 : (AUTOSAVE_DEBOUNCE_MS <=? ms)%nat = true) by (apply Nat.leb_le; lia).
    assert (E2 : (AUTOSAVE_DEBOUNCE_MS + 300 <=? ms)%nat = false) by (apply Nat.leb_gt; lia).
    rewrite E1, E2. unfold captured_at. cbv zeta.
    cbn [form inMemoryPayloadCache log localStorage timers deferredPayloadWriteTimer
         set_now set_debounce_t set_timers set_form set_deferredPayloadWriteTimer
         emit set_inMemoryPayloadCache].
    rewrite captures_app, payload_writes_app, requests_app. cbn [captures payload_writes requests flat_map app].
    rewrite !app_nil_r. repeat split; discriminate.
  - assert (E1 : (AUTOSAVE_DEBOUNCE_MS <=? ms)%nat = true) by (apply Nat.leb_le; lia).
    assert (E2 : (AUTOSAVE_DEBOUNCE_MS + 300 <=? ms)%nat = true) by (apply Nat.leb_le; lia).
    rewrite E1, E2. unfold flushed_at, captured_at. cbv zeta.
    cbn [form inMemoryPayloadCache log localStorage timers deferredPayloadWriteTimer
         set_now set_debounce_t set_timers set_form set_deferredPayloadWriteTimer
         emit set_inMemoryPayloadCache set_localStorage].
    rewrite !captures_app, !payload_writes_app, !requests_app.
    cbn [captures payload_writes requests flat_map app].
    rewrite !app_nil_r.
    change (String.eqb PAYLOAD_CACHE_KEY PAYLOAD_CACHE_KEY) with true. cbn [app].
    repeat split.
Qed.

End EditReaches.

Lemma edit_reaches_durable_store_witness :
  let w := Reference.fresh [] [] in
  let at_ (ms : nat) :=
    advance Reference.platform ms
      (exec Reference.platform (editEvent Reference.platform (typed "a")) w) in
  (field (own_props (field (inMemoryPayloadCache Reference.platform
                              (at_ (AUTOSAVE_DEBOUNCE_MS + 300)%nat)) "1")) "rows",
   length (payload_writes (log Reference.platform (at_ (AUTOSAVE_DEBOUNCE_MS + 300)%nat))))
  = (JArr [JStr "a"], 1%nat)
  /\ payload_writes (log Reference.platform (at_ (AUTOSAVE_DEBOUNCE_MS + 299)%nat)) = [].
Proof.
  intros w at_. split.
  - destruct (edit_reaches_durable_store Reference.platform (typed "a") w
                (AUTOSAVE_DEBOUNCE_MS + 300)%nat eq_refl eq_refl eq_refl)
      as (_ & _ & Hm & _ & _ & Hp & _).
    unfold at_. rewrite Hm, Hp. vm_compute. reflexivity.
  - destruct (edit_reaches_durable_store Reference.platform (typed "a") w
                (AUTOSAVE_DEBOUNCE_MS + 299)%nat eq_refl eq_refl eq_refl)
      as (_ & _ & _ & _ & _ & Hp & _).
    unfold at_. rewrite Hp. vm_compute. reflexivity.
Defined.
